(** * Unified inbox: the sync engine, embedded and verified

    A shallow embedding of the mail synchronisation code of the unified
    inbox backend:

    - [GmailService] and [OutlookService]: the two provider adapters
      (services/gmail.py, services/outlook.py): token refresh, delta
      fetch and record parsing;
    - [SyncTasks]: the ingestion pipeline (tasks/sync_tasks.py): the
      per-account sync, the credential refresh and the idempotent
      insertion of threads, messages and attachments;
    - [Workers]: the worker pool that runs several sync tasks over one
      database.

    Modelling conventions.

    - Exceptions are values: a computation that may raise returns a
      [result], and database code is a state-and-exception function over a
      [Session] ([DB]).  [try ... except Exception] is [try_except].
    - A provider record is a JSON object.  Every key of an object that the
      code reads is an [option] field of a record: [None] is an absent key,
      [d['k']] raises [KeyError] on it and [d.get('k', dflt)] yields the
      default.  Keys are taken to hold values of their schema type.
    - A [datetime] is an instant in seconds and the flag whether the
      value carries a time zone.  Ordering a value with a time zone and
      one without raises [TypeError] ([gt]).  [datetime.utcnow()] is the
      instant [utcnow] of the [World], without time zone; one sync run is
      taken to read one instant.  The dates of an account row,
      [token_expiry] and [last_synced_at], are only ever assigned
      [utcnow()] values and are kept as their instant.  A session reads a
      stored datetime back as it was written.
    - The providers, the clock and the encryption service are the [World]
      of a run; the standard-library parsers are a [PyRuntime].
    - The database session keeps the committed store, the store as the
      open transaction sees it ([pending]) and every store that was ever
      replaced by a commit ([history]), so that what a crash can leave
      behind is a value one can talk about. *)

From stdpp Require Import base option list strings pretty gmap.
From Stdlib Require Import Ascii ZArith Lia.

Open Scope string_scope.
Open Scope Z_scope.

(** ** Python values, exceptions and results *)

Inductive exn : Type :=
  | KeyError (key : string)
  | TypeError
  | HTTPStatusError (status : Z)
  | ProviderError            (* an error raised by a provider client *)
  | DecodeError              (* binascii.Error of a base64 decoder *)
  | InvalidToken             (* cryptography.fernet.InvalidToken *)
  | MultipleResultsFound     (* sqlalchemy: scalar_one_or_none on 2+ rows *)
  | ObjectDeletedError       (* sqlalchemy: attribute of a row that is gone *)
  | Retry (countdown : Z)    (* celery: what self.retry(...) raises *)
  | NameError (name : string).

Inductive result (A : Type) : Type :=
  | Ok (a : A)
  | Raise (e : exn).
Arguments Ok {A} a.
Arguments Raise {A} e.

#[global] Instance result_ret : MRet result := fun _ a => Ok a.
#[global] Instance result_bind : MBind result := fun _ _ f m =>
  match m with
  | Ok a => f a
  | Raise e => Raise e
  end.

Definition is_ok {A} (r : result A) : bool :=
  match r with Ok _ => true | Raise _ => false end.

(** [d['k']]: the value of a key, [KeyError] when the key is absent. *)
Definition subscript {A} (k : string) (field : option A) : result A :=
  match field with
  | Some v => Ok v
  | None => Raise (KeyError k)
  end.

(** [d.get('k', dflt)]. *)
Definition get {A} (field : option A) (dflt : A) : A := default dflt field.

(** A [datetime]: the instant in seconds, and whether the value carries a
    time zone ([tzinfo is not None]). *)
Record datetime : Type := {
  instant : Z;
  aware : bool
}.

(** A datetime without time zone, as [datetime.utcnow()] returns. *)
Definition naive (z : Z) : datetime := {| instant := z; aware := false |}.

(** A datetime with a time zone. *)
Definition zoned (z : Z) : datetime := {| instant := z; aware := true |}.

(** [a > b] on datetimes: "can't compare offset-naive and offset-aware
    datetimes" is a [TypeError]. *)
Definition gt (a b : datetime) : result bool :=
  if Bool.eqb (aware a) (aware b) then Ok (instant b <? instant a)
  else Raise TypeError.

(** Truth value of an optional string: [None] and [''] are false. *)
Definition truthy (s : option string) : bool :=
  match s with
  | Some (String _ _) => true
  | _ => false
  end.

(** [s.split(c)] for a one-character separator: never the empty list. *)
Fixpoint split (c : ascii) (s : string) : list string :=
  match s with
  | EmptyString => [EmptyString]
  | String a s' =>
      if Ascii.eqb a c then EmptyString :: split c s'
      else match split c s' with
           | h :: t => String a h :: t
           | [] => [String a EmptyString]
           end
  end.

(** [s.replace('Z', '+00:00')]. *)
Fixpoint replace_Z (s : string) : string :=
  match s with
  | EmptyString => EmptyString
  | String a s' =>
      if Ascii.eqb a "Z"%char then "+00:00" +:+ replace_Z s'
      else String a (replace_Z s')
  end.

(** The library functions the adapters call.  A parser that raises is
    [None]; the decoder raises [DecodeError] on bad input. *)
Class PyRuntime : Type := {
  (* base64.urlsafe_b64decode(s).decode('utf-8', errors='ignore') *)
  urlsafe_b64decode : string -> result string;
  (* email.utils.parsedate_to_datetime *)
  parsedate_to_datetime : string -> option datetime;
  (* datetime.fromisoformat *)
  fromisoformat : string -> option datetime
}.

(** ** The canonical record both adapters produce *)

Record ParsedAttachment : Type := {
  pa_filename : string;
  pa_mime_type : string;
  pa_size : Z;
  pa_attachment_id : string
}.

Record Parsed : Type := {
  provider_message_id : string;
  thread_id : string;
  from_addr : string;
  to_addrs : list string;
  cc_addrs : list string;
  bcc_addrs : option (list string);   (* the Gmail adapter sets no such key *)
  subject : string;
  date : datetime;
  body_text : string;
  body_html : string;
  snippet : string;
  attachments : list ParsedAttachment;
  has_attachments : bool
}.

(** ** What the providers send *)

(** An HTTP response as httpx hands it over. *)
Record Response (A : Type) : Type := {
  status_code : Z;
  json : A
}.
Arguments status_code {A} r.
Arguments json {A} r.

(** [response.raise_for_status()]: a response outside 2xx raises. *)
Definition raise_for_status {A} (r : Response A) : result unit :=
  if (200 <=? status_code r) && (status_code r <? 300) then Ok tt
  else Raise (HTTPStatusError (status_code r)).

(** The token endpoint's answer to a refresh grant. *)
Module OAuth.
Record Tokens : Type := {
  access_token : option string;
  expires_in : option Z;
  refresh_token : option string
}.
End OAuth.

(** Gmail REST resources, with the keys the adapter reads. *)
Module GmailApi.
Record Header : Type := {
  name : option string;
  value : option string
}.
Record Body : Type := {
  data : option string;
  attachmentId : option string;
  size : option Z
}.
Record Part : Type := {
  mimeType : option string;
  filename : option string;
  body : option Body
}.
Record Payload : Type := {
  headers : option (list Header);
  parts : option (list Part);
  payload_body : option Body          (* key 'body' of the payload *)
}.
Record Message : Type := {
  id : option string;
  threadId : option string;
  payload : option Payload;
  snippet : option string
}.
(* an element of messages.list and of messagesAdded *)
Record MessageRef : Type := { ref_id : option string }.
Record MessageList : Type := { messages : option (list MessageRef) }.
Record HistoryRecord : Type := { messagesAdded : option (list MessageRef) }.
Record HistoryList : Type := { history : option (list HistoryRecord) }.
Record Profile : Type := { historyId : option string }.
End GmailApi.

(** Microsoft Graph resources, with the keys the adapter reads. *)
Module GraphApi.
Record EmailAddress : Type := { address : option string }.
Record Recipient : Type := { emailAddress : option EmailAddress }.
Record ItemBody : Type := {
  contentType : option string;
  content : option string
}.
Record Attachment : Type := {
  att_name : option string;           (* key 'name' *)
  att_contentType : option string;    (* key 'contentType' *)
  att_size : option Z;                (* key 'size' *)
  att_id : option string              (* key 'id' *)
}.
Record Message : Type := {
  id : option string;
  conversationId : option string;
  receivedDateTime : option string;
  sentDateTime : option string;
  toRecipients : option (list Recipient);
  ccRecipients : option (list Recipient);
  bccRecipients : option (list Recipient);
  from : option Recipient;
  body : option ItemBody;
  hasAttachments : option bool;
  attachments : option (list Attachment);
  subject : option string;
  bodyPreview : option string
}.
(* one page of a delta query *)
Record DeltaPage : Type := {
  value : option (list Message);
  deltaLink : option string;          (* key '@odata.deltaLink' *)
  nextLink : option string            (* key '@odata.nextLink' *)
}.
End GraphApi.

(** The world outside one sync run: the clock, the encryption service and
    the answers of the two providers.  A client call that raises (no
    connection, an HttpError of the Google client) is a [Raise]. *)
Record World : Type := {
  utcnow : Z;
  MAX_MESSAGES_PER_ACCOUNT : Z;         (* settings, 50 unless configured *)
  fernet_encrypt : string -> string;
  fernet_decrypt : string -> result string;
  (* POST https://oauth2.googleapis.com/token, grant_type=refresh_token *)
  google_token : string -> result (Response OAuth.Tokens);
  (* POST https://login.microsoftonline.com/<tenant>/oauth2/v2.0/token *)
  microsoft_token : string -> result (Response OAuth.Tokens);
  (* users().history().list(startHistoryId=...).execute() *)
  history_list : option string -> string -> result GmailApi.HistoryList;
  (* users().messages().list(maxResults=..., labelIds=['INBOX']).execute() *)
  messages_list : option string -> Z -> result GmailApi.MessageList;
  (* users().messages().get(id=..., format='full').execute() *)
  messages_get : option string -> string -> result GmailApi.Message;
  (* users().getProfile(userId='me').execute() *)
  get_profile : option string -> result GmailApi.Profile;
  (* GET <url> with the bearer token *)
  graph_get : string -> option string -> result (Response GraphApi.DeltaPage)
}.

(** [for x in xs: f(x)] collecting the results; the first raise ends it. *)
Fixpoint for_each {A B} (f : A -> result B) (xs : list A) : result (list B) :=
  match xs with
  | [] => Ok []
  | x :: xs' => y ← f x; ys ← for_each f xs'; Ok (y :: ys)
  end.

(** ** services/gmail.py *)

Module GmailService.
Section Service.
Context `{PyRuntime} (w : World).

Definition refresh_access_token (refresh_token : string) : result OAuth.Tokens :=
  response ← google_token w refresh_token;
  _ ← raise_for_status response;
  Ok (json response).

(** What a successful fetch returns: [{'type': 'full', ...}] or
    [{'type': 'history', ...}]. *)
Inductive FetchResult : Type :=
  | Full (messages : list GmailApi.Message) (history_id : option string)
  | History (data : GmailApi.HistoryList).

(** The full sync of [fetch_messages]: list the inbox, get every
    message, read the profile's current historyId. *)
Definition full_sync (access_token : option string) (max_results : Z)
  : result FetchResult :=
  messages ← messages_list w access_token max_results;
  message_list ← for_each
    (fun msg => i ← subscript "id" (GmailApi.ref_id msg);
                messages_get w access_token i)
    (get (GmailApi.messages messages) []);
  profile ← get_profile w access_token;
  Ok (Full message_list (GmailApi.historyId profile)).

Definition fetch_messages (access_token : option string) (max_results : Z)
    (history_id : option string) : result FetchResult :=
  match history_id with
  | Some (String _ _ as h) =>
      match history_list w access_token h with
      | Ok history => Ok (History history)
      | Raise _ => full_sync access_token max_results
      end
  | _ => full_sync access_token max_results
  end.

(** [{h['name']: h['value'] for h in ...}]: a later header of the same
    name replaces an earlier one. *)
Fixpoint headers_dict (hs : list GmailApi.Header) (acc : gmap string string)
  : result (gmap string string) :=
  match hs with
  | [] => Ok acc
  | h :: hs' =>
      k ← subscript "name" (GmailApi.name h);
      v ← subscript "value" (GmailApi.value h);
      headers_dict hs' (<[k:=v]> acc)
  end.

(** One round of the body loop over the parts; the state is
    [(body_text, body_html)]. *)
Definition body_of_part (acc : string * string) (part : GmailApi.Part)
  : result (string * string) :=
  mt ← subscript "mimeType" (GmailApi.mimeType part);
  if String.eqb mt "text/plain" then
    b ← subscript "body" (GmailApi.body part);
    match GmailApi.data b with
    | Some d => text ← urlsafe_b64decode d; Ok (text, acc.2)
    | None => Ok acc
    end
  else if String.eqb mt "text/html" then
    b ← subscript "body" (GmailApi.body part);
    match GmailApi.data b with
    | Some d => html ← urlsafe_b64decode d; Ok (acc.1, html)
    | None => Ok acc
    end
  else Ok acc.

Fixpoint body_of_parts (acc : string * string) (ps : list GmailApi.Part)
  : result (string * string) :=
  match ps with
  | [] => Ok acc
  | part :: ps' => acc' ← body_of_part acc part; body_of_parts acc' ps'
  end.

Definition no_body : GmailApi.Body :=
  {| GmailApi.data := None; GmailApi.attachmentId := None; GmailApi.size := None |}.

(** One round of the attachment loop: the metadata of a part that has a
    file name and an attachment id. *)
Definition attachment_of_part (part : GmailApi.Part) : result (list ParsedAttachment) :=
  if truthy (GmailApi.filename part)
     && truthy (GmailApi.attachmentId (get (GmailApi.body part) no_body))
  then
    fn ← subscript "filename" (GmailApi.filename part);
    mt ← subscript "mimeType" (GmailApi.mimeType part);
    b ← subscript "body" (GmailApi.body part);
    aid ← subscript "attachmentId" (GmailApi.attachmentId b);
    Ok [ {| pa_filename := fn; pa_mime_type := mt;
            pa_size := get (GmailApi.size b) 0; pa_attachment_id := aid |} ]
  else Ok [].

Fixpoint attachments_of_parts (ps : list GmailApi.Part)
  : result (list ParsedAttachment) :=
  match ps with
  | [] => Ok []
  | part :: ps' =>
      a ← attachment_of_part part;
      rest ← attachments_of_parts ps';
      Ok (a ++ rest)%list
  end.

Definition parse_message (now : Z) (message : GmailApi.Message) : result Parsed :=
  pl ← subscript "payload" (GmailApi.payload message);
  headers ← headers_dict (get (GmailApi.headers pl) []) ∅;
  bodies ←
    match GmailApi.parts pl with
    | Some ps => body_of_parts ("", "") ps
    | None =>
        match GmailApi.payload_body pl with
        | Some b =>
            match GmailApi.data b with
            | Some d => text ← urlsafe_b64decode d; Ok (text, "")
            | None => Ok ("", "")
            end
        | None => Ok ("", "")
        end
    end;
  atts ←
    match GmailApi.parts pl with
    | Some ps => attachments_of_parts ps
    | None => Ok []
    end;
  let date_str := get (headers !! "Date") "" in
  let d := match parsedate_to_datetime date_str with
           | Some d => d
           | None => naive now                          (* datetime.utcnow() *)
           end in
  mid ← subscript "id" (GmailApi.id message);
  tid ← subscript "threadId" (GmailApi.threadId message);
  Ok {| provider_message_id := mid;
        thread_id := tid;
        from_addr := get (headers !! "From") "";
        to_addrs := split "," (get (headers !! "To") "");
        cc_addrs := if truthy (headers !! "Cc")
                    then split "," (get (headers !! "Cc") "") else [];
        bcc_addrs := None;
        subject := get (headers !! "Subject") "";
        date := d;
        body_text := bodies.1;
        body_html := bodies.2;
        snippet := get (GmailApi.snippet message) "";
        attachments := atts;
        has_attachments := bool_decide (0 < length atts)%nat |}.
End Service.
End GmailService.

(** ** services/outlook.py *)

Module OutlookService.
Section Service.
Context `{PyRuntime} (w : World).

Definition refresh_access_token (refresh_token : string) : result OAuth.Tokens :=
  response ← microsoft_token w refresh_token;
  _ ← raise_for_status response;
  Ok (json response).

Record FetchResult : Type := {
  messages : list GraphApi.Message;
  delta_link : option string;
  next_link : option string
}.

Definition inbox_delta_url (max_results : Z) : string :=
  "https://graph.microsoft.com/v1.0/me/mailFolders/Inbox/messages/delta?$top="
  +:+ pretty max_results.

Definition fetch_messages (access_token : option string) (max_results : Z)
    (delta_link : option string) : result FetchResult :=
  response ←
    match delta_link with
    | Some (String _ _ as link) => graph_get w link access_token
    | _ => graph_get w (inbox_delta_url max_results) access_token
    end;
  _ ← raise_for_status response;
  let data := json response in
  Ok {| messages := get (GraphApi.value data) [];
        delta_link := GraphApi.deltaLink data;
        next_link := GraphApi.nextLink data |}.

(** [r['emailAddress']['address']] *)
Definition address_of (r : GraphApi.Recipient) : result string :=
  ea ← subscript "emailAddress" (GraphApi.emailAddress r);
  subscript "address" (GraphApi.address ea).

Definition no_address : GraphApi.EmailAddress := {| GraphApi.address := None |}.
Definition no_recipient : GraphApi.Recipient := {| GraphApi.emailAddress := None |}.
Definition no_body : GraphApi.ItemBody :=
  {| GraphApi.contentType := None; GraphApi.content := None |}.

Definition attachment_of (att : GraphApi.Attachment) : ParsedAttachment :=
  {| pa_filename := get (GraphApi.att_name att) "";
     pa_mime_type := get (GraphApi.att_contentType att) "";
     pa_size := get (GraphApi.att_size att) 0;
     pa_attachment_id := get (GraphApi.att_id att) "" |}.

Definition parse_message (now : Z) (message : GraphApi.Message) : result Parsed :=
  let date_str :=
    get (GraphApi.receivedDateTime message) (get (GraphApi.sentDateTime message) "") in
  let d := match fromisoformat (replace_Z date_str) with
           | Some d => d
           | None => naive now                          (* datetime.utcnow() *)
           end in
  to ← for_each address_of (get (GraphApi.toRecipients message) []);
  cc ← for_each address_of (get (GraphApi.ccRecipients message) []);
  bcc ← for_each address_of (get (GraphApi.bccRecipients message) []);
  let sender :=
    get (GraphApi.address
           (get (GraphApi.emailAddress (get (GraphApi.from message) no_recipient))
                no_address)) "" in
  let body_obj := get (GraphApi.body message) no_body in
  let is_html := bool_decide (GraphApi.contentType body_obj = Some "html") in
  let atts := if get (GraphApi.hasAttachments message) false
              then attachment_of <$> get (GraphApi.attachments message) []
              else [] in
  mid ← subscript "id" (GraphApi.id message);
  Ok {| provider_message_id := mid;
        thread_id := get (GraphApi.conversationId message) mid;
        from_addr := sender;
        to_addrs := to;
        cc_addrs := cc;
        bcc_addrs := Some bcc;
        subject := get (GraphApi.subject message) "";
        date := d;
        body_text := if is_html then "" else get (GraphApi.content body_obj) "";
        body_html := if is_html then get (GraphApi.content body_obj) "" else "";
        snippet := get (GraphApi.bodyPreview message) "";
        attachments := atts;
        has_attachments := get (GraphApi.hasAttachments message) false |}.
End Service.
End OutlookService.

(** ** models/: the rows of the four tables *)

Inductive EmailProvider : Type := GMAIL | OUTLOOK.

#[global] Instance EmailProvider_eq_dec : EqDecision EmailProvider.
Proof. solve_decision. Defined.

Record EmailAccount : Type := {
  acc_id : Z;
  provider : EmailProvider;
  access_token : option string;
  encrypted_refresh_token : option string;
  token_expiry : option Z;
  sync_state : option (gmap string string);   (* JSON object, default {} *)
  last_synced_at : option Z;
  is_active : bool
}.

Record Thread : Type := {
  t_id : Z;
  t_account_id : Z;
  t_provider_thread_id : string;
  t_subject : string;
  t_snippet : string;
  t_last_message_at : option datetime         (* a nullable column *)
}.

Record Message : Type := {
  m_id : Z;
  m_thread_id : Z;
  m_provider_message_id : string;             (* unique *)
  m_from_addr : string;
  m_to_addrs : list string;
  m_cc_addrs : list string;
  m_subject : string;
  m_date : datetime;
  m_body_text : string;
  m_body_html : string;
  m_has_attachments : bool;
  m_is_read : bool
}.

Record Attachment : Type := {
  a_id : Z;
  a_message_id : Z;
  a_filename : string;
  a_size : Z;
  a_mime_type : string;
  a_provider_attachment_id : string
}.

(** The database: four tables.  A new row goes to the end of its table. *)
Record Store : Type := {
  accounts : list EmailAccount;
  threads : list Thread;
  messages : list Message;
  attachments_table : list Attachment
}.

(** The tables the ingestion writes rows to. *)
Definition mail (s : Store) : list Thread * list Message * list Attachment :=
  (threads s, messages s, attachments_table s).

(** The primary key the database gives the next row of a table. *)
Definition next_id (ids : list Z) : Z := 1 + foldr Z.max 0 ids.

Definition set_access_token (v : option string) (a : EmailAccount) : EmailAccount :=
  {| acc_id := acc_id a; provider := provider a; access_token := v;
     encrypted_refresh_token := encrypted_refresh_token a;
     token_expiry := token_expiry a; sync_state := sync_state a;
     last_synced_at := last_synced_at a; is_active := is_active a |}.

Definition set_encrypted_refresh_token (v : option string) (a : EmailAccount) : EmailAccount :=
  {| acc_id := acc_id a; provider := provider a; access_token := access_token a;
     encrypted_refresh_token := v;
     token_expiry := token_expiry a; sync_state := sync_state a;
     last_synced_at := last_synced_at a; is_active := is_active a |}.

Definition set_token_expiry (v : option Z) (a : EmailAccount) : EmailAccount :=
  {| acc_id := acc_id a; provider := provider a; access_token := access_token a;
     encrypted_refresh_token := encrypted_refresh_token a;
     token_expiry := v; sync_state := sync_state a;
     last_synced_at := last_synced_at a; is_active := is_active a |}.

Definition set_sync_state (v : option (gmap string string)) (a : EmailAccount) : EmailAccount :=
  {| acc_id := acc_id a; provider := provider a; access_token := access_token a;
     encrypted_refresh_token := encrypted_refresh_token a;
     token_expiry := token_expiry a; sync_state := v;
     last_synced_at := last_synced_at a; is_active := is_active a |}.

Definition set_last_synced_at (v : option Z) (a : EmailAccount) : EmailAccount :=
  {| acc_id := acc_id a; provider := provider a; access_token := access_token a;
     encrypted_refresh_token := encrypted_refresh_token a;
     token_expiry := token_expiry a; sync_state := sync_state a;
     last_synced_at := v; is_active := is_active a |}.

Definition set_is_active (v : bool) (a : EmailAccount) : EmailAccount :=
  {| acc_id := acc_id a; provider := provider a; access_token := access_token a;
     encrypted_refresh_token := encrypted_refresh_token a;
     token_expiry := token_expiry a; sync_state := sync_state a;
     last_synced_at := last_synced_at a; is_active := v |}.

(** [thread.last_message_at = d; thread.snippet = s] *)
Definition touch_thread (d : datetime) (s : string) (t : Thread) : Thread :=
  {| t_id := t_id t; t_account_id := t_account_id t;
     t_provider_thread_id := t_provider_thread_id t; t_subject := t_subject t;
     t_snippet := s; t_last_message_at := Some d |}.

Definition with_accounts (f : list EmailAccount -> list EmailAccount) (s : Store) : Store :=
  {| accounts := f (accounts s); threads := threads s; messages := messages s;
     attachments_table := attachments_table s |}.

Definition with_threads (f : list Thread -> list Thread) (s : Store) : Store :=
  {| accounts := accounts s; threads := f (threads s); messages := messages s;
     attachments_table := attachments_table s |}.

Definition with_messages (f : list Message -> list Message) (s : Store) : Store :=
  {| accounts := accounts s; threads := threads s; messages := f (messages s);
     attachments_table := attachments_table s |}.

Definition with_attachments (f : list Attachment -> list Attachment) (s : Store) : Store :=
  {| accounts := accounts s; threads := threads s; messages := messages s;
     attachments_table := f (attachments_table s) |}.

(** ** The database session *)

Record Session : Type := {
  committed : Store;       (* what the database holds *)
  history : list Store;    (* what it held before each commit, newest first *)
  pending : Store          (* what the open transaction sees *)
}.

(** [async with AsyncSessionLocal() as db] *)
Definition open_session (db : Store) : Session :=
  {| committed := db; history := []; pending := db |}.

(** Every store the database held at some moment of the session: a crash
    leaves one of them behind. *)
Definition durable (σ : Session) : list Store := committed σ :: history σ.

(** Database code: it reads and writes the session and may raise; what it
    wrote before a raise stays in the session until a rollback. *)
Definition DB (A : Type) : Type := Session -> result A * Session.

#[global] Instance DB_ret : MRet DB := fun _ a σ => (Ok a, σ).
#[global] Instance DB_bind : MBind DB := fun _ _ f m σ =>
  match m σ with
  | (Ok a, σ') => f a σ'
  | (Raise e, σ') => (Raise e, σ')
  end.

Definition raise {A} (e : exn) : DB A := fun σ => (Raise e, σ).

(** Code that does not touch the session. *)
Definition lift {A} (r : result A) : DB A := fun σ => (r, σ).

(** [try: body  except Exception as e: handler(e)] *)
Definition try_except {A} (body : DB A) (handler : exn -> DB A) : DB A := fun σ =>
  match body σ with
  | (Ok a, σ') => (Ok a, σ')
  | (Raise e, σ') => handler e σ'
  end.

Definition commit : DB unit := fun σ =>
  (Ok tt, {| committed := pending σ; history := committed σ :: history σ;
             pending := pending σ |}).

Definition rollback : DB unit := fun σ =>
  (Ok tt, {| committed := committed σ; history := history σ; pending := committed σ |}).

Definition read {A} (f : Store -> A) : DB A := fun σ => (Ok (f (pending σ)), σ).

Definition write (f : Store -> Store) : DB unit := fun σ =>
  (Ok tt, {| committed := committed σ; history := history σ; pending := f (pending σ) |}).

(** [result.scalar_one_or_none()] *)
Definition scalar_one_or_none {A} (rows : list A) : result (option A) :=
  match rows with
  | [] => Ok None
  | [x] => Ok (Some x)
  | _ => Raise MultipleResultsFound
  end.

(** [select(EmailAccount).where(EmailAccount.id == account_id)] *)
Definition select_account (account_id : Z) (s : Store) : list EmailAccount :=
  filter (fun a => acc_id a = account_id) (accounts s).

(** [select(Message).where(Message.provider_message_id == pmid)] *)
Definition select_message (pmid : string) (s : Store) : list Message :=
  filter (fun m => m_provider_message_id m = pmid) (messages s).

(** [select(Thread).where(and_(Thread.account_id == account_id,
    Thread.provider_thread_id == tid))] *)
Definition select_thread (account_id : Z) (tid : string) (s : Store) : list Thread :=
  filter (fun t => t_account_id t = account_id ∧ t_provider_thread_id t = tid) (threads s).

(** An attribute of the loaded account object, which is the account's row
    in the open transaction. *)
Definition account_obj (account_id : Z) : DB EmailAccount := fun σ =>
  match select_account account_id (pending σ) with
  | a :: _ => (Ok a, σ)
  | [] => (Raise ObjectDeletedError, σ)
  end.

(** The store with the row of an account changed by [f]. *)
Definition update_account (account_id : Z) (f : EmailAccount -> EmailAccount) (s : Store)
  : Store :=
  with_accounts (fmap (fun a => if decide (acc_id a = account_id) then f a else a)) s.

(** An assignment to an attribute of the account object. *)
Definition assign (account_id : Z) (f : EmailAccount -> EmailAccount) : DB unit :=
  write (update_account account_id f).

(** [db.add(row); await db.flush()] for a thread: the new primary key. *)
Definition add_thread (mk : Z -> Thread) : DB Z := fun σ =>
  let i := next_id (t_id <$> threads (pending σ)) in
  (Ok i, {| committed := committed σ; history := history σ;
            pending := with_threads (fun ts => ts ++ [mk i])%list (pending σ) |}).

Definition add_message (mk : Z -> Message) : DB Z := fun σ =>
  let i := next_id (m_id <$> messages (pending σ)) in
  (Ok i, {| committed := committed σ; history := history σ;
            pending := with_messages (fun ms => ms ++ [mk i])%list (pending σ) |}).

Definition add_attachment (mk : Z -> Attachment) : DB unit := fun σ =>
  let i := next_id (a_id <$> attachments_table (pending σ)) in
  (Ok tt, {| committed := committed σ; history := history σ;
             pending := with_attachments (fun ats => ats ++ [mk i])%list (pending σ) |}).

(** [for x in xs: body(x)] in database code. *)
Fixpoint for_ {A} (xs : list A) (body : A -> DB unit) : DB unit :=
  match xs with
  | [] => mret tt
  | x :: xs' => _ ← body x; for_ xs' body
  end.

(** ** tasks/sync_tasks.py *)

(** What [sync_account_async] returns: [{'status': 'skipped', 'reason': ...}]
    or [{'status': 'success', 'account_id': ...}]. *)
Inductive SyncReturn : Type :=
  | Skipped (reason : string)
  | Success (account_id : Z).

Module SyncTasks.
Section Tasks.
Context `{PyRuntime} (w : World).

Definition refresh_token (account_id : Z) : DB unit :=
  account ← account_obj account_id;
  if negb (truthy (encrypted_refresh_token account)) then
    assign account_id (set_is_active false)
  else
    try_except
      (refresh_token ← lift (fernet_decrypt w (get (encrypted_refresh_token account) ""));
       tokens ← lift (match provider account with
                      | GMAIL => GmailService.refresh_access_token w refresh_token
                      | OUTLOOK => OutlookService.refresh_access_token w refresh_token
                      end);
       access ← lift (subscript "access_token" (OAuth.access_token tokens));
       _ ← assign account_id (set_access_token (Some access));
       let expires_in := get (OAuth.expires_in tokens) 3600 in
       _ ← assign account_id (set_token_expiry (Some (utcnow w + expires_in)));
       _ ← match OAuth.refresh_token tokens with
           | Some new =>
               assign account_id (set_encrypted_refresh_token (Some (fernet_encrypt w new)))
           | None => mret tt
           end;
       commit)
      (fun e =>
         _ ← assign account_id (set_is_active false);
         commit).

(** [Thread(account_id=..., provider_thread_id=..., ...)] with the
    primary key the flush gives it. *)
Definition new_thread (parsed : Parsed) (account_id : Z) (i : Z) : Thread :=
  {| t_id := i; t_account_id := account_id;
     t_provider_thread_id := thread_id parsed;
     t_subject := subject parsed;
     t_snippet := snippet parsed;
     t_last_message_at := Some (date parsed) |}.

(** [Message(thread_id=thread.id, ...)] *)
Definition new_message (parsed : Parsed) (tid : Z) (i : Z) : Message :=
  {| m_id := i; m_thread_id := tid;
     m_provider_message_id := provider_message_id parsed;
     m_from_addr := from_addr parsed;
     m_to_addrs := to_addrs parsed;
     m_cc_addrs := cc_addrs parsed;
     m_subject := subject parsed;
     m_date := date parsed;
     m_body_text := body_text parsed;
     m_body_html := body_html parsed;
     m_has_attachments := has_attachments parsed;
     m_is_read := false |}.

(** [Attachment(message_id=message.id, ...)] *)
Definition new_attachment (att : ParsedAttachment) (mid : Z) (i : Z) : Attachment :=
  {| a_id := i; a_message_id := mid;
     a_filename := pa_filename att;
     a_size := pa_size att;
     a_mime_type := pa_mime_type att;
     a_provider_attachment_id := pa_attachment_id att |}.

(** "Update thread": a later message moves the thread's date and
    snippet.  The comparison [parsed['date'] > thread.last_message_at]
    raises when the thread has no date or when one of the two dates has a
    time zone and the other has none. *)
Definition update_thread (parsed : Parsed) (thread : Thread) : DB unit :=
  match t_last_message_at thread with
  | None => raise TypeError                              (* datetime > None *)
  | Some last =>
      later ← lift (gt (date parsed) last);
      if (later : bool) then
        write (with_threads (fmap (fun t =>
          if decide (t_id t = t_id thread)
          then touch_thread (date parsed) (snippet parsed) t
          else t)))
      else mret tt
  end.

(** The body that [process_gmail_message] and [process_outlook_message]
    share word for word, from the duplicate check to the attachments. *)
Definition store_parsed (parsed : Parsed) (account_id : Z) : DB unit :=
  found ← read (select_message (provider_message_id parsed));
  existing ← lift (scalar_one_or_none found);
  match existing with
  | Some _ => mret tt                                    (* already synced *)
  | None =>
      found ← read (select_thread account_id (thread_id parsed));
      thread ← lift (scalar_one_or_none found);
      tid ← match thread with
            | None => add_thread (new_thread parsed account_id)
            | Some thread => _ ← update_thread parsed thread; mret (t_id thread)
            end;
      mid ← add_message (new_message parsed tid);
      for_ (attachments parsed) (fun att => add_attachment (new_attachment att mid))
  end.

Definition process_gmail_message (msg_data : GmailApi.Message) (account_id : Z)
  : DB unit :=
  parsed ← lift (GmailService.parse_message (utcnow w) msg_data);
  store_parsed parsed account_id.

Definition process_outlook_message (msg_data : GraphApi.Message) (account_id : Z)
  : DB unit :=
  parsed ← lift (OutlookService.parse_message (utcnow w) msg_data);
  store_parsed parsed account_id.

Definition sync_gmail_account (account_id : Z) : DB unit :=
  try_except
    (account ← account_obj account_id;
     let sync_state := get (sync_state account) ∅ in
     let history_id := sync_state !! "history_id" in
     result ← lift (GmailService.fetch_messages w (access_token account)
                      (MAX_MESSAGES_PER_ACCOUNT w) history_id);
     _ ← match result with
         | GmailService.Full msgs new_history_id =>
             _ ← for_ msgs (fun msg_data => process_gmail_message msg_data account_id);
             if truthy new_history_id then
               assign account_id
                 (set_sync_state (Some {[ "history_id" := get new_history_id "" ]}))
             else mret tt
         | GmailService.History data =>
             for_ (get (GmailApi.history data) []) (fun history_record =>
               for_ (get (GmailApi.messagesAdded history_record) []) (fun msg =>
                 mret tt))                                (* pass *)
         end;
     commit)
    (fun e => raise e).

Definition sync_outlook_account (account_id : Z) : DB unit :=
  try_except
    (account ← account_obj account_id;
     let sync_state := get (sync_state account) ∅ in
     let delta_link := sync_state !! "delta_link" in
     result ← lift (OutlookService.fetch_messages w (access_token account)
                      (MAX_MESSAGES_PER_ACCOUNT w) delta_link);
     _ ← for_ (OutlookService.messages result) (fun msg_data =>
           process_outlook_message msg_data account_id);
     _ ← (if truthy (OutlookService.delta_link result) then
            assign account_id
              (set_sync_state
                 (Some {[ "delta_link" := get (OutlookService.delta_link result) "" ]}))
          else mret tt);
     commit)
    (fun e => raise e).

(** "Check if token needs refresh": the first step of
    [sync_account_async] for a loaded, active account. *)
Definition check_token (account : EmailAccount) : DB unit :=
  match token_expiry account with
  | Some expiry =>
      if expiry <? utcnow w then refresh_token (acc_id account) else mret tt
  | None => mret tt
  end.

(** "Fetch messages based on provider": the second step. *)
Definition sync_provider (account : EmailAccount) : DB unit :=
  match provider account with
  | GMAIL => sync_gmail_account (acc_id account)
  | OUTLOOK => sync_outlook_account (acc_id account)
  end.

(** The steps of [sync_account_async] for a loaded, active account, up
    to its return. *)
Definition pipeline (account : EmailAccount) : DB SyncReturn :=
  _ ← check_token account;
  _ ← sync_provider account;
  _ ← assign (acc_id account) (set_last_synced_at (Some (utcnow w)));
  _ ← commit;
  mret (Success (acc_id account)).

(** The [except Exception] block of [sync_account_async].  It names
    [self], which the function does not bind: after the rollback the
    block itself raises [NameError], and [self.retry] is never called. *)
Definition sync_failed (e : exn) : DB SyncReturn :=
  _ ← rollback;
  raise (NameError "self").

Definition sync_account_async (account_id : Z) : DB SyncReturn :=
  try_except
    (found ← read (select_account account_id);
     account ← lift (scalar_one_or_none found);
     match account with
     | None => mret (Skipped "account not found or inactive")
     | Some account =>
         if negb (is_active account) then
           mret (Skipped "account not found or inactive")
         else pipeline account
     end)
    sync_failed.

(** [sync_account_task]: one run of the task on a database, in a session
    of its own. *)
Definition sync_account_task (account_id : Z) (db : Store)
  : result SyncReturn * Session :=
  sync_account_async account_id (open_session db).
End Tasks.
End SyncTasks.

(** ** The worker pool

    [sync_all_accounts] and the API's [trigger_sync] put
    [sync_account_task(account_id)] on the Celery queue; the workers of the
    pool take tasks off the queue and run them side by side, each in a
    session of its own.  A task is observed at two moments: when it has
    loaded its account and passed the entry check (what remains are the
    calls to the provider and the writes), and when it has returned. *)

Module Workers.

Inductive phase : Type :=
  | Queued
  | Running (account : EmailAccount)       (* past the entry check *)
  | Finished (r : result SyncReturn).

Definition is_running (ph : phase) : bool :=
  match ph with Running _ => true | _ => false end.

Record Pool : Type := {
  database : Store;
  tasks : list (Z * phase)                 (* account id, progress *)
}.

(** [sync_account_task.delay(account_id)] *)
Definition delay (account_id : Z) (p : Pool) : Pool :=
  {| database := database p; tasks := (tasks p ++ [(account_id, Queued)])%list |}.

(** [sync_all_accounts_async]: one task per active account. *)
Definition sync_all_accounts (p : Pool) : Pool :=
  foldl (fun p a => delay (acc_id a) p) p
        (filter (fun a => is_active a = true) (accounts (database p))).

(** The entry of [sync_account_async]: load the account; a missing or
    inactive one ends the task. *)
Definition entry (account_id : Z) (db : Store) : result (SyncReturn + EmailAccount) :=
  account ← scalar_one_or_none (select_account account_id db);
  match account with
  | None => Ok (inl (Skipped "account not found or inactive"))
  | Some account =>
      if negb (is_active account)
      then Ok (inl (Skipped "account not found or inactive"))
      else Ok (inr account)
  end.

Section Steps.
Context `{PyRuntime}.

(** A queued task starts: it runs up to the entry check. *)
Definition start (account_id : Z) (db : Store) : phase :=
  match entry account_id db with
  | Ok (inr account) => Running account
  | Ok (inl r) => Finished (Ok r)
  | Raise e => Finished (SyncTasks.sync_failed e (open_session db)).1
  end.

(** A running task completes against the world [w]. *)
Definition complete (w : World) (account : EmailAccount) (db : Store)
  : result SyncReturn * Store :=
  let '(r, σ) := try_except (SyncTasks.pipeline w account) SyncTasks.sync_failed
                   (open_session db) in
  (r, committed σ).

Inductive step : Pool -> Pool -> Prop :=
  | step_start p i account_id :
      tasks p !! i = Some (account_id, Queued) ->
      step p {| database := database p;
                tasks := <[i := (account_id, start account_id (database p))]> (tasks p) |}
  | step_complete p i account_id account w :
      tasks p !! i = Some (account_id, Running account) ->
      step p {| database := (complete w account (database p)).2;
                tasks := <[i := (account_id,
                                 Finished (complete w account (database p)).1)]>
                           (tasks p) |}.

Inductive steps : Pool -> Pool -> Prop :=
  | steps_refl p : steps p p
  | steps_step p q r : step p q -> steps q r -> steps p r.

(** The tasks of an account that are past the entry check and have not
    returned. *)
Definition executing (account_id : Z) (p : Pool) : list (Z * phase) :=
  filter (fun t => t.1 = account_id ∧ is_running t.2 = true) (tasks p).
End Steps.
End Workers.

(** ** Sample data

    A runtime, some accounts and some provider answers to run the code on.
    In the sample runtime a date is written as a decimal number of seconds
    and parses to a datetime with a time zone; base64 text decodes to
    itself. *)

Module Sample.

Fixpoint digits (acc : Z) (s : string) : option Z :=
  match s with
  | EmptyString => Some acc
  | String c s' =>
      let n := Z.of_nat (nat_of_ascii c) - 48 in
      if (0 <=? n) && (n <=? 9) then digits (10 * acc + n) s' else None
  end.

Definition seconds (s : string) : option Z :=
  match s with
  | EmptyString => None
  | _ => digits 0 s
  end.

#[global] Instance runtime : PyRuntime := {|
  urlsafe_b64decode := Ok;
  parsedate_to_datetime := fun s => zoned <$> seconds s;
  fromisoformat := fun s => zoned <$> seconds s
|}.

(** A Gmail message with a sender and a subject and no To header. *)
Definition gmail_no_to : GmailApi.Message :=
  {| GmailApi.id := Some "m1";
     GmailApi.threadId := Some "t1";
     GmailApi.payload := Some
       {| GmailApi.headers := Some
            [ {| GmailApi.name := Some "From"; GmailApi.value := Some "ann@example.org" |};
              {| GmailApi.name := Some "Subject"; GmailApi.value := Some "hello" |};
              {| GmailApi.name := Some "Date"; GmailApi.value := Some "100" |} ];
          GmailApi.parts := None;
          GmailApi.payload_body := None |};
     GmailApi.snippet := Some "hello there" |}.

(** A Graph message of conversation ["conv"]. *)
Definition graph_message (i : string) (received : string) (preview : string)
  : GraphApi.Message :=
  {| GraphApi.id := Some i;
     GraphApi.conversationId := Some "conv";
     GraphApi.receivedDateTime := Some received;
     GraphApi.sentDateTime := None;
     GraphApi.toRecipients := None;
     GraphApi.ccRecipients := None;
     GraphApi.bccRecipients := None;
     GraphApi.from := None;
     GraphApi.body := None;
     GraphApi.hasAttachments := None;
     GraphApi.attachments := None;
     GraphApi.subject := Some "minutes";
     GraphApi.bodyPreview := Some preview |}.

(** A Graph message that lacks its id. *)
Definition graph_no_id : GraphApi.Message :=
  {| GraphApi.id := None;
     GraphApi.conversationId := Some "conv";
     GraphApi.receivedDateTime := None;
     GraphApi.sentDateTime := None;
     GraphApi.toRecipients := None;
     GraphApi.ccRecipients := None;
     GraphApi.bccRecipients := None;
     GraphApi.from := None;
     GraphApi.body := None;
     GraphApi.hasAttachments := None;
     GraphApi.attachments := None;
     GraphApi.subject := None;
     GraphApi.bodyPreview := None |}.

Definition page (msgs : list GraphApi.Message) (delta next : option string)
  : GraphApi.DeltaPage :=
  {| GraphApi.value := Some msgs; GraphApi.deltaLink := delta; GraphApi.nextLink := next |}.

Definition tokens (access : string) (new_refresh : option string) : OAuth.Tokens :=
  {| OAuth.access_token := Some access;
     OAuth.expires_in := Some 3600;
     OAuth.refresh_token := new_refresh |}.

(** A world at instant [now] in which Google is unreachable, the
    Microsoft token endpoint answers [token] and Graph answers [graph]. *)
Definition microsoft_world (now : Z)
    (token : string -> result (Response OAuth.Tokens))
    (graph : string -> option string -> result (Response GraphApi.DeltaPage))
  : World :=
  {| utcnow := now;
     MAX_MESSAGES_PER_ACCOUNT := 50;
     fernet_encrypt := fun s => "enc:" +:+ s;
     fernet_decrypt := fun s => Ok ("dec:" +:+ s);
     google_token := fun _ => Raise ProviderError;
     microsoft_token := token;
     history_list := fun _ _ => Raise ProviderError;
     messages_list := fun _ _ => Raise ProviderError;
     messages_get := fun _ _ => Raise ProviderError;
     get_profile := fun _ => Raise ProviderError;
     graph_get := graph |}.

(** A world at instant [now] in which Microsoft is unreachable and the
    Gmail client answers [hist], [lst], [get], [prof]. *)
Definition google_world (now : Z)
    (hist : option string -> string -> result GmailApi.HistoryList)
    (lst : option string -> Z -> result GmailApi.MessageList)
    (get : option string -> string -> result GmailApi.Message)
    (prof : option string -> result GmailApi.Profile)
  : World :=
  {| utcnow := now;
     MAX_MESSAGES_PER_ACCOUNT := 50;
     fernet_encrypt := fun s => "enc:" +:+ s;
     fernet_decrypt := fun s => Ok ("dec:" +:+ s);
     google_token := fun _ => Raise ProviderError;
     microsoft_token := fun _ => Raise ProviderError;
     history_list := hist;
     messages_list := lst;
     messages_get := get;
     get_profile := prof;
     graph_get := fun _ _ => Raise ProviderError |}.

Definition ok {A} (a : A) : result (Response A) :=
  Ok {| status_code := 200; json := a |}.

Definition status {A} (code : Z) (a : A) : result (Response A) :=
  Ok {| status_code := code; json := a |}.

Definition no_tokens : OAuth.Tokens :=
  {| OAuth.access_token := None; OAuth.expires_in := None; OAuth.refresh_token := None |}.

(** Account 1, an active Outlook mailbox. *)
Definition outlook_account (expiry : option Z) (refresh : option string)
    (state : option (gmap string string)) : EmailAccount :=
  {| acc_id := 1; provider := OUTLOOK; access_token := Some "stale";
     encrypted_refresh_token := refresh; token_expiry := expiry;
     sync_state := state; last_synced_at := None; is_active := true |}.

(** Account 2, an active Gmail mailbox. *)
Definition gmail_account (state : option (gmap string string)) : EmailAccount :=
  {| acc_id := 2; provider := GMAIL; access_token := Some "g-token";
     encrypted_refresh_token := Some "r"; token_expiry := None;
     sync_state := state; last_synced_at := None; is_active := true |}.

Definition empty_db (a : EmailAccount) : Store :=
  {| accounts := [a]; threads := []; messages := []; attachments_table := [] |}.

(** A database in which account [a] has one thread, ["conv"], last
    written to at instant 100, with one message ["m1"]. *)
Definition one_thread_db (a : EmailAccount) : Store :=
  {| accounts := [a];
     threads := [ {| t_id := 1; t_account_id := acc_id a;
                     t_provider_thread_id := "conv"; t_subject := "minutes";
                     t_snippet := "first"; t_last_message_at := Some (zoned 100) |} ];
     messages := [ {| m_id := 1; m_thread_id := 1; m_provider_message_id := "m1";
                      m_from_addr := ""; m_to_addrs := []; m_cc_addrs := [];
                      m_subject := "minutes"; m_date := zoned 100;
                      m_body_text := ""; m_body_html := "";
                      m_has_attachments := false; m_is_read := false |} ];
     attachments_table := [] |}.

Definition cursor (link : string) : option (gmap string string) :=
  Some {[ "delta_link" := link ]}.

(** The world at instant 1000 in which Graph answers every request with
    one page of [msgs] and the delta link [delta], and the Microsoft
    token endpoint answers [token]. *)
Definition graph_world (token : string -> result (Response OAuth.Tokens))
    (msgs : list GraphApi.Message) (delta : option string) : World :=
  microsoft_world 1000 token (fun _ _ => ok (page msgs delta None)).

(** The token endpoint is unreachable. *)
Definition no_token : string -> result (Response OAuth.Tokens) :=
  fun _ => Raise ProviderError.

(** The token endpoint rejects the refresh token: 400, invalid_grant. *)
Definition invalid_grant : string -> result (Response OAuth.Tokens) :=
  fun _ => status 400 no_tokens.

(** The token endpoint issues the access token ["fresh"]. *)
Definition fresh_token : string -> result (Response OAuth.Tokens) :=
  fun _ => ok (tokens "fresh" None).

(** Graph hands over two messages of one conversation. *)
Definition two_messages : World :=
  graph_world no_token
    [graph_message "a1" "10" "first"; graph_message "a2" "20" "second"] (Some "d2").

(** Graph hands over a first page: a link to the next page and no delta
    link. *)
Definition first_page : World :=
  microsoft_world 1000 no_token
    (fun _ _ => ok (page [graph_message "a1" "10" "first"] None (Some "next"))).

(** The token endpoint issues a token, Graph is unreachable. *)
Definition graph_down : World :=
  microsoft_world 1000 fresh_token (fun _ _ => Raise ProviderError).

(** Account 1 with a token that expired at instant 500. *)
Definition expired_inbox (refresh : option string) : Store :=
  one_thread_db (outlook_account (Some 500) refresh (cursor "d1")).

(** Graph serves the access token ["stale"] one new message and turns
    every other token away with 401; the token endpoint answers
    [token]. *)
Definition stale_served (now : Z) (token : string -> result (Response OAuth.Tokens))
  : World :=
  microsoft_world now token
    (fun _ access =>
       if bool_decide (access = Some "stale")
       then ok (page [graph_message "m2" "150" "newer"] (Some "d2") None)
       else status 401 (page [] None None)).

(** Gmail accepts every history id and reports one added message,
    ["g9"], which it would hand out in full on request. *)
Definition history_served : World :=
  google_world 1000
    (fun _ _ => Ok {| GmailApi.history := Some
                        [ {| GmailApi.messagesAdded := Some
                               [ {| GmailApi.ref_id := Some "g9" |} ] |} ] |})
    (fun _ _ => Ok {| GmailApi.messages := Some [ {| GmailApi.ref_id := Some "g9" |} ] |})
    (fun _ _ => Ok gmail_no_to)
    (fun _ => Ok {| GmailApi.historyId := Some "78" |}).

(** Account 2 with the history id 77 stored, and no mail yet. *)
Definition gmail_inbox : Store :=
  empty_db (gmail_account (Some {[ "history_id" := "77" ]})).

(** Account 1 before its first sync. *)
Definition fresh_inbox : Store := empty_db (outlook_account None None None).

(** Account 1 with a valid token and the cursor ["d1"], one thread. *)
Definition inbox : Store := one_thread_db (outlook_account None None (cursor "d1")).
End Sample.

(** * The vocabulary of the properties *)

(** A raw record of either provider, and its way through the pipeline. *)
Inductive RawRecord : Type :=
  | GmailRecord (msg_data : GmailApi.Message)
  | GraphRecord (msg_data : GraphApi.Message).

Definition parse_record `{PyRuntime} (now : Z) (raw : RawRecord) : result Parsed :=
  match raw with
  | GmailRecord msg_data => GmailService.parse_message now msg_data
  | GraphRecord msg_data => OutlookService.parse_message now msg_data
  end.

Definition process_record `{PyRuntime} (w : World) (raw : RawRecord) (account_id : Z)
  : DB unit :=
  match raw with
  | GmailRecord msg_data => SyncTasks.process_gmail_message w msg_data account_id
  | GraphRecord msg_data => SyncTasks.process_outlook_message w msg_data account_id
  end.

(** The loop of a sync over the records of a batch. *)
Definition ingest `{PyRuntime} (w : World) (records : list RawRecord) (account_id : Z)
  : DB unit :=
  for_ records (fun raw => process_record w raw account_id).

(** The session [σ] with [s] as the store of its open transaction. *)
Definition set_pending (s : Store) (σ : Session) : Session :=
  {| committed := committed σ; history := history σ; pending := s |}.

(** The attachment table after the attachment loop of a message. *)
Fixpoint add_attachments (atts : list ParsedAttachment) (mid : Z)
    (table : list Attachment) : list Attachment :=
  match atts with
  | [] => table
  | att :: rest =>
      add_attachments rest mid
        (table ++ [SyncTasks.new_attachment att mid (next_id (a_id <$> table))])%list
  end.

(** The store after a new message went in under thread [tid], the thread
    table having become [ts]. *)
Definition insert_parsed (parsed : Parsed) (tid : Z) (ts : list Thread) (s : Store)
  : Store :=
  let mid := next_id (m_id <$> messages s) in
  {| accounts := accounts s;
     threads := ts;
     messages := (messages s ++ [SyncTasks.new_message parsed tid mid])%list;
     attachments_table := add_attachments (attachments parsed) mid (attachments_table s) |}.

(** The thread table after a message dated [d] with snippet [sn] went into
    the thread [thread], last written to at [last]. *)
Definition bump_thread (d : datetime) (sn : string) (thread : Thread) (last : datetime)
    (ts : list Thread) : list Thread :=
  if instant last <? instant d
  then (fun t => if decide (t_id t = t_id thread) then touch_thread d sn t else t) <$> ts
  else ts.

(** [preserves R m]: whatever [m] returns or raises, the session it leaves
    is related by [R] to the session it found. *)
Definition preserves (R : Session -> Session -> Prop) {A} (m : DB A) : Prop :=
  ∀ σ, R σ (m σ).2.

(** The ingestion of records does not commit and leaves the accounts
    alone. *)
Definition ingest_frame (σ σ' : Session) : Prop :=
  committed σ' = committed σ ∧ history σ' = history σ
  ∧ accounts (pending σ') = accounts (pending σ).

(** Order on nullable dates, by their instants: a missing date is below
    every date. *)
Definition le_opt (a b : option datetime) : Prop :=
  match a, b with
  | None, _ => True
  | Some x, Some y => instant x <= instant y
  | Some _, None => False
  end.

(** The later of two dates; the first when they are of one instant. *)
Definition latest (a b : datetime) : datetime :=
  if instant a <? instant b then b else a.

(** Every thread of [s] is still a thread of [s'], with the same key, and
    its last-message date has not gone back. *)
Definition thread_le (s s' : Store) : Prop :=
  ∀ t, t ∈ threads s ->
    ∃ t', t' ∈ threads s' ∧ t_id t' = t_id t ∧ t_account_id t' = t_account_id t
          ∧ t_provider_thread_id t' = t_provider_thread_id t
          ∧ le_opt (t_last_message_at t) (t_last_message_at t').

(** Primary keys of the thread table are unique, in the database and in
    the open transaction, and the transaction is ahead of the database. *)
Definition threads_ok (σ : Session) : Prop :=
  NoDup (t_id <$> threads (committed σ)) ∧ NoDup (t_id <$> threads (pending σ))
  ∧ thread_le (committed σ) (pending σ).

(** What the database holds never loses a thread or moves a date back. *)
Definition threads_advance (σ σ' : Session) : Prop :=
  threads_ok σ -> threads_ok σ' ∧ thread_le (committed σ) (committed σ').

(** A sequence of sync runs, each in its world, on one database. *)
Definition run_all `{PyRuntime} (runs : list (World * Z)) (db : Store) : Store :=
  foldl (fun db run => committed (SyncTasks.sync_account_task run.1 run.2 db).2) db runs.

(** The sync cursor stored for an account. *)
Definition cursor_of (account_id : Z) (s : Store) : list (option (gmap string string)) :=
  sync_state <$> select_account account_id s.

(** What a provider's fetch hands to the pipeline: the records to ingest
    and the sync state to store, if any.  A Gmail history answer hands
    over nothing: the loops over it are empty. *)
Record Batch : Type := {
  records : list RawRecord;
  new_cursor : option (gmap string string)
}.

Definition fetch_batch (w : World) (prov : EmailProvider) (account : EmailAccount)
  : result Batch :=
  let state := get (sync_state account) ∅ in
  match prov with
  | GMAIL =>
      result ← GmailService.fetch_messages w (access_token account)
                 (MAX_MESSAGES_PER_ACCOUNT w) (state !! "history_id");
      match result with
      | GmailService.Full msgs h =>
          Ok {| records := GmailRecord <$> msgs;
                new_cursor := if truthy h then Some {[ "history_id" := get h "" ]}
                              else None |}
      | GmailService.History _ => Ok {| records := []; new_cursor := None |}
      end
  | OUTLOOK =>
      result ← OutlookService.fetch_messages w (access_token account)
                 (MAX_MESSAGES_PER_ACCOUNT w) (state !! "delta_link");
      Ok {| records := GraphRecord <$> OutlookService.messages result;
            new_cursor := if truthy (OutlookService.delta_link result)
                          then Some {[ "delta_link" :=
                                         get (OutlookService.delta_link result) "" ]}
                          else None |}
  end.

(** [sync_gmail_account] and [sync_outlook_account] in one: fetch, ingest,
    store the cursor, commit. *)
Definition provider_step `{PyRuntime} (w : World) (prov : EmailProvider) (account_id : Z)
  : DB unit :=
  account ← account_obj account_id;
  batch ← lift (fetch_batch w prov account);
  _ ← ingest w (records batch) account_id;
  _ ← match new_cursor batch with
      | Some c => assign account_id (set_sync_state (Some c))
      | None => mret tt
      end;
  commit.

(** A change of an account row that leaves its key, its provider and its
    sync cursor alone: what the credential refresh may do. *)
Definition credential_change (g : EmailAccount -> EmailAccount) : Prop :=
  ∀ a, acc_id (g a) = acc_id a ∧ provider (g a) = provider a
       ∧ sync_state (g a) = sync_state a.

(** The account row after a refresh that the provider answered with
    [tokens], the access token among them being [access]. *)
Definition refreshed (w : World) (tokens : OAuth.Tokens) (access : string)
    (a : EmailAccount) : EmailAccount :=
  let a1 := set_access_token (Some access) a in
  let a2 := set_token_expiry (Some (utcnow w + get (OAuth.expires_in tokens) 3600)) a1 in
  match OAuth.refresh_token tokens with
  | Some new => set_encrypted_refresh_token (Some (fernet_encrypt w new)) a2
  | None => a2
  end.

(** The provider's answer to the refresh of an account's credential. *)
Definition request_tokens (w : World) (a : EmailAccount) : result OAuth.Tokens :=
  refresh_token ← fernet_decrypt w (get (encrypted_refresh_token a) "");
  match provider a with
  | GMAIL => GmailService.refresh_access_token w refresh_token
  | OUTLOOK => OutlookService.refresh_access_token w refresh_token
  end.

(** The session after [commit]. *)
Definition after_commit (σ : Session) : Session := (commit σ).2.

(** The session after [rollback]. *)
Definition after_rollback (σ : Session) : Session := (rollback σ).2.

(** The message table holds exactly one row with this provider id. *)
Definition stored_once (pmid : string) (s : Store) : Prop :=
  ∃ m, select_message pmid s = [m].

(** The store with the cursor of a batch written to the account, if the
    batch brought one. *)
Definition store_cursor (account_id : Z) (c : option (gmap string string)) (s : Store)
  : Store :=
  match c with
  | Some c => update_account account_id (set_sync_state (Some c)) s
  | None => s
  end.

(** The session after the commit of a batch that was ingested into [σi]. *)
Definition batch_committed (account_id : Z) (batch : Batch) (σi : Session) : Session :=
  after_commit (set_pending (store_cursor account_id (new_cursor batch) (pending σi)) σi).

(** The session after the last-synced stamp was written and committed. *)
Definition stamped (w : World) (account_id : Z) (σb : Session) : Session :=
  after_commit
    (set_pending
       (update_account account_id (set_last_synced_at (Some (utcnow w))) (pending σb)) σb).

(** How a sync run ends once the token check left the session [σa] and
    the account object [a]: the fetch fails, the ingestion fails, or the
    batch is committed and then the stamp. *)
Definition finish_sync `{PyRuntime} (w : World) (prov : EmailProvider) (account_id : Z)
    (a : EmailAccount) (σa : Session) : result SyncReturn * Session :=
  match fetch_batch w prov a with
  | Raise e => (Raise (NameError "self"), after_rollback σa)
  | Ok batch =>
      match ingest w (records batch) account_id σa with
      | (Raise e, σi) => (Raise (NameError "self"), after_rollback σi)
      | (Ok _, σi) =>
          (Ok (Success account_id), stamped w account_id (batch_committed account_id batch σi))
      end
  end.

(** Inside one transaction: no thread is lost and no date moves back. *)
Definition pending_advance (σ σ' : Session) : Prop :=
  NoDup (t_id <$> threads (pending σ)) ->
  NoDup (t_id <$> threads (pending σ')) ∧ thread_le (pending σ) (pending σ').

(** The raw records that the fetch of a sync run hands to the pipeline:
    none when the run is skipped or the fetch fails. *)
Definition fetched `{PyRuntime} (w : World) (account_id : Z) (db : Store)
  : list RawRecord :=
  match select_account account_id db with
  | [account] =>
      if is_active account then
        let σa := (SyncTasks.check_token w account (open_session db)).2 in
        match account_obj account_id σa with
        | (Ok a, _) =>
            match fetch_batch w (provider account) a with
            | Ok batch => records batch
            | Raise _ => []
            end
        | (Raise _, _) => []
        end
      else []
  | _ => []
  end.

(** No provider message id has two rows in the message table. *)
Definition unique_ids (s : Store) : Prop :=
  NoDup (m_provider_message_id <$> messages s).

(** Provider message ids stay unique, in the database and in the open
    transaction. *)
Definition ids_stay_unique (σ σ' : Session) : Prop :=
  unique_ids (committed σ) ∧ unique_ids (pending σ) ->
  unique_ids (committed σ') ∧ unique_ids (pending σ').

(** * More vocabulary: what the stores of a run keep *)

(** [keeps I]: if the database and the open transaction both satisfy [I]
    before, they both do after. *)
Definition keeps (I : Store -> Prop) (σ σ' : Session) : Prop :=
  I (committed σ) ∧ I (pending σ) -> I (committed σ') ∧ I (pending σ').

(** The key under which the pipeline finds a thread. *)
Definition thread_key (t : Thread) : Z * string :=
  (t_account_id t, t_provider_thread_id t).

(** No two threads of an account have the same provider thread id. *)
Definition unique_threads (s : Store) : Prop := NoDup (thread_key <$> threads s).

(** Every message belongs to a thread of the table and every attachment to
    a message of the table. *)
Definition refs_ok (s : Store) : Prop :=
  (∀ m, m ∈ messages s -> m_thread_id m ∈ t_id <$> threads s)
  ∧ (∀ a, a ∈ attachments_table s -> a_message_id a ∈ m_id <$> messages s).

(** The message and attachment tables of [s'] are those of [s] with rows
    added at the end: no row of [s] was changed or removed. *)
Definition mail_grows (s s' : Store) : Prop :=
  messages s `prefix_of` messages s'
  ∧ attachments_table s `prefix_of` attachments_table s'.

(** Rows are only added, in the open transaction and in the database. *)
Definition rows_are_kept (σ σ' : Session) : Prop :=
  mail_grows (committed σ) (pending σ) ->
  mail_grows (committed σ') (pending σ') ∧ mail_grows (committed σ) (committed σ').

(** A change of an account row that keeps its key and its provider and
    does not activate it. *)
Definition account_change (g : EmailAccount -> EmailAccount) : Prop :=
  ∀ a, acc_id (g a) = acc_id a ∧ provider (g a) = provider a
       ∧ (is_active (g a) = true -> is_active a = true).


(** A change of an account row that leaves the stamp of the last sync
    alone: what the credential refresh does. *)
Definition token_change (g : EmailAccount -> EmailAccount) : Prop :=
  ∀ a, last_synced_at (g a) = last_synced_at a.

(** ** What the adapters read *)

(** [headers.get(k)] on the dict that [parse_message] builds from the
    header list: the value of the last header named exactly [k]. *)
Fixpoint header_value (k : string) (hs : list GmailApi.Header) : option string :=
  match hs with
  | [] => None
  | h :: hs' =>
      match header_value k hs' with
      | Some v => Some v
      | None => if bool_decide (GmailApi.name h = Some k) then GmailApi.value h else None
      end
  end.

(** [sep.join(parts)]. *)
Fixpoint join (sep : string) (parts : list string) : string :=
  match parts with
  | [] => ""
  | p :: rest =>
      match rest with
      | [] => p
      | _ :: _ => p +:+ sep +:+ join sep rest
      end
  end.

(** A Graph recipient that carries an address. *)
Definition has_address (r : GraphApi.Recipient) : Prop :=
  ∃ ea a, GraphApi.emailAddress r = Some ea ∧ GraphApi.address ea = Some a.

(** The recipients of a Graph message, of all three kinds. *)
Definition recipients (message : GraphApi.Message) : list GraphApi.Recipient :=
  (get (GraphApi.toRecipients message) []
   ++ get (GraphApi.ccRecipients message) []
   ++ get (GraphApi.bccRecipients message) [])%list.

(** The message a reference of the inbox listing stands for. *)
Definition got (w : World) (access_token : option string)
    (ref : GmailApi.MessageRef) (message : GmailApi.Message) : Prop :=
  ∃ i, GmailApi.ref_id ref = Some i ∧ messages_get w access_token i = Ok message.

(** ** services/outlook.py: send_message *)

Module OutlookMail.
(** The JSON body of the request: [{'comment': ...}] of a reply or
    [{'message': {...}}] of a new mail. *)
Inductive Payload : Type :=
  | Comment (comment : option string)
  | NewMessage (subject : string) (contentType : string) (content : option string)
      (toRecipients : list string).

Record Request : Type := {
  url : string;
  bearer : option string;
  payload : Payload
}.

Section Service.
(* client.post(url, headers=..., json=...) *)
Variable graph_post : Request -> result (Response unit).

Definition send_message (access_token : option string) (to : list string)
    (subject : string) (body_html body_text in_reply_to : option string)
  : result string :=
  let body_content := if truthy body_html then body_html else body_text in
  let content_type := if truthy body_html then "HTML" else "Text" in
  response ←
    match in_reply_to with
    | Some (String _ _ as i) =>
        graph_post
          {| url := "https://graph.microsoft.com/v1.0/me/messages/" +:+ i +:+ "/reply";
             bearer := access_token;
             payload := Comment body_content |}
    | _ =>
        graph_post
          {| url := "https://graph.microsoft.com/v1.0/me/sendMail";
             bearer := access_token;
             payload := NewMessage subject content_type body_content to |}
    end;
  _ ← raise_for_status response;
  Ok "sent".
End Service.
End OutlookMail.

(** ** More sample data *)

Module Fixtures.
(** A Gmail message with two Subject headers, a To header of two
    addresses and three parts: a text body, an attached file and an
    inline part that has a file name and no attachment id. *)
Definition gmail_with_parts : GmailApi.Message :=
  {| GmailApi.id := Some "g1";
     GmailApi.threadId := Some "gt1";
     GmailApi.payload := Some
       {| GmailApi.headers := Some
            [ {| GmailApi.name := Some "Subject"; GmailApi.value := Some "draft" |};
              {| GmailApi.name := Some "To";
                 GmailApi.value := Some "ann@example.org, bob@example.org" |};
              {| GmailApi.name := Some "Subject"; GmailApi.value := Some "final" |} ];
          GmailApi.parts := Some
            [ {| GmailApi.mimeType := Some "text/plain"; GmailApi.filename := Some "";
                 GmailApi.body := Some {| GmailApi.data := Some "hello";
                                          GmailApi.attachmentId := None;
                                          GmailApi.size := Some 5 |} |};
              {| GmailApi.mimeType := Some "application/pdf";
                 GmailApi.filename := Some "report.pdf";
                 GmailApi.body := Some {| GmailApi.data := None;
                                          GmailApi.attachmentId := Some "att-1";
                                          GmailApi.size := Some 2048 |} |};
              {| GmailApi.mimeType := Some "image/png";
                 GmailApi.filename := Some "logo.png";
                 GmailApi.body := Some {| GmailApi.data := None;
                                          GmailApi.attachmentId := None;
                                          GmailApi.size := Some 10 |} |} ];
          GmailApi.payload_body := None |};
     GmailApi.snippet := Some "hello" |}.

(** The Graph endpoint accepts every request. *)
Definition accepted : OutlookMail.Request -> result (Response unit) :=
  fun _ => Ok {| status_code := 202; json := tt |}.

(** Gmail lists the inbox as two messages, hands each out and reports
    the history id 78; it has no history for any cursor. *)
Definition gmail_listing : World :=
  Sample.google_world 1000
    (fun _ _ => Raise ProviderError)
    (fun _ _ => Ok {| GmailApi.messages := Some [ {| GmailApi.ref_id := Some "m1" |};
                                                  {| GmailApi.ref_id := Some "g1" |} ] |})
    (fun _ i => if String.eqb i "m1" then Ok Sample.gmail_no_to else Ok gmail_with_parts)
    (fun _ => Ok {| GmailApi.historyId := Some "78" |}).

(** A Graph message with an HTML body and one recipient. *)
Definition graph_html : GraphApi.Message :=
  {| GraphApi.id := Some "o1";
     GraphApi.conversationId := None;
     GraphApi.receivedDateTime := Some "10";
     GraphApi.sentDateTime := None;
     GraphApi.toRecipients := Some
       [ {| GraphApi.emailAddress := Some {| GraphApi.address := Some "ann@example.org" |} |} ];
     GraphApi.ccRecipients := None;
     GraphApi.bccRecipients := None;
     GraphApi.from := None;
     GraphApi.body := Some {| GraphApi.contentType := Some "html";
                              GraphApi.content := Some "<p>hi</p>" |};
     GraphApi.hasAttachments := Some true;
     GraphApi.attachments := None;
     GraphApi.subject := Some "minutes";
     GraphApi.bodyPreview := Some "hi" |}.
End Fixtures.

(** The attachment row [row] holds the metadata [att] of an attachment of
    the message [mid]. *)
Definition row_of (mid : Z) (att : ParsedAttachment) (row : Attachment) : Prop :=
  a_message_id row = mid
  ∧ a_filename row = pa_filename att
  ∧ a_size row = pa_size att
  ∧ a_mime_type row = pa_mime_type att
  ∧ a_provider_attachment_id row = pa_attachment_id att.



(** * Properties *)

(** ** Results and database code *)

Lemma bind_Ok {A B} (f : A -> result B) (a : A) : (Ok a ≫= f) = f a.
Proof. reflexivity. Qed.

Lemma bind_Ok_inv {A B} (f : A -> result B) (m : result A) (b : B) :
  (m ≫= f) = Ok b -> ∃ a, m = Ok a ∧ f a = Ok b.
Proof. destruct m as [a|e]; [eauto | discriminate]. Qed.

Lemma db_bind_Ok {A B} (m : DB A) (f : A -> DB B) σ a σ' :
  m σ = (Ok a, σ') -> (m ≫= f) σ = f a σ'.
Proof. intros E. unfold mbind, DB_bind. by rewrite E. Qed.


Lemma db_bind_Ok_inv {A B} (m : DB A) (f : A -> DB B) σ b σ'' :
  (m ≫= f) σ = (Ok b, σ'') -> ∃ a σ', m σ = (Ok a, σ') ∧ f a σ' = (Ok b, σ'').
Proof.
  unfold mbind, DB_bind. destruct (m σ) as [[a|e] σ'] eqn:E; [eauto | discriminate].
Qed.

Lemma try_except_reraise {A} (m : DB A) σ : try_except m (fun e => raise e) σ = m σ.
Proof. unfold try_except, raise. by destruct (m σ) as [[a|e] σ']. Qed.

(** A relation between the session before and the session after that every
    step of a piece of database code maintains is maintained by the whole:
    the rules below follow the shape of the code. *)
Section Preserves.
Context (R : Session -> Session -> Prop).
Context (R_refl : ∀ σ, R σ σ) (R_trans : ∀ σ1 σ2 σ3, R σ1 σ2 -> R σ2 σ3 -> R σ1 σ3).

Lemma preserves_ret {A} (a : A) : preserves R (mret a).
Proof using R_refl. intros σ. apply R_refl. Qed.

Lemma preserves_raise {A} (e : exn) : preserves R (@raise A e).
Proof using R_refl. intros σ. apply R_refl. Qed.

Lemma preserves_lift {A} (r : result A) : preserves R (lift r).
Proof using R_refl. intros σ. apply R_refl. Qed.

Lemma preserves_read {A} (f : Store -> A) : preserves R (read f).
Proof using R_refl. intros σ. apply R_refl. Qed.

Lemma preserves_bind {A B} (m : DB A) (f : A -> DB B) :
  preserves R m -> (∀ a, preserves R (f a)) -> preserves R (m ≫= f).
Proof using R_trans.
  intros Hm Hf σ. unfold mbind, DB_bind.
  specialize (Hm σ). destruct (m σ) as [[a|e] σ']; simpl in *; [|done].
  eapply R_trans; [exact Hm | apply Hf].
Qed.

Lemma preserves_try_except {A} (m : DB A) (h : exn -> DB A) :
  preserves R m -> (∀ e, preserves R (h e)) -> preserves R (try_except m h).
Proof using R_trans.
  intros Hm Hh σ. unfold try_except.
  specialize (Hm σ). destruct (m σ) as [[a|e] σ']; simpl in *; [done|].
  eapply R_trans; [exact Hm | apply Hh].
Qed.

Lemma preserves_for_ {A} (xs : list A) (body : A -> DB unit) :
  (∀ x, preserves R (body x)) -> preserves R (for_ xs body).
Proof using R_refl R_trans.
  intros Hb. induction xs as [|x xs IH]; simpl.
  - apply preserves_ret.
  - apply preserves_bind; [apply Hb | intros _; exact IH].
Qed.
End Preserves.

(** ** The adapters *)

Section Adapters.
Context `{PyRuntime}.

Lemma split_not_nil c s : split c s ≠ [].
Proof.
  destruct s as [|a s]; simpl; [done|].
  destruct (Ascii.eqb a c); [done|]. by destruct (split c s).
Qed.

(** The recipient list of a parsed Gmail message is never empty: without
    a To header it holds one empty address. *)
Lemma gmail_to_addrs_not_nil now message parsed :
  GmailService.parse_message now message = Ok parsed -> to_addrs parsed ≠ [].
Proof.
  unfold GmailService.parse_message. intros E.
  repeat (apply bind_Ok_inv in E as (? & _ & E)).
  injection E as <-. simpl. apply split_not_nil.
Qed.

(** A Gmail date that does not parse becomes the instant of the parse. *)
Lemma gmail_date_falls_back now message parsed :
  GmailService.parse_message now message = Ok parsed ->
  date parsed = naive now ∨ ∃ s, parsedate_to_datetime s = Some (date parsed).
Proof.
  unfold GmailService.parse_message. intros E.
  repeat (apply bind_Ok_inv in E as (? & _ & E)).
  injection E as <-. simpl.
  match goal with |- context [parsedate_to_datetime ?s] =>
    destruct (parsedate_to_datetime s) eqn:D end; eauto.
Qed.

(** A Graph message parses whatever optional keys it lacks, as soon as it
    has an id and its recipients have addresses; a date that does not
    parse becomes the instant of the parse. *)
Lemma outlook_parse_total now message i :
  GraphApi.id message = Some i ->
  is_ok (for_each OutlookService.address_of (get (GraphApi.toRecipients message) [])) = true ->
  is_ok (for_each OutlookService.address_of (get (GraphApi.ccRecipients message) [])) = true ->
  is_ok (for_each OutlookService.address_of (get (GraphApi.bccRecipients message) [])) = true ->
  ∃ parsed, OutlookService.parse_message now message = Ok parsed
            ∧ provider_message_id parsed = i
            ∧ (GraphApi.toRecipients message = None -> to_addrs parsed = [])
            ∧ (GraphApi.ccRecipients message = None -> cc_addrs parsed = [])
            ∧ (GraphApi.subject message = None -> subject parsed = "")
            ∧ (fromisoformat
                 (replace_Z (get (GraphApi.receivedDateTime message)
                                 (get (GraphApi.sentDateTime message) ""))) = None ->
               date parsed = naive now).
Proof.
  intros Hid Hto Hcc Hbcc. unfold OutlookService.parse_message.
  destruct (for_each _ (get (GraphApi.toRecipients message) [])) as [to|] eqn:Eto; [|done].
  destruct (for_each _ (get (GraphApi.ccRecipients message) [])) as [cc|] eqn:Ecc; [|done].
  destruct (for_each _ (get (GraphApi.bccRecipients message) [])) as [bcc|] eqn:Ebcc; [|done].
  rewrite Hid. simpl. eexists. split; [reflexivity|]. simpl.
  repeat split.
  - intros E. rewrite E in Eto. simpl in Eto. congruence.
  - intros E. rewrite E in Ecc. simpl in Ecc. congruence.
  - by intros ->.
  - by intros ->.
Qed.

(** The Gmail adapter answers a history id the provider rejects with a
    full sync. *)
Lemma gmail_stale_cursor_falls_back (w : World) token max h e :
  h ≠ "" ->
  history_list w token h = Raise e ->
  GmailService.fetch_messages w token max (Some h) = GmailService.full_sync w token max.
Proof.
  intros Hh E. unfold GmailService.fetch_messages.
  destruct h; [done|]. by rewrite E.
Qed.

Lemma gmail_full_sync_is_full (w : World) token max r :
  GmailService.full_sync w token max = Ok r ->
  ∃ msgs h, r = GmailService.Full msgs h.
Proof.
  unfold GmailService.full_sync. intros E.
  repeat (apply bind_Ok_inv in E as (? & _ & E)).
  injection E as <-. eauto.
Qed.
End Adapters.

(** ** The ingestion of one record *)

Lemma set_pending_id σ : set_pending (pending σ) σ = σ.
Proof. by destruct σ. Qed.

Lemma scalar_one_or_none_Some {A} (rows : list A) x :
  scalar_one_or_none rows = Ok (Some x) <-> rows = [x].
Proof.
  destruct rows as [|y [|z rows]]; simpl; split; intros E; try done.
  - by injection E as <-.
  - by injection E as <-.
Qed.

Lemma scalar_one_or_none_None {A} (rows : list A) :
  scalar_one_or_none rows = Ok None <-> rows = [].
Proof. destruct rows as [|y [|z rows]]; simpl; split; intros E; done. Qed.

Lemma attachments_loop atts mid σ :
  for_ atts (fun att => add_attachment (SyncTasks.new_attachment att mid)) σ
  = (Ok tt, set_pending (with_attachments (add_attachments atts mid) (pending σ)) σ).
Proof.
  revert σ. induction atts as [|att atts IH]; intros σ; simpl.
  - destruct σ as [c h [a t m at_]]. reflexivity.
  - unfold mbind, DB_bind. simpl. rewrite IH. reflexivity.
Qed.

Section Ingestion.
Context `{PyRuntime}.

(** A record whose id is in the table is skipped: nothing is written. *)
Lemma store_parsed_duplicate parsed account_id σ m :
  select_message (provider_message_id parsed) (pending σ) = [m] ->
  SyncTasks.store_parsed parsed account_id σ = (Ok tt, σ).
Proof.
  intros E. unfold SyncTasks.store_parsed, mbind, DB_bind, read, lift. simpl.
  by rewrite E.
Qed.

(** A new record of a new thread: one thread row, one message row and
    the attachment rows. *)
Lemma store_parsed_new_thread parsed account_id σ :
  select_message (provider_message_id parsed) (pending σ) = [] ->
  select_thread account_id (thread_id parsed) (pending σ) = [] ->
  let tid := next_id (t_id <$> threads (pending σ)) in
  SyncTasks.store_parsed parsed account_id σ
  = (Ok tt,
     set_pending
       (insert_parsed parsed tid
          (threads (pending σ) ++ [SyncTasks.new_thread parsed account_id tid])%list
          (pending σ)) σ).
Proof.
  intros Em Et. unfold SyncTasks.store_parsed, mbind, DB_bind, read, lift. simpl.
  rewrite Em. simpl. rewrite Et. simpl.
  rewrite attachments_loop. reflexivity.
Qed.

(** A new record of a thread the account has: the thread row moves
    forward, one message row and the attachment rows are added. *)
Lemma store_parsed_existing_thread parsed account_id σ thread last :
  select_message (provider_message_id parsed) (pending σ) = [] ->
  select_thread account_id (thread_id parsed) (pending σ) = [thread] ->
  t_last_message_at thread = Some last ->
  aware (date parsed) = aware last ->
  SyncTasks.store_parsed parsed account_id σ
  = (Ok tt,
     set_pending
       (insert_parsed parsed (t_id thread)
          (bump_thread (date parsed) (snippet parsed) thread last (threads (pending σ)))
          (pending σ)) σ).
Proof.
  intros Em Et El Haw. unfold SyncTasks.store_parsed, mbind, DB_bind, read, lift. simpl.
  rewrite Em. simpl. rewrite Et. simpl.
  unfold SyncTasks.update_thread, bump_thread, mbind, DB_bind, lift, gt.
  rewrite El, Haw, Bool.eqb_reflx.
  destruct (instant last <? instant (date parsed)); simpl; rewrite attachments_loop;
    reflexivity.
Qed.

(** The date of the record has a time zone and the date of its thread has
    none, or the other way round: the comparison raises. *)
Lemma store_parsed_incomparable parsed account_id σ thread last :
  select_message (provider_message_id parsed) (pending σ) = [] ->
  select_thread account_id (thread_id parsed) (pending σ) = [thread] ->
  t_last_message_at thread = Some last ->
  aware (date parsed) ≠ aware last ->
  SyncTasks.store_parsed parsed account_id σ = (Raise TypeError, σ).
Proof.
  intros Em Et El Haw. unfold SyncTasks.store_parsed, mbind, DB_bind, read, lift. simpl.
  rewrite Em. simpl. rewrite Et. simpl.
  unfold SyncTasks.update_thread, mbind, DB_bind, lift, gt. rewrite El.
  destruct (Bool.eqb (aware (date parsed)) (aware last)) eqn:Eb; [|done].
  by apply Bool.eqb_prop in Eb.
Qed.

Lemma store_parsed_Ok_inv parsed account_id σ σ' :
  SyncTasks.store_parsed parsed account_id σ = (Ok tt, σ') ->
  (∃ m, select_message (provider_message_id parsed) (pending σ) = [m] ∧ σ' = σ)
  ∨ (select_message (provider_message_id parsed) (pending σ) = []
     ∧ ∃ tid ts, σ' = set_pending (insert_parsed parsed tid ts (pending σ)) σ
       ∧ ((select_thread account_id (thread_id parsed) (pending σ) = []
           ∧ tid = next_id (t_id <$> threads (pending σ))
           ∧ ts = (threads (pending σ) ++ [SyncTasks.new_thread parsed account_id tid])%list)
          ∨ (∃ thread last,
               select_thread account_id (thread_id parsed) (pending σ) = [thread]
               ∧ t_last_message_at thread = Some last
               ∧ tid = t_id thread
               ∧ ts = bump_thread (date parsed) (snippet parsed) thread last
                        (threads (pending σ))))).
Proof.
  intros E.
  destruct (scalar_one_or_none (select_message (provider_message_id parsed) (pending σ)))
    as [[m|]|e] eqn:Em.
  - apply scalar_one_or_none_Some in Em. left. exists m. split; [done|].
    rewrite (store_parsed_duplicate _ _ _ _ Em) in E. congruence.
  - apply scalar_one_or_none_None in Em. right. split; [done|].
    destruct (scalar_one_or_none (select_thread account_id (thread_id parsed) (pending σ)))
      as [[thread|]|e] eqn:Et.
    + apply scalar_one_or_none_Some in Et.
      destruct (t_last_message_at thread) as [last|] eqn:El.
      * destruct (decide (aware (date parsed) = aware last)) as [Haw|Haw].
        2:{ by rewrite (store_parsed_incomparable _ _ _ _ _ Em Et El Haw) in E. }
        rewrite (store_parsed_existing_thread _ _ _ _ _ Em Et El Haw) in E.
        injection E as <-. eexists _, _. split; [reflexivity|]. right. eauto 10.
      * revert E. unfold SyncTasks.store_parsed, mbind, DB_bind, read, lift. simpl.
        rewrite Em. simpl. rewrite Et. simpl.
        unfold SyncTasks.update_thread. rewrite El. done.
    + apply scalar_one_or_none_None in Et.
      rewrite (store_parsed_new_thread _ _ _ Em Et) in E.
      injection E as <-. eexists _, _. split; [reflexivity|]. left. eauto.
    + revert E. unfold SyncTasks.store_parsed, mbind, DB_bind, read, lift. simpl.
      rewrite Em. simpl. rewrite Et. done.
  - revert E. unfold SyncTasks.store_parsed, mbind, DB_bind, read, lift. simpl.
    rewrite Em. done.
Qed.
End Ingestion.

(** ** Threads only move forward *)

Lemma next_id_fresh ids i : i ∈ ids -> i < next_id ids.
Proof.
  unfold next_id. induction ids as [|j ids IH]; simpl; intros Hi.
  - by apply elem_of_nil in Hi.
  - apply elem_of_cons in Hi as [->|Hi]; [lia|]. specialize (IH Hi). lia.
Qed.

Lemma next_id_not_in ids : next_id ids ∉ ids.
Proof. intros Hi. apply next_id_fresh in Hi. lia. Qed.

Lemma le_opt_refl a : le_opt a a.
Proof. destruct a; simpl; [lia|done]. Qed.

Lemma le_opt_trans a b c : le_opt a b -> le_opt b c -> le_opt a c.
Proof. destruct a, b, c; simpl; try done; lia. Qed.

Lemma thread_le_refl s : thread_le s s.
Proof. intros t Ht. exists t. repeat split; auto using le_opt_refl. Qed.

Lemma thread_le_trans s1 s2 s3 : thread_le s1 s2 -> thread_le s2 s3 -> thread_le s1 s3.
Proof.
  intros H12 H23 t Ht.
  destruct (H12 t Ht) as (t2 & Ht2 & Hi & Ha & Hp & Hl).
  destruct (H23 t2 Ht2) as (t3 & Ht3 & Hi' & Ha' & Hp' & Hl').
  exists t3. repeat split; try congruence. eauto using le_opt_trans.
Qed.

Lemma thread_le_same_threads s s' s'' :
  threads s' = threads s'' -> thread_le s s' -> thread_le s s''.
Proof. intros E Hle t Ht. rewrite <- E. by apply Hle. Qed.

Lemma threads_advance_refl σ : threads_advance σ σ.
Proof. intros Hok. split; [done | apply thread_le_refl]. Qed.

Lemma threads_advance_trans σ1 σ2 σ3 :
  threads_advance σ1 σ2 -> threads_advance σ2 σ3 -> threads_advance σ1 σ3.
Proof.
  intros H12 H23 Hok. destruct (H12 Hok) as [Hok2 Hle]. destruct (H23 Hok2) as [Hok3 Hle'].
  split; [done | eauto using thread_le_trans].
Qed.

(** A write that keeps the thread table as it is. *)
Lemma threads_advance_write f :
  (∀ s, threads (f s) = threads s) -> preserves threads_advance (write f).
Proof.
  intros Hf σ (Hc & Hp & Hle). unfold threads_ok. simpl. rewrite Hf. repeat split; try done.
  - eapply thread_le_same_threads; [symmetry; apply Hf | done].
  - apply thread_le_refl.
Qed.

Lemma threads_advance_assign account_id f :
  preserves threads_advance (assign account_id f).
Proof. apply threads_advance_write. by intros []. Qed.

Lemma threads_advance_commit : preserves threads_advance commit.
Proof.
  intros σ (Hc & Hp & Hle). unfold threads_ok. simpl. repeat split; auto using thread_le_refl.
Qed.

Lemma threads_advance_rollback : preserves threads_advance rollback.
Proof.
  intros σ (Hc & Hp & Hle). unfold threads_ok. simpl. repeat split; auto using thread_le_refl.
Qed.

Lemma NoDup_key_inj {A} (key : A -> Z) (l : list A) x y :
  NoDup (key <$> l) -> x ∈ l -> y ∈ l -> key x = key y -> x = y.
Proof.
  induction l as [|z l IH]; simpl; intros Hnd Hx Hy E.
  - by apply elem_of_nil in Hx.
  - apply NoDup_cons in Hnd as [Hz Hnd].
    apply elem_of_cons in Hx as [->|Hx]; apply elem_of_cons in Hy as [->|Hy]; auto.
    + exfalso. apply Hz. rewrite E. by apply list_elem_of_fmap_2.
    + exfalso. apply Hz. rewrite <- E. by apply list_elem_of_fmap_2.
Qed.

(** The thread table after a new thread went in. *)
Lemma thread_le_new_thread s parsed tid thread :
  thread_le s (insert_parsed parsed tid (threads s ++ [thread])%list s).
Proof.
  intros t Ht. exists t. simpl. repeat split; auto using le_opt_refl.
  apply elem_of_app. by left.
Qed.

(** The thread table after an existing thread moved: only that thread
    changed, and its date went up. *)
Lemma thread_le_bump s parsed tid thread last :
  NoDup (t_id <$> threads s) ->
  thread ∈ threads s ->
  t_last_message_at thread = Some last ->
  thread_le s (insert_parsed parsed tid
                 (bump_thread (date parsed) (snippet parsed) thread last (threads s)) s).
Proof.
  intros Hnd Hin Hlast t Ht. unfold bump_thread. simpl.
  destruct (instant last <? instant (date parsed)) eqn:Hlt.
  - set (f := fun t : Thread => if decide (t_id t = t_id thread)
                                then touch_thread (date parsed) (snippet parsed) t else t).
    exists (f t). split; [by apply list_elem_of_fmap_2|]. unfold f.
    destruct (decide (t_id t = t_id thread)) as [Heq|Hne]; simpl.
    + assert (t = thread) as -> by eauto using NoDup_key_inj.
      rewrite Hlast. simpl. repeat split; try done. lia.
    + repeat split; auto using le_opt_refl.
  - exists t. repeat split; auto using le_opt_refl.
Qed.

Lemma bump_thread_ids d sn thread last ts :
  t_id <$> bump_thread d sn thread last ts = t_id <$> ts.
Proof.
  unfold bump_thread. destruct (instant last <? instant d); [|done].
  rewrite <- list_fmap_compose. apply list_fmap_ext. intros i t _. simpl.
  by destruct (decide (t_id t = t_id thread)).
Qed.

Section Advance.
Context `{PyRuntime}.

Lemma store_parsed_Raise_inv parsed account_id σ σ' e :
  SyncTasks.store_parsed parsed account_id σ = (Raise e, σ') -> σ' = σ.
Proof.
  unfold SyncTasks.store_parsed, mbind, DB_bind, mret, DB_ret, read, lift, raise. simpl.
  destruct (scalar_one_or_none (select_message _ _)) as [[m|]|e1]; simpl;
    [congruence| |congruence].
  destruct (scalar_one_or_none (select_thread _ _ _)) as [[thread|]|e2]; simpl;
    [| |congruence].
  - unfold SyncTasks.update_thread, raise, mbind, DB_bind, lift, gt.
    destruct (t_last_message_at thread) as [last|]; simpl; [|congruence].
    destruct (Bool.eqb (aware (date parsed)) (aware last)); simpl; [|congruence].
    destruct (instant last <? instant (date parsed)); simpl; rewrite attachments_loop;
      congruence.
  - rewrite attachments_loop. congruence.
Qed.

Lemma select_thread_elem account_id tid s thread :
  select_thread account_id tid s = [thread] -> thread ∈ threads s.
Proof.
  intros E. assert (Hin : thread ∈ select_thread account_id tid s).
  { rewrite E. apply list_elem_of_singleton. done. }
  unfold select_thread in Hin. by apply list_elem_of_filter in Hin as [_ ?].
Qed.

Lemma store_parsed_advance parsed account_id :
  preserves threads_advance (SyncTasks.store_parsed parsed account_id).
Proof.
  intros σ. destruct (SyncTasks.store_parsed parsed account_id σ) as [[[]|e] σ'] eqn:E; simpl.
  - apply store_parsed_Ok_inv in E as [(m & _ & ->)|(_ & tid & ts & -> & Hcase)];
      [apply threads_advance_refl|].
    intros (Hc & Hp & Hle). unfold threads_ok. simpl.
    destruct Hcase as [(Et & -> & ->)|(thread & last & Et & El & -> & ->)].
    + repeat split; auto using thread_le_refl.
      * rewrite fmap_app. simpl. apply NoDup_app. repeat split; [done| |apply NoDup_singleton].
        intros i Hi Hi'. apply list_elem_of_singleton in Hi' as ->.
        by apply next_id_not_in in Hi.
      * eapply thread_le_trans; [exact Hle|]. apply thread_le_new_thread.
    + repeat split; auto using thread_le_refl.
      * by rewrite bump_thread_ids.
      * eapply thread_le_trans; [exact Hle|].
        apply thread_le_bump; eauto using select_thread_elem.
  - apply store_parsed_Raise_inv in E as ->. apply threads_advance_refl.
Qed.
End Advance.

(** ** What the primitives maintain, a sync run maintains *)

Section SyncPreserves.
Context `{PyRuntime} (w : World).
Context (R : Session -> Session -> Prop).
Context (R_refl : ∀ σ, R σ σ).
Context (R_trans : ∀ σ1 σ2 σ3, R σ1 σ2 -> R σ2 σ3 -> R σ1 σ3).
Context (R_assign : ∀ account_id f, preserves R (assign account_id f)).
Context (R_commit : preserves R commit).
Context (R_rollback : preserves R rollback).
Context (R_store : ∀ parsed account_id,
           preserves R (SyncTasks.store_parsed parsed account_id)).

(** One step of a proof that a piece of the sync code maintains [R]:
    follow the shape of the code. *)
Ltac maintain :=
  first
    [ apply (preserves_ret _ R_refl)
    | apply (preserves_raise _ R_refl)
    | apply (preserves_lift _ R_refl)
    | apply (preserves_read _ R_refl)
    | apply R_assign
    | apply R_commit
    | apply R_rollback
    | apply R_store
    | apply (preserves_bind _ R_trans); [|intros ?]
    | apply (preserves_try_except _ R_trans); [|intros ?]
    | apply (preserves_for_ _ R_refl R_trans); intros ?
    | match goal with
      | |- preserves _ (match ?x with _ => _ end) => destruct x
      | |- preserves _ (if ?x then _ else _) => destruct x
      end ].

Lemma account_obj_preserves account_id : preserves R (account_obj account_id).
Proof using R_refl.
  intros σ. unfold account_obj. destruct (select_account _ _); apply R_refl.
Qed.

Lemma refresh_token_preserves account_id :
  preserves R (SyncTasks.refresh_token w account_id).
Proof using R_refl R_trans R_assign R_commit.
  unfold SyncTasks.refresh_token.
  apply (preserves_bind _ R_trans); [apply account_obj_preserves|].
  intros account. cbv zeta. repeat maintain.
Qed.

Lemma process_record_preserves raw account_id :
  preserves R (process_record w raw account_id).
Proof using R_refl R_trans R_store.
  destruct raw; simpl;
    unfold SyncTasks.process_gmail_message, SyncTasks.process_outlook_message;
    repeat maintain.
Qed.

Lemma sync_gmail_account_preserves account_id :
  preserves R (SyncTasks.sync_gmail_account w account_id).
Proof using R_refl R_trans R_assign R_commit R_store.
  unfold SyncTasks.sync_gmail_account.
  apply (preserves_try_except _ R_trans); [|intros ?; maintain].
  apply (preserves_bind _ R_trans); [apply account_obj_preserves|].
  intros account. cbv zeta.
  apply (preserves_bind _ R_trans); [maintain|]. intros result.
  apply (preserves_bind _ R_trans); [|intros; maintain].
  destruct result.
  - apply (preserves_bind _ R_trans).
    + apply (preserves_for_ _ R_refl R_trans).
      intros msg. apply (process_record_preserves (GmailRecord msg)).
    + intros. repeat maintain.
  - repeat maintain.
Qed.

Lemma sync_outlook_account_preserves account_id :
  preserves R (SyncTasks.sync_outlook_account w account_id).
Proof using R_refl R_trans R_assign R_commit R_store.
  unfold SyncTasks.sync_outlook_account.
  apply (preserves_try_except _ R_trans); [|intros ?; maintain].
  apply (preserves_bind _ R_trans); [apply account_obj_preserves|].
  intros account. cbv zeta.
  apply (preserves_bind _ R_trans); [maintain|]. intros result.
  apply (preserves_bind _ R_trans).
  - apply (preserves_for_ _ R_refl R_trans).
    intros msg. apply (process_record_preserves (GraphRecord msg)).
  - intros. repeat maintain.
Qed.

Lemma sync_account_async_preserves account_id :
  preserves R (SyncTasks.sync_account_async w account_id).
Proof using R_refl R_trans R_assign R_commit R_rollback R_store.
  unfold SyncTasks.sync_account_async, SyncTasks.sync_failed.
  apply (preserves_try_except _ R_trans); [|intros ?; repeat maintain].
  apply (preserves_bind _ R_trans); [maintain|]. intros found.
  apply (preserves_bind _ R_trans); [maintain|]. intros [account|]; [|maintain].
  destruct (negb (is_active account)); [maintain|].
  unfold SyncTasks.pipeline, SyncTasks.check_token, SyncTasks.sync_provider.
  apply (preserves_bind _ R_trans).
  { destruct (token_expiry account) as [expiry|]; [|maintain].
    destruct (expiry <? utcnow w); [apply refresh_token_preserves | maintain]. }
  intros _. apply (preserves_bind _ R_trans).
  { destruct (provider account);
      [apply sync_gmail_account_preserves | apply sync_outlook_account_preserves]. }
  intros _. repeat maintain.
Qed.
End SyncPreserves.

Section SyncAdvance.
Context `{PyRuntime} (w : World).

Lemma sync_account_async_advance account_id :
  preserves threads_advance (SyncTasks.sync_account_async w account_id).
Proof.
  apply (sync_account_async_preserves w _ threads_advance_refl threads_advance_trans
           threads_advance_assign threads_advance_commit threads_advance_rollback
           store_parsed_advance).
Qed.

(** One sync run on a database whose thread keys are unique. *)
Lemma sync_account_task_advance account_id db :
  NoDup (t_id <$> threads db) ->
  let db' := committed (SyncTasks.sync_account_task w account_id db).2 in
  NoDup (t_id <$> threads db') ∧ thread_le db db'.
Proof.
  intros Hnd. unfold SyncTasks.sync_account_task.
  destruct (sync_account_async_advance account_id (open_session db)) as [(Hc & _ & _) Hle].
  - unfold threads_ok. simpl. repeat split; auto using thread_le_refl.
  - split; [exact Hc | exact Hle].
Qed.
End SyncAdvance.

Lemma run_all_advance `{PyRuntime} runs db :
  NoDup (t_id <$> threads db) ->
  NoDup (t_id <$> threads (run_all runs db)) ∧ thread_le db (run_all runs db).
Proof.
  revert db. induction runs as [|[w account_id] runs IH]; intros db Hnd; simpl.
  - split; [done | apply thread_le_refl].
  - destruct (sync_account_task_advance w account_id db Hnd) as [Hnd' Hle].
    destruct (IH _ Hnd') as [Hnd'' Hle'].
    split; [done | eauto using thread_le_trans].
Qed.

(** ** The provider step in one form for both providers *)

Section ProviderStep.
Context `{PyRuntime} (w : World).

Lemma for_pass {A} (xs : list A) σ : for_ xs (fun _ => mret tt) σ = (Ok tt, σ).
Proof. induction xs as [|x xs IH]; simpl; [done|]. unfold mbind, DB_bind. simpl. exact IH. Qed.

Lemma for_history_pass (hs : list GmailApi.HistoryRecord) σ :
  for_ hs (fun history_record =>
    for_ (get (GmailApi.messagesAdded history_record) [])
         (fun _ : GmailApi.MessageRef => mret tt)) σ = (Ok tt, σ).
Proof.
  induction hs as [|h hs IH]; simpl; [done|].
  unfold mbind, DB_bind. rewrite for_pass. exact IH.
Qed.

Lemma for_fmap {A B} (g : A -> B) (xs : list A) (body : B -> DB unit) σ :
  for_ (g <$> xs) body σ = for_ xs (fun x => body (g x)) σ.
Proof.
  revert σ. induction xs as [|x xs IH]; intros σ; simpl; [done|].
  unfold mbind, DB_bind. destruct (body (g x) σ) as [[[]|e] σ']; [apply IH | done].
Qed.

Lemma sync_provider_normal account σ :
  SyncTasks.sync_provider w account σ
  = provider_step w (provider account) (acc_id account) σ.
Proof.
  unfold SyncTasks.sync_provider, provider_step.
  destruct (provider account).
  - unfold SyncTasks.sync_gmail_account. rewrite try_except_reraise.
    unfold fetch_batch, ingest, mbind, DB_bind, result_bind, lift. cbv zeta.
    destruct (account_obj (acc_id account) σ) as [[a|e] σ1]; [|done].
    destruct (GmailService.fetch_messages _ _ _ _) as [[msgs h|data]|e]; simpl; [| |done].
    + rewrite for_fmap. simpl.
      destruct (for_ msgs _ σ1) as [[[]|e] σ2]; [|done].
      by destruct (truthy h).
    + by rewrite for_history_pass.
  - unfold SyncTasks.sync_outlook_account. rewrite try_except_reraise.
    unfold fetch_batch, ingest, mbind, DB_bind, result_bind, lift. cbv zeta.
    destruct (account_obj (acc_id account) σ) as [[a|e] σ1]; [|done].
    destruct (OutlookService.fetch_messages _ _ _ _) as [result|e]; simpl; [|done].
    rewrite for_fmap. simpl.
    destruct (for_ (OutlookService.messages result) _ σ1) as [[[]|e] σ2]; [|done].
    by destruct (truthy (OutlookService.delta_link result)).
Qed.
End ProviderStep.

(** ** The credential refresh *)

Lemma update_account_compose account_id f g s :
  (∀ a, acc_id (f a) = acc_id a) ->
  update_account account_id g (update_account account_id f s)
  = update_account account_id (g ∘ f) s.
Proof.
  intros Hf. unfold update_account, with_accounts. simpl. f_equal.
  rewrite <- list_fmap_compose. apply list_fmap_ext. intros i a _. simpl.
  destruct (decide (acc_id a = account_id)) as [E|E].
  - rewrite decide_True by (by rewrite Hf). done.
  - by rewrite decide_False.
Qed.

Lemma account_obj_head account_id σ a rest :
  select_account account_id (pending σ) = a :: rest ->
  account_obj account_id σ = (Ok a, σ).
Proof. intros E. unfold account_obj. by rewrite E. Qed.

Section Refresh.
Context `{PyRuntime} (w : World).

(** No refresh token: the account is deactivated in the open
    transaction, nothing is committed, nothing is raised. *)
Lemma refresh_token_without_token account_id σ a rest :
  select_account account_id (pending σ) = a :: rest ->
  truthy (encrypted_refresh_token a) = false ->
  SyncTasks.refresh_token w account_id σ
  = (Ok tt, set_pending (update_account account_id (set_is_active false) (pending σ)) σ).
Proof.
  intros Ea Ht. unfold SyncTasks.refresh_token.
  rewrite (db_bind_Ok _ _ _ _ _ (account_obj_head _ _ _ _ Ea)). by rewrite Ht.
Qed.

(** The provider answered: the new credential is written and
    committed. *)
Lemma refresh_token_succeeds account_id σ a rest tokens access :
  select_account account_id (pending σ) = a :: rest ->
  truthy (encrypted_refresh_token a) = true ->
  request_tokens w a = Ok tokens ->
  OAuth.access_token tokens = Some access ->
  SyncTasks.refresh_token w account_id σ
  = (Ok tt, after_commit (set_pending
              (update_account account_id (refreshed w tokens access) (pending σ)) σ)).
Proof.
  intros Ea Ht Er Eacc. unfold SyncTasks.refresh_token.
  rewrite (db_bind_Ok _ _ _ _ _ (account_obj_head _ _ _ _ Ea)). rewrite Ht. simpl.
  unfold request_tokens in Er. apply bind_Ok_inv in Er as (rt & Ed & Er).
  unfold try_except, mbind, DB_bind, lift, assign, write, commit, after_commit,
    set_pending. rewrite Ed, Er, Eacc. simpl.
  unfold refreshed.
  destruct (OAuth.refresh_token tokens) as [new|]; simpl;
    rewrite !update_account_compose by done; reflexivity.
Qed.

(** The refresh failed, at the decryption, at the provider or for want
    of an access token in the answer: the exception is swallowed, the
    account is deactivated and that is committed. *)
Lemma refresh_token_fails account_id σ a rest :
  select_account account_id (pending σ) = a :: rest ->
  truthy (encrypted_refresh_token a) = true ->
  (∀ tokens, request_tokens w a = Ok tokens -> OAuth.access_token tokens = None) ->
  SyncTasks.refresh_token w account_id σ
  = (Ok tt, after_commit (set_pending
              (update_account account_id (set_is_active false) (pending σ)) σ)).
Proof.
  intros Ea Ht Er. unfold SyncTasks.refresh_token.
  rewrite (db_bind_Ok _ _ _ _ _ (account_obj_head _ _ _ _ Ea)). rewrite Ht. simpl.
  unfold request_tokens in Er.
  unfold try_except, mbind, DB_bind, lift, assign, write, commit, after_commit,
    set_pending.
  destruct (fernet_decrypt w _) as [rt|e]; simpl in *; [|done].
  destruct (match provider a with GMAIL => _ | OUTLOOK => _ end) as [tokens|e]; [|done].
  rewrite (Er tokens eq_refl). done.
Qed.

(** Whatever the provider does, the refresh returns, and what it did is
    a change [g] of the credential of the account, committed or not. *)
Lemma refresh_token_returns account_id σ a rest :
  select_account account_id (pending σ) = a :: rest ->
  ∃ g, credential_change g
       ∧ let σ1 := set_pending (update_account account_id g (pending σ)) σ in
         (SyncTasks.refresh_token w account_id σ = (Ok tt, σ1)
          ∨ SyncTasks.refresh_token w account_id σ = (Ok tt, after_commit σ1)).
Proof.
  intros Ea.
  destruct (truthy (encrypted_refresh_token a)) eqn:Ht.
  - destruct (request_tokens w a) as [tokens|e] eqn:Er.
    + destruct (OAuth.access_token tokens) as [access|] eqn:Eacc.
      * exists (refreshed w tokens access). split.
        { intros b. unfold refreshed. by destruct (OAuth.refresh_token tokens). }
        right. eapply refresh_token_succeeds; eauto.
      * exists (set_is_active false). split; [done|]. right.
        eapply refresh_token_fails; eauto. intros tokens' E. congruence.
    + exists (set_is_active false). split; [done|]. right.
      eapply refresh_token_fails; eauto. intros tokens' E. congruence.
  - exists (set_is_active false). split; [done|]. left.
    eapply refresh_token_without_token; eauto.
Qed.
End Refresh.

(** ** Ingestion is idempotent *)

Lemma select_message_insert q parsed tid ts s :
  select_message q (insert_parsed parsed tid ts s)
  = (select_message q s
     ++ if decide (provider_message_id parsed = q)
        then [SyncTasks.new_message parsed tid (next_id (m_id <$> messages s))]
        else [])%list.
Proof.
  unfold select_message, insert_parsed. simpl. rewrite filter_app. by f_equal.
Qed.

Section Idempotent.
Context `{PyRuntime}.

(** The id a record parses to, and whether it parses at all, do not
    depend on the instant of the parse. *)
Lemma parse_record_id_stable now now' raw parsed :
  parse_record now raw = Ok parsed ->
  ∃ parsed', parse_record now' raw = Ok parsed'
             ∧ provider_message_id parsed' = provider_message_id parsed
             ∧ thread_id parsed' = thread_id parsed.
Proof.
  destruct raw as [m|m]; simpl;
    unfold GmailService.parse_message, OutlookService.parse_message; cbv zeta; intros E;
    repeat match goal with
           | E : (?m ≫= _) = Ok _ |- _ =>
               let x := fresh "x" in
               let Ex := fresh "Ex" in
               apply bind_Ok_inv in E as (x & Ex & E); rewrite Ex, bind_Ok
           end.
  all: injection E as <-.
  all: eexists; (split; [reflexivity | done]).
Qed.

Lemma store_parsed_frame parsed account_id :
  preserves ingest_frame (SyncTasks.store_parsed parsed account_id).
Proof.
  intros σ. destruct (SyncTasks.store_parsed parsed account_id σ) as [[[]|e] σ'] eqn:E; simpl.
  - apply store_parsed_Ok_inv in E as [(m & _ & ->)|(_ & tid & ts & -> & _)]; done.
  - by apply store_parsed_Raise_inv in E as ->.
Qed.

Lemma ingest_frame_refl σ : ingest_frame σ σ.
Proof. done. Qed.

Lemma ingest_frame_trans σ1 σ2 σ3 :
  ingest_frame σ1 σ2 -> ingest_frame σ2 σ3 -> ingest_frame σ1 σ3.
Proof. intros (?&?&?) (?&?&?). repeat split; congruence. Qed.

Lemma process_record_frame w raw account_id :
  preserves ingest_frame (process_record w raw account_id).
Proof.
  destruct raw; simpl;
    unfold SyncTasks.process_gmail_message, SyncTasks.process_outlook_message;
    (apply (preserves_bind _ ingest_frame_trans);
     [apply (preserves_lift _ ingest_frame_refl) | intros; apply store_parsed_frame]).
Qed.

Lemma ingest_keeps_frame w records account_id :
  preserves ingest_frame (ingest w records account_id).
Proof.
  apply (preserves_for_ _ ingest_frame_refl ingest_frame_trans).
  intros raw. apply process_record_frame.
Qed.

(** What a record went through when its processing returned. *)
Lemma process_record_Ok_inv w raw account_id σ σ' :
  process_record w raw account_id σ = (Ok tt, σ') ->
  ∃ parsed, parse_record (utcnow w) raw = Ok parsed
            ∧ SyncTasks.store_parsed parsed account_id σ = (Ok tt, σ').
Proof.
  destruct raw as [m|m]; simpl;
    unfold SyncTasks.process_gmail_message, SyncTasks.process_outlook_message;
    intros E; apply db_bind_Ok_inv in E as (parsed & σ1 & E1 & E);
    unfold lift in E1; injection E1 as E1 <-; eauto.
Qed.

Lemma process_record_parsed w raw account_id parsed σ :
  parse_record (utcnow w) raw = Ok parsed ->
  process_record w raw account_id σ = SyncTasks.store_parsed parsed account_id σ.
Proof.
  destruct raw as [m|m]; simpl;
    unfold SyncTasks.process_gmail_message, SyncTasks.process_outlook_message;
    intros E; unfold mbind at 1, DB_bind, lift; by rewrite E.
Qed.

(** After a record went in its id has one row, and ids that had one row
    keep it. *)
Lemma store_parsed_stores parsed account_id σ σ' :
  SyncTasks.store_parsed parsed account_id σ = (Ok tt, σ') ->
  stored_once (provider_message_id parsed) (pending σ')
  ∧ ∀ q, stored_once q (pending σ) -> stored_once q (pending σ').
Proof.
  intros E.
  apply store_parsed_Ok_inv in E as [(m & Em & ->)|(Em & tid & ts & -> & _)].
  - split; [by exists m | done].
  - simpl. split.
    + eexists. rewrite select_message_insert, Em, decide_True by done. reflexivity.
    + intros q [m Eq]. exists m. rewrite select_message_insert, Eq.
      rewrite decide_False; [done|]. intros <-. congruence.
Qed.

(** After a batch went in, every record of it has exactly one row. *)
Lemma ingest_stores w records account_id σ σ' :
  ingest w records account_id σ = (Ok tt, σ') ->
  (∀ q, stored_once q (pending σ) -> stored_once q (pending σ'))
  ∧ ∀ raw, raw ∈ records ->
      ∃ parsed, parse_record (utcnow w) raw = Ok parsed
                ∧ stored_once (provider_message_id parsed) (pending σ').
Proof.
  revert σ. induction records as [|raw records IH]; intros σ E.
  - injection E as <-. split; [done|]. intros raw Hin. by apply elem_of_nil in Hin.
  - unfold ingest in E. simpl in E.
    apply db_bind_Ok_inv in E as ([] & σ1 & E1 & E).
    destruct (IH _ E) as [Hkeep Hall].
    apply process_record_Ok_inv in E1 as (parsed & Ep & Es).
    apply store_parsed_stores in Es as [Hnew Hkeep1].
    split; [auto|].
    intros raw' Hin. apply elem_of_cons in Hin as [->|Hin]; [|auto].
    exists parsed. auto.
Qed.

(** A batch whose records all have their row changes nothing, whatever
    the instant and whatever the account. *)
Lemma ingest_stored_is_noop w records account_id σ :
  (∀ raw, raw ∈ records ->
     ∃ parsed, parse_record (utcnow w) raw = Ok parsed
               ∧ stored_once (provider_message_id parsed) (pending σ)) ->
  ingest w records account_id σ = (Ok tt, σ).
Proof.
  induction records as [|raw records IH]; intros Hall; [done|].
  unfold ingest. simpl.
  destruct (Hall raw) as (parsed & Ep & m & Em); [apply elem_of_cons; by left|].
  erewrite db_bind_Ok.
  2:{ rewrite (process_record_parsed _ _ _ _ _ Ep). eapply store_parsed_duplicate, Em. }
  apply IH. intros raw' Hin. apply Hall. apply elem_of_cons. by right.
Qed.
End Idempotent.

(** ** The shape of a sync run *)

Section Run.
Context `{PyRuntime} (w : World).

(** A run whose entry check passed: the token check, then one of the
    three endings of [finish_sync]. *)
Lemma pipeline_run account σ0 σa a :
  SyncTasks.check_token w account σ0 = (Ok tt, σa) ->
  account_obj (acc_id account) σa = (Ok a, σa) ->
  try_except (SyncTasks.pipeline w account) SyncTasks.sync_failed σ0
  = finish_sync w (provider account) (acc_id account) a σa.
Proof.
  intros Ec Ea. unfold try_except, SyncTasks.pipeline.
  rewrite (db_bind_Ok _ _ _ _ _ Ec).
  unfold mbind at 1. unfold DB_bind. rewrite sync_provider_normal.
  unfold provider_step. rewrite (db_bind_Ok _ _ _ _ _ Ea).
  unfold finish_sync, mbind at 1, DB_bind, lift.
  destruct (fetch_batch w (provider account) a) as [batch|e]; [|reflexivity].
  unfold mbind at 1. unfold DB_bind.
  destruct (ingest w (records batch) (acc_id account) σa) as [[[]|e] σi]; [|reflexivity].
  unfold batch_committed, stamped, store_cursor.
  destruct (new_cursor batch) as [c|]; simpl.
  - reflexivity.
  - by rewrite set_pending_id.
Qed.

(** The loaded account passes the entry check: the run is its
    pipeline under the exception handler. *)
Lemma sync_account_async_active account_id σ account :
  select_account account_id (pending σ) = [account] ->
  is_active account = true ->
  SyncTasks.sync_account_async w account_id σ
  = try_except (SyncTasks.pipeline w account) SyncTasks.sync_failed σ.
Proof.
  intros Ea Hact. unfold SyncTasks.sync_account_async, try_except.
  unfold mbind at 1, DB_bind, read. unfold mbind at 1, DB_bind, lift.
  rewrite Ea. simpl. by rewrite Hact.
Qed.

(** A missing or inactive account: the run is skipped and the session is
    as it was. *)
Lemma sync_account_async_skipped account_id σ :
  (select_account account_id (pending σ) = []
   ∨ ∃ account, select_account account_id (pending σ) = [account]
                ∧ is_active account = false) ->
  SyncTasks.sync_account_async w account_id σ
  = (Ok (Skipped "account not found or inactive"), σ).
Proof.
  intros Hs. unfold SyncTasks.sync_account_async, try_except.
  unfold mbind at 1, DB_bind, read. unfold mbind at 1, DB_bind, lift.
  destruct Hs as [->|(account & -> & Hact)]; simpl; [done|]. by rewrite Hact.
Qed.
End Run.

(** ** The token check *)

Lemma select_account_update account_id g s :
  (∀ a, acc_id (g a) = acc_id a) ->
  select_account account_id (update_account account_id g s)
  = g <$> select_account account_id s.
Proof.
  intros Hg. unfold select_account, update_account. simpl.
  induction (accounts s) as [|a l IH]; [done|]. rewrite fmap_cons.
  destruct (decide (acc_id a = account_id)) as [E|E].
  - rewrite !filter_cons_True by (by rewrite ?Hg). rewrite fmap_cons. by f_equal.
  - rewrite !filter_cons_False by done. exact IH.
Qed.

Lemma mail_update_account account_id g s : mail (update_account account_id g s) = mail s.
Proof. done. Qed.

Lemma cursor_of_update account_id g s :
  (∀ a, acc_id (g a) = acc_id a ∧ sync_state (g a) = sync_state a) ->
  cursor_of account_id (update_account account_id g s) = cursor_of account_id s.
Proof.
  intros Hg. unfold cursor_of. rewrite select_account_update by apply Hg.
  rewrite <- list_fmap_compose. apply list_fmap_ext. intros i a _. simpl. apply Hg.
Qed.

Lemma select_account_key account_id s a :
  a ∈ select_account account_id s -> acc_id a = account_id.
Proof. unfold select_account. intros Hin. by apply list_elem_of_filter in Hin as [? _]. Qed.

Section TokenCheck.
Context `{PyRuntime} (w : World).

(** The token check always returns.  It leaves the mail tables and the
    cursor alone; if it commits, it commits the store it leaves in the
    open transaction. *)
Lemma check_token_returns account σ :
  select_account (acc_id account) (pending σ) = [account] ->
  ∃ σa a,
    SyncTasks.check_token w account σ = (Ok tt, σa)
    ∧ select_account (acc_id account) (pending σa) = [a]
    ∧ provider a = provider account
    ∧ mail (pending σa) = mail (pending σ)
    ∧ cursor_of (acc_id account) (pending σa) = cursor_of (acc_id account) (pending σ)
    ∧ (∀ s, s ∈ durable σa -> s ∈ durable σ ∨ s = pending σa).
Proof.
  intros Ea.
  assert (Hsame : ∃ σa a, (Ok tt, σ) = (Ok tt, σa)
    ∧ select_account (acc_id account) (pending σa) = [a]
    ∧ provider a = provider account
    ∧ mail (pending σa) = mail (pending σ)
    ∧ cursor_of (acc_id account) (pending σa) = cursor_of (acc_id account) (pending σ)
    ∧ (∀ s, s ∈ durable σa -> s ∈ durable σ ∨ s = pending σa)).
  { exists σ, account. repeat split; auto. }
  unfold SyncTasks.check_token.
  destruct (token_expiry account) as [expiry|]; [|exact Hsame].
  destruct (expiry <? utcnow w); [|exact Hsame].
  destruct (refresh_token_returns w _ _ _ _ Ea) as (g & Hg & Hcase).
  assert (Hacc : select_account (acc_id account)
                   (update_account (acc_id account) g (pending σ)) = [g account]).
  { rewrite select_account_update by apply Hg. by rewrite Ea. }
  assert (Hcur : cursor_of (acc_id account)
                   (update_account (acc_id account) g (pending σ))
                 = cursor_of (acc_id account) (pending σ)).
  { apply cursor_of_update. intros b. destruct (Hg b) as (?&?&?). done. }
  cbv zeta in Hcase. destruct Hcase as [E|E]; rewrite E; eexists _, (g account).
  - repeat split; [exact Hacc | apply Hg | exact Hcur |]. intros s Hs. by left.
  - repeat split; [exact Hacc | apply Hg | exact Hcur |].
    intros s Hs. unfold durable in *. simpl in *.
    apply elem_of_cons in Hs as [->|Hs]; [by right | by left].
Qed.
End TokenCheck.

(** ** Threads inside one transaction *)

Lemma filter_fmap_stable {A} (P : A -> Prop) `{∀ x, Decision (P x)} (f : A -> A)
    (l : list A) :
  (∀ x, P (f x) <-> P x) -> filter P (f <$> l) = f <$> filter P l.
Proof.
  intros Hf. induction l as [|x l IH]; [done|]. rewrite fmap_cons.
  destruct (decide (P x)) as [Hx|Hx].
  - rewrite !filter_cons_True by (by rewrite ?Hf). rewrite fmap_cons. by f_equal.
  - rewrite !filter_cons_False by (by rewrite ?Hf). exact IH.
Qed.

(** The thread that a message went into, after the message went in. *)
Lemma select_thread_bump account_id key parsed tid thread last s :
  select_thread account_id key s = [thread] ->
  select_thread account_id key
    (insert_parsed parsed tid
       (bump_thread (date parsed) (snippet parsed) thread last (threads s)) s)
  = [if instant last <? instant (date parsed)
     then touch_thread (date parsed) (snippet parsed) thread else thread].
Proof.
  intros E. unfold select_thread, insert_parsed, bump_thread in *. simpl.
  destruct (instant last <? instant (date parsed)); [|done].
  rewrite filter_fmap_stable.
  - rewrite E. simpl. by rewrite decide_True.
  - intros t. by destruct (decide (t_id t = t_id thread)).
Qed.

Lemma pending_advance_refl σ : pending_advance σ σ.
Proof. intros Hnd. split; [done | apply thread_le_refl]. Qed.

Lemma pending_advance_trans σ1 σ2 σ3 :
  pending_advance σ1 σ2 -> pending_advance σ2 σ3 -> pending_advance σ1 σ3.
Proof.
  intros H12 H23 Hnd. destruct (H12 Hnd) as [Hnd2 Hle]. destruct (H23 Hnd2) as [Hnd3 Hle'].
  split; [done | eauto using thread_le_trans].
Qed.

Section PendingAdvance.
Context `{PyRuntime}.

Lemma store_parsed_pending_advance parsed account_id :
  preserves pending_advance (SyncTasks.store_parsed parsed account_id).
Proof.
  intros σ. destruct (SyncTasks.store_parsed parsed account_id σ) as [[[]|e] σ'] eqn:E; simpl.
  - apply store_parsed_Ok_inv in E as [(m & _ & ->)|(_ & tid & ts & -> & Hcase)];
      [apply pending_advance_refl|].
    intros Hp. simpl.
    destruct Hcase as [(Et & -> & ->)|(thread & last & Et & El & -> & ->)].
    + split; [|apply thread_le_new_thread].
      rewrite fmap_app. simpl. apply NoDup_app. repeat split; [done| |apply NoDup_singleton].
      intros i Hi Hi'. apply list_elem_of_singleton in Hi' as ->.
      by apply next_id_not_in in Hi.
    + split; [by rewrite bump_thread_ids|].
      apply thread_le_bump; eauto using select_thread_elem.
  - apply store_parsed_Raise_inv in E as ->. apply pending_advance_refl.
Qed.

Lemma ingest_pending_advance w records account_id :
  preserves pending_advance (ingest w records account_id).
Proof.
  apply (preserves_for_ _ pending_advance_refl pending_advance_trans). intros raw.
  destruct raw; simpl;
    unfold SyncTasks.process_gmail_message, SyncTasks.process_outlook_message;
    (apply (preserves_bind _ pending_advance_trans);
     [apply (preserves_lift _ pending_advance_refl)
     | intros; apply store_parsed_pending_advance]).
Qed.
End PendingAdvance.

(** ** The mail tables through a run *)

Lemma mail_eq_inv s s' :
  mail s = mail s' ->
  threads s = threads s' ∧ messages s = messages s'
  ∧ attachments_table s = attachments_table s'.
Proof. unfold mail. intros E. by injection E. Qed.

Lemma select_message_mail q s s' : mail s = mail s' -> select_message q s = select_message q s'.
Proof. intros E. apply mail_eq_inv in E as (_ & E & _). unfold select_message. by rewrite E. Qed.


Lemma stored_once_mail q s s' : mail s = mail s' -> stored_once q s -> stored_once q s'.
Proof. intros E [m Hm]. exists m. by rewrite <- (select_message_mail q _ _ E). Qed.

Lemma mail_store_cursor account_id c s : mail (store_cursor account_id c s) = mail s.
Proof. by destruct c. Qed.

Lemma cursor_of_stamp w account_id s :
  cursor_of account_id (update_account account_id (set_last_synced_at (Some (utcnow w))) s)
  = cursor_of account_id s.
Proof. by apply cursor_of_update. Qed.

(** The database after a successful run holds the mail tables as the
    ingestion left them. *)
Lemma mail_stamped w account_id batch σi :
  mail (committed (stamped w account_id (batch_committed account_id batch σi)))
  = mail (pending σi).
Proof. unfold stamped, batch_committed. simpl. apply mail_store_cursor. Qed.

Lemma bump_thread_length d sn thread last ts :
  length (bump_thread d sn thread last ts) = length ts.
Proof. unfold bump_thread. destruct (instant last <? instant d); [apply length_fmap | done]. Qed.

(** ** The ways a sync run goes *)

Section Cases.
Context `{PyRuntime} (w : World).

(** Two rows for one account id: the load raises, the handler rolls back
    and raises in its turn. *)
Lemma sync_account_async_ambiguous account_id σ a b rest :
  select_account account_id (pending σ) = a :: b :: rest ->
  SyncTasks.sync_account_async w account_id σ
  = (Raise (NameError "self"), after_rollback σ).
Proof.
  intros E. unfold SyncTasks.sync_account_async, try_except.
  unfold mbind at 1, DB_bind, read. unfold mbind at 1, DB_bind, lift.
  by rewrite E.
Qed.

(** A run either ends at the entry, with the session as it was opened,
    or passes the token check, which leaves mail and cursor alone, and
    ends in one of the three ways of [finish_sync]. *)
Lemma sync_account_task_cases account_id db :
  (∃ r, SyncTasks.sync_account_task w account_id db = (r, open_session db)
        ∧ ∀ i, r ≠ Ok (Success i))
  ∨ (∃ account σa a,
       select_account account_id db = [account]
       ∧ acc_id account = account_id
       ∧ is_active account = true
       ∧ SyncTasks.check_token w account (open_session db) = (Ok tt, σa)
       ∧ select_account account_id (pending σa) = [a]
       ∧ mail (pending σa) = mail db
       ∧ cursor_of account_id (pending σa) = cursor_of account_id db
       ∧ (∀ s, s ∈ durable σa -> s = db ∨ s = pending σa)
       ∧ SyncTasks.sync_account_task w account_id db
         = finish_sync w (provider account) account_id a σa).
Proof.
  unfold SyncTasks.sync_account_task.
  destruct (select_account account_id db) as [|account [|b rest]] eqn:Ea.
  - left. eexists. split; [apply sync_account_async_skipped; by left | done].
  - assert (Hid : acc_id account = account_id).
    { apply (select_account_key _ db). rewrite Ea. by apply list_elem_of_singleton. }
    destruct (is_active account) eqn:Hact.
    + right. subst account_id.
      destruct (check_token_returns w account (open_session db) Ea)
        as (σa & a & Ec & Eacc & _ & Hmail & Hcur & Hdur).
      exists account, σa, a. repeat split; try done.
      * intros s Hs. destruct (Hdur s Hs) as [Hin|Hin]; [left|by right].
        unfold durable in Hin. simpl in Hin. by apply list_elem_of_singleton in Hin.
      * rewrite (sync_account_async_active w _ (open_session db) account Ea Hact).
        apply (pipeline_run w account _ σa a Ec (account_obj_head _ _ _ _ Eacc)).
    + left. eexists. split.
      * apply (sync_account_async_skipped w account_id (open_session db)); right; eauto.
      * done.
  - left. eexists. split.
    + apply (sync_account_async_ambiguous account_id (open_session db) _ _ _ Ea).
    + done.
Qed.

(** The records of a run that passed the token check are those of its
    batch. *)
Lemma fetched_batch account_id db account σa a batch :
  select_account account_id db = [account] ->
  is_active account = true ->
  SyncTasks.check_token w account (open_session db) = (Ok tt, σa) ->
  select_account account_id (pending σa) = [a] ->
  fetch_batch w (provider account) a = Ok batch ->
  fetched w account_id db = records batch.
Proof.
  intros Ea Hact Ec Eacc Ef. unfold fetched. rewrite Ea, Hact, Ec. simpl.
  rewrite (account_obj_head _ _ _ _ Eacc). by rewrite Ef.
Qed.
End Cases.

(** ** A second run over records that are stored *)

Section SecondRun.
Context `{PyRuntime}.

(** A run whose records all have their row leaves the mail tables of the
    database as they were, however it ends. *)
Lemma run_over_stored_records w account_id db :
  (∀ raw, raw ∈ fetched w account_id db ->
     ∃ parsed, parse_record (utcnow w) raw = Ok parsed
               ∧ stored_once (provider_message_id parsed) db) ->
  mail (committed (SyncTasks.sync_account_task w account_id db).2) = mail db.
Proof.
  intros Hstored.
  destruct (sync_account_task_cases w account_id db)
    as [(r & -> & _)|(account & σa & a & Ea & Hid & Hact & Ec & Eacc & Hmail & _ & Hdur & ->)];
    [done|].
  unfold finish_sync.
  destruct (fetch_batch w (provider account) a) as [batch|e] eqn:Ef.
  - rewrite (fetched_batch w _ _ _ _ _ _ Ea Hact Ec Eacc Ef) in Hstored.
    rewrite ingest_stored_is_noop.
    + cbn [snd]. rewrite mail_stamped. exact Hmail.
    + intros raw Hin. destruct (Hstored raw Hin) as (parsed & Ep & Hs).
      exists parsed. split; [done|]. eapply stored_once_mail; [symmetry; exact Hmail | done].
  - simpl. destruct (Hdur (committed σa)) as [->| ->]; [apply list_elem_of_here|done|done].
Qed.
End SecondRun.

(** ** What the database held during a run *)

Lemma durable_after_commit s σ : durable (after_commit (set_pending s σ)) = s :: durable σ.
Proof. reflexivity. Qed.

Lemma durable_after_rollback σ : durable (after_rollback σ) = durable σ.
Proof. reflexivity. Qed.

Lemma ingest_frame_durable σ σ' : ingest_frame σ σ' -> durable σ' = durable σ.
Proof. intros (Hc & Hh & _). unfold durable. by rewrite Hc, Hh. Qed.

(** ** The account through a run *)

Section Account.
Context `{PyRuntime} (w : World).


Lemma sync_provider_Ok_inv account σ1 σ' a :
  account_obj (acc_id account) σ1 = (Ok a, σ1) ->
  SyncTasks.sync_provider w account σ1 = (Ok tt, σ') ->
  ∃ batch σi, fetch_batch w (provider account) a = Ok batch
              ∧ ingest w (records batch) (acc_id account) σ1 = (Ok tt, σi)
              ∧ σ' = batch_committed (acc_id account) batch σi.
Proof.
  intros Ea. rewrite sync_provider_normal. unfold provider_step.
  rewrite (db_bind_Ok _ _ _ _ _ Ea). intros E.
  apply db_bind_Ok_inv in E as (batch & σ2 & Ef & E).
  unfold lift in Ef. injection Ef as Ef <-.
  apply db_bind_Ok_inv in E as ([] & σi & Ei & E).
  exists batch, σi. repeat split; try done.
  unfold batch_committed, store_cursor.
  destruct (new_cursor batch) as [c|]; simpl in E.
  - by injection E as <-.
  - injection E as <-. by rewrite set_pending_id.
Qed.

(** The row of the account in the database after a successful run: the
    row the fetch saw, with the cursor of the batch and the stamp. *)
Lemma account_after_success account_id batch σa σi a :
  select_account account_id (pending σa) = [a] ->
  ingest_frame σa σi ->
  select_account account_id
    (committed (stamped w account_id (batch_committed account_id batch σi)))
  = [set_last_synced_at (Some (utcnow w))
       (match new_cursor batch with
        | Some c => set_sync_state (Some c) a
        | None => a
        end)].
Proof.
  intros Ea (_ & _ & Hacc). unfold stamped, batch_committed. simpl.
  rewrite select_account_update by done.
  assert (E : select_account account_id (pending σi) = [a]).
  { rewrite <- Ea. unfold select_account. by rewrite Hacc. }
  unfold store_cursor. destruct (new_cursor batch) as [c|].
  - rewrite select_account_update by done. by rewrite E.
  - by rewrite E.
Qed.

End Account.

(** ** The worker pool and the task it runs *)

Lemma filter_insert_length {A} (P : A -> Prop) `{∀ x, Decision (P x)} (l : list A)
    (i : nat) (x y : A) :
  l !! i = Some x -> ¬ P x -> P y ->
  length (filter P (<[i:=y]> l)) = S (length (filter P l)).
Proof.
  revert i. induction l as [|z l IH]; intros i Hi Hx Hy; [done|].
  destruct i as [|i]; simpl in *.
  - injection Hi as ->. rewrite filter_cons_True by done.
    by rewrite filter_cons_False by done.
  - destruct (decide (P z)) as [Hz|Hz].
    + rewrite !filter_cons_True by done. simpl. by rewrite (IH i).
    + rewrite !filter_cons_False by done. by apply IH.
Qed.

Section Pool.
Context `{PyRuntime}.

(** [sync_account_async] is its entry check followed, for an account
    that passes, by the pipeline under the exception handler. *)
Lemma sync_account_async_entry w account_id σ :
  SyncTasks.sync_account_async w account_id σ
  = match Workers.entry account_id (pending σ) with
    | Ok (inl r) => (Ok r, σ)
    | Ok (inr account) =>
        try_except (SyncTasks.pipeline w account) SyncTasks.sync_failed σ
    | Raise e => SyncTasks.sync_failed e σ
    end.
Proof.
  unfold SyncTasks.sync_account_async, Workers.entry, try_except.
  unfold mbind at 1, DB_bind, read. unfold mbind at 1, DB_bind, lift.
  unfold mbind, result_bind.
  destruct (scalar_one_or_none (select_account account_id (pending σ)))
    as [[account|]|e]; simpl; [|done|done].
  by destruct (is_active account).
Qed.

(** A task that starts and completes with nothing in between is one run
    of [sync_account_task]. *)
Lemma start_then_complete w account_id db :
  match Workers.start account_id db with
  | Workers.Queued => False
  | Workers.Running account =>
      Workers.complete w account db
      = ((SyncTasks.sync_account_task w account_id db).1,
         committed (SyncTasks.sync_account_task w account_id db).2)
  | Workers.Finished r =>
      (SyncTasks.sync_account_task w account_id db).1 = r
      ∧ committed (SyncTasks.sync_account_task w account_id db).2 = db
  end.
Proof.
  unfold Workers.start, Workers.complete, SyncTasks.sync_account_task.
  rewrite sync_account_async_entry. simpl.
  destruct (Workers.entry account_id db) as [[r|account]|e]; simpl; [done| |done].
  by destruct (try_except _ _ _).
Qed.

(** The entry check looks at the account row and at nothing else. *)
Lemma start_skipped account_id db :
  Workers.start account_id db
  = Workers.Finished (Ok (Skipped "account not found or inactive"))
  <-> (select_account account_id db = []
       ∨ ∃ account, select_account account_id db = [account]
                    ∧ is_active account = false).
Proof.
  unfold Workers.start, Workers.entry, mbind, result_bind.
  destruct (select_account account_id db) as [|account [|b rest]]; simpl.
  - split; [by left | done].
  - destruct (is_active account) eqn:Hact; simpl.
    + split; [done|]. intros [?|(a & E & Ha)]; [done|]. injection E as <-. congruence.
    + split; [|done]. intros _. right. eauto.
  - split; [done|]. intros [?|(a & E & _)]; done.
Qed.

Lemma start_running account_id db account :
  select_account account_id db = [account] ->
  is_active account = true ->
  Workers.start account_id db = Workers.Running account.
Proof.
  intros E Hact. unfold Workers.start, Workers.entry, mbind, result_bind.
  rewrite E. simpl. by rewrite Hact.
Qed.
End Pool.

(** ** Provider message ids stay unique *)

Lemma ids_stay_unique_refl σ : ids_stay_unique σ σ.
Proof. by intros ?. Qed.

Lemma ids_stay_unique_trans σ1 σ2 σ3 :
  ids_stay_unique σ1 σ2 -> ids_stay_unique σ2 σ3 -> ids_stay_unique σ1 σ3.
Proof. intros H12 H23 Hu. auto. Qed.

Lemma ids_stay_unique_assign account_id f : preserves ids_stay_unique (assign account_id f).
Proof. by intros σ Hu. Qed.

Lemma ids_stay_unique_commit : preserves ids_stay_unique commit.
Proof. intros σ [_ Hp]. by split. Qed.

Lemma ids_stay_unique_rollback : preserves ids_stay_unique rollback.
Proof. intros σ [Hc _]. by split. Qed.

Lemma select_message_nil_not_in q s :
  select_message q s = [] -> q ∉ m_provider_message_id <$> messages s.
Proof.
  intros E Hin. apply list_elem_of_fmap in Hin as (m & -> & Hm).
  by apply (filter_nil_not_elem_of _ _ m E).
Qed.

Section Unique.
Context `{PyRuntime}.

Lemma store_parsed_ids_stay_unique parsed account_id :
  preserves ids_stay_unique (SyncTasks.store_parsed parsed account_id).
Proof.
  intros σ. destruct (SyncTasks.store_parsed parsed account_id σ) as [[[]|e] σ'] eqn:E; simpl.
  - apply store_parsed_Ok_inv in E as [(m & _ & ->)|(Em & tid & ts & -> & _)];
      [apply ids_stay_unique_refl|].
    intros [Hc Hp]. split; [done|]. unfold unique_ids. simpl.
    rewrite fmap_app. apply NoDup_app. repeat split; [done| |apply NoDup_singleton].
    intros q Hq Hq'. apply list_elem_of_singleton in Hq'. simpl in Hq'. subst q.
    by apply select_message_nil_not_in in Em.
  - apply store_parsed_Raise_inv in E as ->. apply ids_stay_unique_refl.
Qed.

(** A sync run, however it ends, leaves no provider message id with two
    rows if none had two before. *)
Lemma sync_account_task_unique_ids w account_id db :
  unique_ids db -> unique_ids (committed (SyncTasks.sync_account_task w account_id db).2).
Proof.
  intros Hu. unfold SyncTasks.sync_account_task.
  by apply (sync_account_async_preserves w _ ids_stay_unique_refl ids_stay_unique_trans
              ids_stay_unique_assign ids_stay_unique_commit ids_stay_unique_rollback
              store_parsed_ids_stay_unique account_id (open_session db)).
Qed.
End Unique.

(** * More properties of the pipeline *)

(** ** Invariants of the stores *)

Lemma keeps_refl I σ : keeps I σ σ.
Proof. by intros ?. Qed.

Lemma keeps_trans I σ1 σ2 σ3 : keeps I σ1 σ2 -> keeps I σ2 σ3 -> keeps I σ1 σ3.
Proof. intros H12 H23 Hi. auto. Qed.

Lemma keeps_commit I : preserves (keeps I) commit.
Proof. intros σ [_ Hp]. by split. Qed.

Lemma keeps_rollback I : preserves (keeps I) rollback.
Proof. intros σ [Hc _]. by split. Qed.

Lemma add_attachments_prefix atts mid table :
  table `prefix_of` add_attachments atts mid table.
Proof.
  revert table. induction atts as [|att atts IH]; intros table; simpl; [done|].
  etrans; [|apply IH]. by apply prefix_app_r.
Qed.

Lemma add_attachments_elem atts mid table a :
  a ∈ add_attachments atts mid table -> a ∈ table ∨ a_message_id a = mid.
Proof.
  revert table. induction atts as [|att atts IH]; intros table; simpl; [by left|].
  intros Hin. destruct (IH _ Hin) as [Hin'|?]; [|by right].
  apply elem_of_app in Hin' as [?|Hin']; [by left|].
  apply list_elem_of_singleton in Hin' as ->. by right.
Qed.

Section Invariants.
Context `{PyRuntime}.

(** An invariant of the mail tables that no account row matters to and
    that every stored record maintains is maintained by a whole run. *)
Lemma sync_account_task_keeps (I : Store -> Prop) w account_id db :
  (∀ s s', mail s = mail s' -> I s -> I s') ->
  (∀ parsed i, preserves (keeps I) (SyncTasks.store_parsed parsed i)) ->
  I db -> I (committed (SyncTasks.sync_account_task w account_id db).2).
Proof.
  intros Hmail Hstore Hi. unfold SyncTasks.sync_account_task.
  apply (sync_account_async_preserves w _ (keeps_refl I) (keeps_trans I)); try done.
  - intros i f σ [Hc Hp]. split; [done|]. simpl. by apply (Hmail (pending σ)).
  - apply keeps_commit.
  - apply keeps_rollback.
Qed.

Lemma store_parsed_keeps (I : Store -> Prop) parsed account_id :
  (∀ σ σ', SyncTasks.store_parsed parsed account_id σ = (Ok tt, σ') ->
           I (pending σ) -> I (pending σ')) ->
  preserves (keeps I) (SyncTasks.store_parsed parsed account_id).
Proof.
  intros Hok σ.
  destruct (SyncTasks.store_parsed parsed account_id σ) as [[[]|e] σ'] eqn:E; simpl.
  - intros [Hc Hp]. split; [|by eapply Hok].
    apply store_parsed_Ok_inv in E as [(m & _ & ->)|(_ & tid & ts & -> & _)]; done.
  - apply store_parsed_Raise_inv in E as ->. apply keeps_refl.
Qed.

Lemma select_thread_nil_not_in account_id key s :
  select_thread account_id key s = [] -> (account_id, key) ∉ thread_key <$> threads s.
Proof.
  intros E Hin. apply list_elem_of_fmap in Hin as (t & Hk & Ht).
  apply (filter_nil_not_elem_of _ _ t E); [|done].
  unfold thread_key in Hk. by injection Hk as -> ->.
Qed.

Lemma bump_thread_keys d sn thread last ts :
  thread_key <$> bump_thread d sn thread last ts = thread_key <$> ts.
Proof.
  unfold bump_thread. destruct (instant last <? instant d); [|done].
  rewrite <- list_fmap_compose. apply list_fmap_ext. intros i t _. simpl.
  by destruct (decide (t_id t = t_id thread)).
Qed.

Lemma store_parsed_unique_threads parsed account_id :
  preserves (keeps unique_threads) (SyncTasks.store_parsed parsed account_id).
Proof.
  apply store_parsed_keeps. intros σ σ' E Hu.
  apply store_parsed_Ok_inv in E as [(m & _ & ->)|(_ & tid & ts & -> & Hcase)]; [done|].
  unfold unique_threads. simpl.
  destruct Hcase as [(Et & -> & ->)|(thread & last & Et & El & -> & ->)].
  - rewrite fmap_app. apply NoDup_app. repeat split; [done| |apply NoDup_singleton].
    intros k Hk Hk'. apply list_elem_of_singleton in Hk'. subst k.
    by apply select_thread_nil_not_in in Et.
  - by rewrite bump_thread_keys.
Qed.

Lemma store_parsed_refs_ok parsed account_id :
  preserves (keeps refs_ok) (SyncTasks.store_parsed parsed account_id).
Proof.
  apply store_parsed_keeps. intros σ σ' E [Hm Ha].
  apply store_parsed_Ok_inv in E as [(m & _ & ->)|(_ & tid & ts & -> & Hcase)]; [done|].
  assert (Hids : ∀ i, i ∈ t_id <$> threads (pending σ) -> i ∈ t_id <$> ts).
  { destruct Hcase as [(_ & _ & ->)|(thread & last & _ & _ & _ & ->)].
    - intros i Hi. rewrite fmap_app. apply elem_of_app. by left.
    - intros i Hi. by rewrite bump_thread_ids. }
  assert (Htid : tid ∈ t_id <$> ts).
  { destruct Hcase as [(_ & -> & ->)|(thread & last & Et & _ & -> & ->)].
    - rewrite fmap_app. apply elem_of_app. right. by apply list_elem_of_singleton.
    - rewrite bump_thread_ids. apply list_elem_of_fmap_2.
      by apply (select_thread_elem account_id (thread_id parsed)). }
  split; simpl.
  - intros m Hin. apply elem_of_app in Hin as [Hin|Hin]; [by apply Hids, Hm|].
    by apply list_elem_of_singleton in Hin as ->.
  - intros a Hin. rewrite fmap_app. apply elem_of_app.
    apply add_attachments_elem in Hin as [Hin| ->]; [left; by apply Ha|].
    right. by apply list_elem_of_singleton.
Qed.
End Invariants.

(** ** Rows are only added *)

Lemma mail_grows_refl s : mail_grows s s.
Proof. by split. Qed.

Lemma mail_grows_trans s1 s2 s3 : mail_grows s1 s2 -> mail_grows s2 s3 -> mail_grows s1 s3.
Proof. intros [? ?] [? ?]. split; by etrans. Qed.

Lemma rows_are_kept_refl σ : rows_are_kept σ σ.
Proof. intros Hg. split; [done | apply mail_grows_refl]. Qed.

Lemma rows_are_kept_trans σ1 σ2 σ3 :
  rows_are_kept σ1 σ2 -> rows_are_kept σ2 σ3 -> rows_are_kept σ1 σ3.
Proof.
  intros H12 H23 Hg. destruct (H12 Hg) as [Hg2 Hc]. destruct (H23 Hg2) as [Hg3 Hc'].
  split; [done | eauto using mail_grows_trans].
Qed.

Section Grows.
Context `{PyRuntime}.

Lemma store_parsed_rows_are_kept parsed account_id :
  preserves rows_are_kept (SyncTasks.store_parsed parsed account_id).
Proof.
  intros σ.
  destruct (SyncTasks.store_parsed parsed account_id σ) as [[[]|e] σ'] eqn:E; simpl.
  - apply store_parsed_Ok_inv in E as [(m & _ & ->)|(_ & tid & ts & -> & _)];
      [apply rows_are_kept_refl|].
    intros [Hm Ha]. split; [|apply mail_grows_refl]. split; simpl.
    + by apply prefix_app_r.
    + etrans; [exact Ha | apply add_attachments_prefix].
  - apply store_parsed_Raise_inv in E as ->. apply rows_are_kept_refl.
Qed.

Lemma sync_account_task_rows_are_kept w account_id db :
  mail_grows db (committed (SyncTasks.sync_account_task w account_id db).2).
Proof.
  unfold SyncTasks.sync_account_task.
  apply (sync_account_async_preserves w _ rows_are_kept_refl rows_are_kept_trans).
  - intros i f σ Hg. split; [done | apply mail_grows_refl].
  - intros σ Hg. split; [apply mail_grows_refl | done].
  - intros σ Hg. split; apply mail_grows_refl.
  - apply store_parsed_rows_are_kept.
  - apply mail_grows_refl.
Qed.
End Grows.

(** ** The account rows through a run *)

Lemma update_account_same account_id s :
  accounts (update_account account_id (fun a => a) s) = accounts s.
Proof.
  unfold update_account. simpl. rewrite <- (list_fmap_id (accounts s)) at 2.
  apply list_fmap_ext. intros i a _. by destruct (decide (acc_id a = account_id)).
Qed.

Lemma accounts_update_compose account_id f g s s' :
  (∀ a, acc_id (f a) = acc_id a) ->
  accounts s' = accounts (update_account account_id f s) ->
  accounts (update_account account_id g s')
  = accounts (update_account account_id (g ∘ f) s).
Proof.
  intros Hf E. rewrite <- (update_account_compose _ _ _ _ Hf).
  unfold update_account. simpl. by rewrite E.
Qed.

Lemma account_change_compose f g :
  account_change f -> account_change g -> account_change (g ∘ f).
Proof.
  intros Hf Hg a. destruct (Hf a) as (? & ? & ?). destruct (Hg (f a)) as (? & ? & ?).
  simpl. repeat split; try congruence. auto.
Qed.

Lemma account_change_same : account_change (fun a => a).
Proof. by intros a. Qed.

Lemma select_account_update_other i account_id g s :
  (∀ a, acc_id (g a) = acc_id a) -> i ≠ account_id ->
  select_account i (update_account account_id g s) = select_account i s.
Proof.
  intros Hg Hne. unfold select_account, update_account. simpl.
  induction (accounts s) as [|a l IH]; [done|]. rewrite fmap_cons.
  destruct (decide (acc_id a = account_id)) as [E|E].
  - rewrite !filter_cons_False by (rewrite ?Hg; congruence). exact IH.
  - destruct (decide (acc_id a = i)) as [Ei|Ei].
    + rewrite !filter_cons_True by done. by f_equal.
    + rewrite !filter_cons_False by done. exact IH.
Qed.

Section Accounts.
Context `{PyRuntime} (w : World).

Lemma refresh_token_accounts account_id σ a rest :
  select_account account_id (pending σ) = a :: rest ->
  ∃ g, account_change g
       ∧ let σ1 := set_pending (update_account account_id g (pending σ)) σ in
         (SyncTasks.refresh_token w account_id σ = (Ok tt, σ1)
          ∨ SyncTasks.refresh_token w account_id σ = (Ok tt, after_commit σ1)).
Proof.
  intros Ea.
  destruct (truthy (encrypted_refresh_token a)) eqn:Ht.
  - destruct (request_tokens w a) as [tokens|e] eqn:Er.
    + destruct (OAuth.access_token tokens) as [access|] eqn:Eacc.
      * exists (refreshed w tokens access). split.
        { intros b. unfold refreshed. by destruct (OAuth.refresh_token tokens). }
        right. eapply refresh_token_succeeds; eauto.
      * exists (set_is_active false). split; [done|]. right.
        eapply refresh_token_fails; eauto. intros tokens' E. congruence.
    + exists (set_is_active false). split; [done|]. right.
      eapply refresh_token_fails; eauto. intros tokens' E. congruence.
  - exists (set_is_active false). split; [done|]. left.
    eapply refresh_token_without_token; eauto.
Qed.

(** Every state the database holds during or after a run has the account
    rows of the database before the run, but for a change of the row of
    the run's account that keeps its key and provider and does not
    activate it. *)
Lemma run_accounts account_id db s :
  s ∈ durable (SyncTasks.sync_account_task w account_id db).2 ->
  ∃ g, account_change g ∧ accounts s = accounts (update_account account_id g db).
Proof.
  assert (Hdb : ∃ g, account_change g
                     ∧ accounts db = accounts (update_account account_id g db)).
  { exists (fun a => a). split; [apply account_change_same|].
    by rewrite update_account_same. }
  destruct (sync_account_task_cases w account_id db)
    as [(r & -> & _)|(account & σa & a & Ea & Hid & Hact & Ec & Eacc & _ & _ & _ & ->)].
  { simpl. unfold durable. simpl. intros Hs. by apply list_elem_of_singleton in Hs as ->. }
  subst account_id.
  assert (Hσa : ∃ g, account_change g
                     ∧ accounts (pending σa) = accounts (update_account (acc_id account) g db)
                     ∧ ∀ s, s ∈ durable σa -> s = db ∨ s = pending σa).
  { unfold SyncTasks.check_token in Ec.
    assert (Hnone : (Ok tt, open_session db) = (Ok tt, σa) ->
              ∃ g, account_change g
                   ∧ accounts (pending σa) = accounts (update_account (acc_id account) g db)
                   ∧ ∀ s, s ∈ durable σa -> s = db ∨ s = pending σa).
    { intros E. injection E as <-. exists (fun a => a).
      split; [apply account_change_same|]. split; [by rewrite update_account_same|].
      intros s0 Hs. left. unfold durable in Hs. simpl in Hs.
      by apply list_elem_of_singleton in Hs. }
    destruct (token_expiry account) as [expiry|]; [|by apply Hnone].
    destruct (expiry <? utcnow w); [|by apply Hnone].
    destruct (refresh_token_accounts (acc_id account) (open_session db) account [] Ea)
      as (g & Hg & Hcase).
    exists g. split; [done|]. cbv zeta in Hcase.
    destruct Hcase as [E|E]; rewrite E in Ec; injection Ec as <-; (split; [done|]).
    - intros s0 Hs. left. unfold durable in Hs. simpl in Hs.
      by apply list_elem_of_singleton in Hs.
    - intros s0 Hs. unfold durable in Hs. simpl in Hs.
      apply elem_of_cons in Hs as [->|Hs]; [by right|].
      left. by apply list_elem_of_singleton in Hs. }
  destruct Hσa as (g & Hg & Hacc & Hdur).
  assert (Hold : ∀ s, s ∈ durable σa ->
            ∃ g, account_change g
                 ∧ accounts s = accounts (update_account (acc_id account) g db)).
  { intros s' Hs'. destruct (Hdur s' Hs') as [->| ->]; [exact Hdb | eauto]. }
  unfold finish_sync.
  destruct (fetch_batch w (provider account) a) as [batch|e].
  - pose proof (ingest_keeps_frame w (records batch) (acc_id account) σa) as Hframe.
    destruct (ingest w (records batch) (acc_id account) σa) as [[[]|e] σi];
      simpl in Hframe; cbn [snd].
    + assert (Hacc_i : accounts (pending σi)
                       = accounts (update_account (acc_id account) g db)).
      { destruct Hframe as (_ & _ & ->). exact Hacc. }
      assert (Hb : ∃ g', account_change g'
                ∧ accounts (store_cursor (acc_id account) (new_cursor batch) (pending σi))
                  = accounts (update_account (acc_id account) g' db)).
      { destruct (new_cursor batch) as [c|]; simpl; [|eauto].
        exists (set_sync_state (Some c) ∘ g). split.
        - by apply account_change_compose.
        - apply accounts_update_compose; [apply Hg | exact Hacc_i]. }
      destruct Hb as (g' & Hg' & Hacc_b).
      intros Hs. unfold stamped, batch_committed in Hs.
      rewrite !durable_after_commit in Hs.
      apply elem_of_cons in Hs as [->|Hs].
      { exists (set_last_synced_at (Some (utcnow w)) ∘ g'). split.
        - by apply account_change_compose.
        - apply (accounts_update_compose (acc_id account) g' _ db
                   (store_cursor (acc_id account) (new_cursor batch) (pending σi)));
            [apply Hg' | exact Hacc_b]. }
      apply elem_of_cons in Hs as [->|Hs]; [eauto|].
      rewrite (ingest_frame_durable _ _ Hframe) in Hs. by apply Hold.
    + intros Hs. rewrite durable_after_rollback in Hs.
      rewrite (ingest_frame_durable _ _ Hframe) in Hs. by apply Hold.
  - cbn [snd]. intros Hs. rewrite durable_after_rollback in Hs. by apply Hold.
Qed.
End Accounts.

Lemma select_account_accounts i s s' :
  accounts s = accounts s' -> select_account i s = select_account i s'.
Proof. intros E. unfold select_account. by rewrite E. Qed.

Section AccountsAfter.
Context `{PyRuntime} (w : World).

(** The rows of an account in the database after a run of [account_id]:
    untouched for another account, changed without activation for the
    account of the run. *)
Lemma run_select_account account_id db i :
  let db' := committed (SyncTasks.sync_account_task w account_id db).2 in
  (i ≠ account_id -> select_account i db' = select_account i db)
  ∧ ∃ g, account_change g
         ∧ (i = account_id -> select_account i db' = g <$> select_account i db).
Proof.
  intros db'.
  destruct (run_accounts w account_id db db') as (g & Hg & Hacc);
    [apply list_elem_of_here|].
  split.
  - intros Hne. rewrite (select_account_accounts _ _ _ Hacc).
    apply select_account_update_other; [apply Hg | done].
  - exists g. split; [done|]. intros ->.
    rewrite (select_account_accounts _ _ _ Hacc).
    apply select_account_update. apply Hg.
Qed.
End AccountsAfter.

(** ** Where a stored record ends up *)

Lemma select_thread_new account_id parsed tid s :
  select_thread account_id (thread_id parsed) s = [] ->
  select_thread account_id (thread_id parsed)
    (insert_parsed parsed tid
       (threads s ++ [SyncTasks.new_thread parsed account_id tid])%list s)
  = [SyncTasks.new_thread parsed account_id tid].
Proof.
  intros E. unfold select_thread, insert_parsed in *. simpl.
  rewrite filter_app, E. simpl. by rewrite filter_cons_True.
Qed.

Lemma select_message_new parsed tid ts s :
  select_message (provider_message_id parsed) s = [] ->
  select_message (provider_message_id parsed) (insert_parsed parsed tid ts s)
  = [SyncTasks.new_message parsed tid (next_id (m_id <$> messages s))].
Proof. intros E. by rewrite select_message_insert, E, decide_True. Qed.

Lemma for_each_cons_inv {A B} (f : A -> result B) x xs ys :
  for_each f (x :: xs) = Ok ys ->
  ∃ y ys', f x = Ok y ∧ for_each f xs = Ok ys' ∧ ys = y :: ys'.
Proof.
  simpl. intros E. apply bind_Ok_inv in E as (y & Ey & E).
  apply bind_Ok_inv in E as (ys' & Eys & E). injection E as <-. eauto.
Qed.

(** ** The queue of the periodic task *)

Lemma foldl_delay (p : Workers.Pool) (l : list EmailAccount) :
  Workers.database (foldl (fun p a => Workers.delay (acc_id a) p) p l) = Workers.database p
  ∧ Workers.tasks (foldl (fun p a => Workers.delay (acc_id a) p) p l)
    = (Workers.tasks p ++ ((fun a => (acc_id a, Workers.Queued)) <$> l))%list.
Proof.
  revert p. induction l as [|a l IH]; intros p; simpl.
  - by rewrite app_nil_r.
  - destruct (IH (Workers.delay (acc_id a) p)) as [-> ->]. simpl.
    split; [done|]. by rewrite <- app_assoc.
Qed.

Lemma no_task_for_inactive (l : list EmailAccount) (account_id : Z) :
  (∀ a, a ∈ filter (fun a => acc_id a = account_id) l -> is_active a = false) ->
  filter (fun t : Z * Workers.phase => t.1 = account_id)
    ((fun a => (acc_id a, Workers.Queued)) <$> filter (fun a => is_active a = true) l)
  = [].
Proof.
  induction l as [|a l IH]; intros Hoff; [done|].
  assert (Hl : ∀ b, b ∈ filter (fun a => acc_id a = account_id) l -> is_active b = false).
  { intros b Hb. apply Hoff. apply list_elem_of_filter in Hb as [? ?].
    apply list_elem_of_filter. split; [done|]. apply elem_of_cons. by right. }
  destruct (decide (is_active a = true)) as [Ha|Ha].
  - rewrite filter_cons_True by done. rewrite fmap_cons.
    rewrite filter_cons_False; [by apply IH|].
    simpl. intros Hid. rewrite (Hoff a) in Ha; [done|].
    apply list_elem_of_filter. split; [done | apply list_elem_of_here].
  - rewrite filter_cons_False by done. by apply IH.
Qed.

(** ** What a fetch depends on *)


(** ** The adapters *)

Lemma headers_dict_lookup hs acc d k :
  GmailService.headers_dict hs acc = Ok d ->
  d !! k = match header_value k hs with
           | Some v => Some v
           | None => acc !! k
           end.
Proof.
  revert acc. induction hs as [|h hs IH]; intros acc E; simpl in E.
  - injection E as <-. done.
  - apply bind_Ok_inv in E as (n & En & E).
    apply bind_Ok_inv in E as (v & Ev & E).
    rewrite (IH _ E). simpl.
    destruct (header_value k hs) as [v'|]; [done|].
    destruct (GmailApi.name h) as [n'|]; [|done]. injection En as ->.
    destruct (GmailApi.value h) as [v'|]; [|done]. injection Ev as ->.
    case_bool_decide as Hk.
    + injection Hk as ->. by rewrite lookup_insert_eq.
    + rewrite lookup_insert_ne; [done|]. congruence.
Qed.

Lemma join_split c s : join (String c "") (split c s) = s.
Proof.
  induction s as [|a s IH]; simpl; [done|].
  destruct (Ascii.eqb a c) eqn:Eac.
  - apply Ascii.eqb_eq in Eac as ->.
    pose proof (split_not_nil c s) as Hne.
    destruct (split c s) as [|h t]; [done|]. simpl in *. by rewrite IH.
  - pose proof (split_not_nil c s) as Hne.
    destruct (split c s) as [|h t]; [done|].
    destruct t as [|h' t]; simpl in *; by rewrite <- IH.
Qed.

Lemma attachment_of_part_named part a l :
  GmailService.attachment_of_part part = Ok l -> a ∈ l ->
  pa_filename a ≠ "" ∧ pa_attachment_id a ≠ "".
Proof.
  unfold GmailService.attachment_of_part. intros E Hin.
  destruct (truthy (GmailApi.filename part)) eqn:Hf; simpl in E;
    [|injection E as <-; by apply elem_of_nil in Hin].
  destruct (truthy (GmailApi.attachmentId (get (GmailApi.body part) GmailService.no_body)))
    eqn:Hi; [|injection E as <-; by apply elem_of_nil in Hin].
  destruct (GmailApi.filename part) as [[|c fn]|]; try done.
  destruct (GmailApi.mimeType part) as [mt|]; [|done].
  destruct (GmailApi.body part) as [b|]; [|done]. simpl in *.
  destruct (GmailApi.attachmentId b) as [[|c' aid]|]; try done.
  simpl in E. injection E as <-. by apply list_elem_of_singleton in Hin as ->.
Qed.

Lemma attachment_of_part_length part l :
  GmailService.attachment_of_part part = Ok l -> (length l <= 1)%nat.
Proof.
  unfold GmailService.attachment_of_part. intros E.
  destruct (_ && _); [|injection E as <-; simpl; lia].
  repeat (apply bind_Ok_inv in E as (? & _ & E)). injection E as <-. simpl. lia.
Qed.

Lemma attachments_of_parts_named ps l :
  GmailService.attachments_of_parts ps = Ok l ->
  Forall (fun a => pa_filename a ≠ "" ∧ pa_attachment_id a ≠ "") l
  ∧ (length l <= length ps)%nat.
Proof.
  revert l. induction ps as [|part ps IH]; intros l E; simpl in E.
  - injection E as <-. split; [constructor | simpl; lia].
  - apply bind_Ok_inv in E as (a & Ea & E).
    apply bind_Ok_inv in E as (rest & Er & E). injection E as <-.
    destruct (IH _ Er) as [Hall Hlen]. split.
    + apply Forall_app. split; [|done].
      apply Forall_forall. intros x Hx. by eapply attachment_of_part_named.
    + rewrite length_app. simpl. pose proof (attachment_of_part_length _ _ Ea). lia.
Qed.

Lemma for_each_Forall2 {A B} (f : A -> result B) xs ys :
  for_each f xs = Ok ys <-> Forall2 (fun x y => f x = Ok y) xs ys.
Proof.
  revert ys. induction xs as [|x xs IH]; intros ys; simpl.
  - split.
    + intros E. injection E as <-. constructor.
    + intros Hall. by inversion Hall.
  - split.
    + intros E. apply bind_Ok_inv in E as (y & Ey & E).
      apply bind_Ok_inv in E as (ys' & Eys & E). injection E as <-.
      constructor; [done | by apply IH].
    + intros Hall. inversion Hall as [|? y ? ys' Ey Hrest]; subst.
      rewrite Ey. simpl. apply IH in Hrest. rewrite Hrest. done.
Qed.

Lemma address_of_ok r :
  is_ok (OutlookService.address_of r) = true <-> has_address r.
Proof.
  unfold OutlookService.address_of, has_address.
  destruct (GraphApi.emailAddress r) as [ea|]; simpl.
  - destruct (GraphApi.address ea) as [a|] eqn:Ea; simpl.
    + split; [eauto | done].
    + split; [done|]. intros (? & ? & E & E'). congruence.
  - split; [done|]. by intros (? & ? & E & _).
Qed.

Lemma for_each_address_of rs :
  is_ok (for_each OutlookService.address_of rs) = true <-> Forall has_address rs.
Proof.
  induction rs as [|r rs IH]; simpl.
  - split; [constructor | done].
  - rewrite Forall_cons, <- IH, <- address_of_ok. clear IH.
    destruct (OutlookService.address_of r); simpl.
    + destruct (for_each OutlookService.address_of rs); simpl; split; try done.
      by intros [_ ?].
    + split; [done | by intros [? _]].
Qed.

(** ** The stamp of the last sync *)

Section Stamp.
Context `{PyRuntime} (w : World).

Lemma refresh_token_stamp account_id σ a rest :
  select_account account_id (pending σ) = a :: rest ->
  ∃ g, token_change g ∧ (∀ b, acc_id (g b) = acc_id b)
       ∧ let σ1 := set_pending (update_account account_id g (pending σ)) σ in
         (SyncTasks.refresh_token w account_id σ = (Ok tt, σ1)
          ∨ SyncTasks.refresh_token w account_id σ = (Ok tt, after_commit σ1)).
Proof.
  intros Ea.
  destruct (truthy (encrypted_refresh_token a)) eqn:Ht.
  - destruct (request_tokens w a) as [tokens|e] eqn:Er.
    + destruct (OAuth.access_token tokens) as [access|] eqn:Eacc.
      * exists (refreshed w tokens access). split; [|split].
        { intros b. unfold refreshed. by destruct (OAuth.refresh_token tokens). }
        { intros b. unfold refreshed. by destruct (OAuth.refresh_token tokens). }
        right. eapply refresh_token_succeeds; eauto.
      * exists (set_is_active false). split; [done|]. split; [done|]. right.
        eapply refresh_token_fails; eauto. intros tokens' E. congruence.
    + exists (set_is_active false). split; [done|]. split; [done|]. right.
      eapply refresh_token_fails; eauto. intros tokens' E. congruence.
  - exists (set_is_active false). split; [done|]. split; [done|]. left.
    eapply refresh_token_without_token; eauto.
Qed.

Lemma check_token_stamp account db σa a :
  select_account (acc_id account) db = [account] ->
  SyncTasks.check_token w account (open_session db) = (Ok tt, σa) ->
  select_account (acc_id account) (pending σa) = [a] ->
  last_synced_at a = last_synced_at account.
Proof.
  intros Ea Ec Eacc. unfold SyncTasks.check_token in Ec.
  assert (Hnone : (Ok tt, open_session db) = (Ok tt, σa) ->
            last_synced_at a = last_synced_at account).
  { intros E. injection E as <-. simpl in Eacc. congruence. }
  destruct (token_expiry account) as [expiry|]; [|by apply Hnone].
  destruct (expiry <? utcnow w); [|by apply Hnone].
  destruct (refresh_token_stamp (acc_id account) (open_session db) account [] Ea)
    as (g & Hg & Hid & Hcase).
  cbv zeta in Hcase.
  assert (Hp : pending σa = update_account (acc_id account) g db).
  { destruct Hcase as [E|E]; rewrite E in Ec; by injection Ec as <-. }
  rewrite Hp, (select_account_update _ _ _ Hid), Ea in Eacc.
  injection Eacc as <-. apply Hg.
Qed.
End Stamp.

(** ** The attachment rows of a message *)

Lemma add_attachments_rows atts mid table :
  ∃ rows, add_attachments atts mid table = (table ++ rows)%list
          ∧ Forall2 (row_of mid) atts rows.
Proof.
  revert table. induction atts as [|att atts IH]; intros table; simpl.
  - exists []. split; [by rewrite app_nil_r | constructor].
  - destruct (IH (table ++ [SyncTasks.new_attachment att mid (next_id (a_id <$> table))])%list)
      as (rows & -> & Hrows).
    eexists (_ :: rows). split; [by rewrite <- app_assoc|].
    constructor; [done | exact Hrows].
Qed.

(** ** Well-formed mail tables *)




Section WellFormed.
Context `{PyRuntime} (w : World).


End WellFormed.

(** * The properties of the specification *)

(** ** Record parsing (C8) *)

(** C8 (defect of the Gmail adapter).  The claim: parsing never fails on a
    missing optional field and defaults it to the empty string or the
    empty list, a missing To or Cc header giving an empty recipient list.
    The code at a Gmail message without To and Cc headers: the Cc list is
    empty, as the guard on the Cc line makes it, but the To line has no
    such guard and yields a list of one empty address. *)
Theorem gmail_missing_To_yields_one_empty_address (now : Z) :
  ∃ parsed, GmailService.parse_message now Sample.gmail_no_to = Ok parsed
            ∧ to_addrs parsed = [""]
            ∧ cc_addrs parsed = [].
Proof. eexists. split; [vm_compute; reflexivity | split; reflexivity]. Qed.

(** ** A cursor the provider rejects (C9) *)

(** C9 (defect of the Outlook adapter).  The claim: both adapters answer a
    rejected cursor with a full fetch and no error reaches the caller.
    The Gmail adapter does ([gmail_stale_cursor_falls_back]); the Outlook
    adapter requests the stored delta link and, when the provider answers
    outside 2xx (410 Gone for an expired delta token), raises the HTTP
    error to the caller without a second request. *)
Theorem outlook_rejected_cursor_raises (w : World) (token : option string) (max : Z)
    (link : string) (response : Response GraphApi.DeltaPage) :
  link ≠ "" ->
  graph_get w link token = Ok response ->
  (status_code response < 200 ∨ 300 <= status_code response) ->
  OutlookService.fetch_messages w token max (Some link)
  = Raise (HTTPStatusError (status_code response)).
Proof.
  intros Hlink Hget Hstatus. unfold OutlookService.fetch_messages.
  destruct link as [|c link]; [done|]. rewrite Hget. simpl.
  unfold raise_for_status.
  destruct (200 <=? status_code response) eqn:E1;
    destruct (status_code response <? 300) eqn:E2; simpl; try reflexivity.
  apply Z.leb_le in E1. apply Z.ltb_lt in E2. lia.
Qed.

Lemma outlook_rejected_cursor_raises_witness :
  OutlookService.fetch_messages
    (Sample.microsoft_world 1000 (fun _ => Raise ProviderError)
       (fun url _ => if bool_decide (url = "d1")
                     then Sample.status 410 (Sample.page [] None None)
                     else Sample.ok (Sample.page [] (Some "d2") None)))
    (Some "stale") 50 (Some "d1")
  = Raise (HTTPStatusError 410).
Proof.
  apply (outlook_rejected_cursor_raises
           (Sample.microsoft_world 1000 (fun _ => Raise ProviderError)
              (fun url _ => if bool_decide (url = "d1")
                            then Sample.status 410 (Sample.page [] None None)
                            else Sample.ok (Sample.page [] (Some "d2") None)))
           (Some "stale") 50 "d1"
           {| status_code := 410; json := Sample.page [] None None |}).
  - discriminate.
  - reflexivity.
  - right. simpl. lia.
Defined.

(** ** The last-message date of a thread (C6) *)

(** C6.  For every thread the last-message date never decreases, across
    the records of a batch and across any sequence of sync runs, and a
    message that goes into an existing thread moves the date to the later
    of the date it had and the date of the message; for the records of
    both providers.  The message goes in whenever its date and the date
    of the thread can be compared (both carry a time zone, or neither
    does).  Thread rows are told apart by their primary key, which the
    database keeps unique. *)
Theorem last_message_at_never_decreases `{PyRuntime} (w : World) (account_id : Z)
    (σ : Session) :
  NoDup (t_id <$> threads (pending σ)) ->
  (∀ records, thread_le (pending σ) (pending (ingest w records account_id σ).2))
  ∧ (∀ runs, thread_le (pending σ) (run_all runs (pending σ)))
  ∧ (∀ raw parsed thread last,
       parse_record (utcnow w) raw = Ok parsed ->
       select_message (provider_message_id parsed) (pending σ) = [] ->
       select_thread account_id (thread_id parsed) (pending σ) = [thread] ->
       t_last_message_at thread = Some last ->
       (aware (date parsed) = aware last ->
        ∃ σ', process_record w raw account_id σ = (Ok tt, σ'))
       ∧ ∀ σ', process_record w raw account_id σ = (Ok tt, σ') ->
           ∃ thread',
             select_thread account_id (thread_id parsed) (pending σ') = [thread']
             ∧ t_id thread' = t_id thread
             ∧ t_last_message_at thread' = Some (latest last (date parsed))).
Proof.
  intros Hnd. split; [|split].
  - intros records. by apply (ingest_pending_advance w records account_id σ).
  - intros runs. by apply run_all_advance.
  - intros raw parsed thread last Ep Em Et El.
    rewrite (process_record_parsed _ _ _ _ _ Ep). split.
    + intros Haw. rewrite (store_parsed_existing_thread _ _ _ _ _ Em Et El Haw). eauto.
    + intros σ' E.
      destruct (decide (aware (date parsed) = aware last)) as [Haw|Haw].
      2:{ by rewrite (store_parsed_incomparable _ _ _ _ _ Em Et El Haw) in E. }
      rewrite (store_parsed_existing_thread _ _ _ _ _ Em Et El Haw) in E.
      injection E as <-. eexists. simpl.
      split; [apply select_thread_bump, Et|]. unfold latest.
      destruct (instant last <? instant (date parsed)); simpl; [done|].
      split; [done | exact El].
Qed.

Lemma last_message_at_never_decreases_witness :
  ∃ σ' thread',
    process_record (Sample.graph_world Sample.no_token [] None)
      (GraphRecord (Sample.graph_message "m2" "150" "newer")) 1
      (open_session Sample.inbox) = (Ok tt, σ')
    ∧ select_thread 1 "conv" (pending σ') = [thread']
    ∧ t_id thread' = 1
    ∧ t_last_message_at thread' = Some (latest (zoned 100) (zoned 150)).
Proof.
  assert (Hnd : NoDup (t_id <$> threads (pending (open_session Sample.inbox)))).
  { simpl. apply NoDup_singleton. }
  destruct (last_message_at_never_decreases
              (Sample.graph_world Sample.no_token [] None) 1
              (open_session Sample.inbox) Hnd) as (_ & _ & Hmax).
  destruct (Hmax (GraphRecord (Sample.graph_message "m2" "150" "newer"))
              {| provider_message_id := "m2"; thread_id := "conv"; from_addr := "";
                 to_addrs := []; cc_addrs := []; bcc_addrs := Some [];
                 subject := "minutes"; date := zoned 150; body_text := ""; body_html := "";
                 snippet := "newer"; attachments := []; has_attachments := false |}
              {| t_id := 1; t_account_id := 1; t_provider_thread_id := "conv";
                 t_subject := "minutes"; t_snippet := "first";
                 t_last_message_at := Some (zoned 100) |}
              (zoned 100) eq_refl eq_refl eq_refl eq_refl) as (Hgoes & Hmoves).
  destruct (Hgoes eq_refl) as (σ' & E).
  destruct (Hmoves σ' E) as (thread' & Hthread).
  exists σ', thread'. split; [exact E | exact Hthread].
Defined.

(** ** One new record of an existing thread (C3) *)





Lemma gmail_history_run_ingests_nothing :
  let run := SyncTasks.sync_account_task Sample.history_served 2 Sample.gmail_inbox in
  run.1 = Ok (Success 2)
  ∧ messages (committed run.2) = []
  ∧ cursor_of 2 (committed run.2) = cursor_of 2 Sample.gmail_inbox.
Proof. vm_compute. repeat split. Qed.

(** ** The same records twice (C1) *)

(** C1.  Feed the records of a sync run through a second run, in any
    world ([fetched] is what the fetch of a run hands to the pipeline; the
    second run may also be fed some of the records only).  However the
    two runs end, no provider message id has two rows afterwards if none
    had two before.  If the first run returned success, every record has
    exactly one message row, and the second run creates no message,
    thread or attachment row: the mail tables of the database after the
    second run are those after the first. *)
Theorem sync_twice_is_idempotent `{PyRuntime} (w1 w2 : World) (account_id : Z)
    (db : Store) :
  let run1 := SyncTasks.sync_account_task w1 account_id db in
  let run2 := SyncTasks.sync_account_task w2 account_id (committed run1.2) in
  (unique_ids db -> unique_ids (committed run1.2) ∧ unique_ids (committed run2.2))
  ∧ (run1.1 = Ok (Success account_id) ->
     (∀ raw, raw ∈ fetched w2 account_id (committed run1.2) ->
             raw ∈ fetched w1 account_id db) ->
     mail (committed run2.2) = mail (committed run1.2)
     ∧ ∀ raw, raw ∈ fetched w1 account_id db ->
         ∃ parsed, parse_record (utcnow w1) raw = Ok parsed
                   ∧ stored_once (provider_message_id parsed) (committed run2.2)).
Proof.
  intros run1 run2. split.
  { intros Hu. assert (Hu1 : unique_ids (committed run1.2))
      by by apply sync_account_task_unique_ids.
    split; [done|]. by apply sync_account_task_unique_ids. }
  intros Hrun Hsame.
  assert (Hfirst : ∀ raw, raw ∈ fetched w1 account_id db ->
            ∃ parsed, parse_record (utcnow w1) raw = Ok parsed
                      ∧ stored_once (provider_message_id parsed) (committed run1.2)).
  { unfold run1 in *.
    destruct (sync_account_task_cases w1 account_id db)
      as [(r & E & Hr)|(account & σa & a & Ea & Hid & Hact & Ec & Eacc & Hmail & _ & _ & E)].
    { rewrite E in Hrun. simpl in Hrun. by destruct (Hr account_id). }
    rewrite E in Hrun |- *. unfold finish_sync in *.
    destruct (fetch_batch w1 (provider account) a) as [batch|e] eqn:Ef; [|done].
    destruct (ingest w1 (records batch) account_id σa) as [[[]|e] σi] eqn:Ei; [|done].
    rewrite (fetched_batch w1 _ _ _ _ _ _ Ea Hact Ec Eacc Ef).
    intros raw Hin. destruct (ingest_stores _ _ _ _ _ Ei) as [_ Hall].
    destruct (Hall raw Hin) as (parsed & Ep & Hs). exists parsed. split; [done|].
    eapply stored_once_mail; [symmetry; apply mail_stamped | done]. }
  assert (Hmail2 : mail (committed run2.2) = mail (committed run1.2)).
  { apply run_over_stored_records. intros raw Hin.
    destruct (Hfirst raw (Hsame raw Hin)) as (parsed & Ep & Hs).
    destruct (parse_record_id_stable _ (utcnow w2) _ _ Ep) as (parsed' & Ep' & Hpid & _).
    exists parsed'. split; [done|]. by rewrite Hpid. }
  split; [exact Hmail2|].
  intros raw Hin. destruct (Hfirst raw Hin) as (parsed & Ep & Hs).
  exists parsed. split; [done|]. eapply stored_once_mail; [symmetry; exact Hmail2 | done].
Qed.

Lemma sync_twice_is_idempotent_witness :
  let run1 := SyncTasks.sync_account_task Sample.two_messages 1 Sample.fresh_inbox in
  let run2 := SyncTasks.sync_account_task Sample.two_messages 1 (committed run1.2) in
  (unique_ids (committed run1.2) ∧ unique_ids (committed run2.2))
  ∧ mail (committed run2.2) = mail (committed run1.2)
  ∧ ∀ raw, raw ∈ fetched Sample.two_messages 1 Sample.fresh_inbox ->
      ∃ parsed, parse_record (utcnow Sample.two_messages) raw = Ok parsed
                ∧ stored_once (provider_message_id parsed) (committed run2.2).
Proof.
  intros run1 run2.
  destruct (sync_twice_is_idempotent Sample.two_messages Sample.two_messages 1
              Sample.fresh_inbox) as [Hunique Hsame].
  split.
  - apply Hunique. apply NoDup_nil_2.
  - apply Hsame.
    + vm_compute. reflexivity.
    + intros raw. vm_compute. intros Hin. exact Hin.
Defined.

(** ** What a run commits, and when (C2) *)

(** C2, as the code has it.  In every state that the database holds
    during or after a sync run the mail tables and the account's cursor
    are either both as they were before the run, or both as the run leaves
    them, and the latter only in a run that returns success: the rows of
    the batch and the cursor go in by one commit, in full or not at all.
    A run that does not return success leaves mail tables and cursor as
    they were.  In a run that returns success the rows are those of the
    ingestion of the whole batch and the cursor is the one the batch
    brought, or the old one if it brought none.  (The last-synced stamp
    and a refreshed credential are committed on their own.) *)
Theorem batch_and_cursor_commit_together `{PyRuntime} (w : World) (account_id : Z)
    (db : Store) :
  let r := (SyncTasks.sync_account_task w account_id db).1 in
  let σ := (SyncTasks.sync_account_task w account_id db).2 in
  (∀ s, s ∈ durable σ ->
     (mail s = mail db ∧ cursor_of account_id s = cursor_of account_id db)
     ∨ (r = Ok (Success account_id)
        ∧ mail s = mail (committed σ)
        ∧ cursor_of account_id s = cursor_of account_id (committed σ)))
  ∧ (r ≠ Ok (Success account_id) ->
     mail (committed σ) = mail db
     ∧ cursor_of account_id (committed σ) = cursor_of account_id db)
  ∧ (r = Ok (Success account_id) ->
     ∃ account σa a batch σi,
       select_account account_id db = [account]
       ∧ SyncTasks.check_token w account (open_session db) = (Ok tt, σa)
       ∧ select_account account_id (pending σa) = [a]
       ∧ fetch_batch w (provider account) a = Ok batch
       ∧ ingest w (records batch) account_id σa = (Ok tt, σi)
       ∧ mail (committed σ) = mail (pending σi)
       ∧ cursor_of account_id (committed σ)
         = match new_cursor batch with
           | Some c => (fun _ => Some c) <$> select_account account_id db
           | None => cursor_of account_id db
           end).
Proof.
  intros r σ. subst r σ.
  destruct (sync_account_task_cases w account_id db)
    as [(r & -> & Hr)|(account & σa & a & Ea & Hid & Hact & Ec & Eacc & Hmail & Hcur & Hdur & ->)].
  { simpl. split; [|split].
    - intros s Hs. left. unfold durable in Hs. simpl in Hs.
      by apply list_elem_of_singleton in Hs as ->.
    - done.
    - intros ->. by destruct (Hr account_id). }
  assert (Hold : ∀ s, s ∈ durable σa ->
            mail s = mail db ∧ cursor_of account_id s = cursor_of account_id db).
  { intros s Hs. by destruct (Hdur s Hs) as [->| ->]. }
  unfold finish_sync.
  destruct (fetch_batch w (provider account) a) as [batch|e] eqn:Ef.
  - pose proof (ingest_keeps_frame w (records batch) account_id σa) as Hframe.
    destruct (ingest w (records batch) account_id σa) as [[[]|e] σi] eqn:Ei;
      simpl in Hframe; cbn [fst snd].
    + assert (Hacc : accounts (pending σi) = accounts (pending σa)) by apply Hframe.
      assert (Hcur_i : cursor_of account_id (pending σi) = cursor_of account_id db).
      { rewrite <- Hcur. unfold cursor_of, select_account. by rewrite Hacc. }
      assert (Hsel_i : select_account account_id (pending σi) = [a]).
      { rewrite <- Eacc. unfold select_account. by rewrite Hacc. }
      assert (Hb : cursor_of account_id
                     (store_cursor account_id (new_cursor batch) (pending σi))
                   = match new_cursor batch with
                     | Some c => (fun _ => Some c) <$> select_account account_id db
                     | None => cursor_of account_id db
                     end).
      { destruct (new_cursor batch) as [c|]; simpl; [|exact Hcur_i].
        unfold cursor_of. rewrite select_account_update by done.
        rewrite Hsel_i, Ea. reflexivity. }
      split; [|split].
      * intros s Hs. unfold stamped, batch_committed in Hs.
        rewrite !durable_after_commit in Hs.
        apply elem_of_cons in Hs as [->|Hs]; [right; done|].
        apply elem_of_cons in Hs as [->|Hs].
        { right. split; [done|]. unfold stamped, batch_committed. simpl.
          split; [done|]. by rewrite cursor_of_stamp. }
        left. rewrite (ingest_frame_durable _ _ Hframe) in Hs. by apply Hold.
      * done.
      * intros _. exists account, σa, a, batch, σi.
        repeat split; try done.
        -- apply mail_stamped.
        -- unfold stamped, batch_committed. simpl. by rewrite cursor_of_stamp.
    + split; [|split]; [| |done].
      * intros s Hs. left. rewrite durable_after_rollback in Hs.
        rewrite (ingest_frame_durable _ _ Hframe) in Hs. by apply Hold.
      * intros _. apply Hold. rewrite <- (ingest_frame_durable _ _ Hframe).
        apply list_elem_of_here.
  - cbn [fst snd]. split; [|split]; [| |done].
    + intros s Hs. left. rewrite durable_after_rollback in Hs. by apply Hold.
    + intros _. apply Hold. apply list_elem_of_here.
Qed.

Lemma batch_and_cursor_commit_together_witness :
  let run := SyncTasks.sync_account_task Sample.two_messages 1 Sample.fresh_inbox in
  (mail (committed run.2) = mail Sample.fresh_inbox
   ∧ cursor_of 1 (committed run.2) = cursor_of 1 Sample.fresh_inbox)
  ∨ (run.1 = Ok (Success 1)
     ∧ mail (committed run.2) = mail (committed run.2)
     ∧ cursor_of 1 (committed run.2) = cursor_of 1 (committed run.2)).
Proof.
  intros run.
  apply (proj1 (batch_and_cursor_commit_together Sample.two_messages 1 Sample.fresh_inbox)).
  unfold durable. apply list_elem_of_here.
Defined.

(** C2 as stated fails, in three ways.  (1) In a successful run the
    database holds, between the two commits, the rows of the batch and the
    new cursor without the last-synced stamp.  (2) A run that refreshes
    the credential and then fails at the fetch has changed the store: the
    refreshed credential stays committed.  (3) A page that brings no delta
    link has its rows committed and the cursor is not advanced. *)
Lemma stamp_and_credential_commit_apart :
  (∃ s, durable (SyncTasks.sync_account_task Sample.two_messages 1 Sample.fresh_inbox).2
          !! 1%nat = Some s
        ∧ length (messages s) = 2%nat
        ∧ cursor_of 1 s = [Some {[ "delta_link" := "d2" ]}]
        ∧ last_synced_at <$> select_account 1 s = [None])
  ∧ (let run := SyncTasks.sync_account_task Sample.graph_down 1
                  (Sample.expired_inbox (Some "r")) in
     run.1 = Raise (NameError "self")
     ∧ access_token <$> select_account 1 (Sample.expired_inbox (Some "r")) = [Some "stale"]
     ∧ access_token <$> select_account 1 (committed run.2) = [Some "fresh"])
  ∧ (let run := SyncTasks.sync_account_task Sample.first_page 1 Sample.fresh_inbox in
     run.1 = Ok (Success 1)
     ∧ length (messages Sample.fresh_inbox) = 0%nat
     ∧ length (messages (committed run.2)) = 1%nat
     ∧ cursor_of 1 (committed run.2) = cursor_of 1 Sample.fresh_inbox).
Proof.
  split; [|split].
  - eexists. split; [vm_compute; reflexivity|]. vm_compute. repeat split.
  - vm_compute. repeat split.
  - vm_compute. repeat split.
Qed.

(** A record without an id in second place: the first record goes into the
    open transaction, the second raises, the handler rolls back.  The run
    raises and the database holds no row of the batch. *)
Lemma malformed_record_aborts_the_batch :
  let w := Sample.graph_world Sample.no_token
             [Sample.graph_message "a1" "10" "first"; Sample.graph_no_id] (Some "d2") in
  let run := SyncTasks.sync_account_task w 1 Sample.fresh_inbox in
  run.1 = Raise (NameError "self")
  ∧ committed run.2 = Sample.fresh_inbox
  ∧ durable run.2 = [Sample.fresh_inbox].
Proof. vm_compute. repeat split. Qed.

(** ** The credential refresh inside a run (C4, C7, C10) *)

(** The run of an active account whose token check left the session [σ1]
    and the account object [a]. *)
Lemma sync_account_task_after_check `{PyRuntime} (w : World) (db : Store)
    (account a : EmailAccount) (σ1 : Session) :
  select_account (acc_id account) db = [account] ->
  is_active account = true ->
  SyncTasks.check_token w account (open_session db) = (Ok tt, σ1) ->
  select_account (acc_id account) (pending σ1) = [a] ->
  SyncTasks.sync_account_task w (acc_id account) db
  = finish_sync w (provider account) (acc_id account) a σ1.
Proof.
  intros Ea Hact Ec Eacc. unfold SyncTasks.sync_account_task.
  rewrite (sync_account_async_active w _ (open_session db) account Ea Hact).
  apply (pipeline_run w account _ σ1 a Ec (account_obj_head _ _ _ _ Eacc)).
Qed.











(** ** Two runs of one account (C5) *)

(** C5, as the code has it.  There is no lease: a queued task can start
    whatever the other tasks of the pool do; it ends as skipped, with the
    reason "account not found or inactive", exactly when the account row
    is missing or inactive; and a task of an active account passes the
    entry check and executes the pipeline next to every task of the same
    account that is already executing. *)
Theorem sync_is_skipped_only_for_missing_or_inactive `{PyRuntime} (p : Workers.Pool)
    (i : nat) (account_id : Z) :
  Workers.tasks p !! i = Some (account_id, Workers.Queued) ->
  let started := Workers.start account_id (Workers.database p) in
  let q := {| Workers.database := Workers.database p;
              Workers.tasks := <[i := (account_id, started)]> (Workers.tasks p) |} in
  Workers.step p q
  ∧ (started = Workers.Finished (Ok (Skipped "account not found or inactive"))
     <-> (select_account account_id (Workers.database p) = []
          ∨ ∃ account, select_account account_id (Workers.database p) = [account]
                       ∧ is_active account = false))
  ∧ (∀ account,
       select_account account_id (Workers.database p) = [account] ->
       is_active account = true ->
       started = Workers.Running account
       ∧ length (Workers.executing account_id q)
         = S (length (Workers.executing account_id p))).
Proof.
  intros Hq started q. split; [by apply Workers.step_start|].
  split; [apply start_skipped|].
  intros account Ea Hact.
  assert (Es : started = Workers.Running account) by by apply start_running.
  split; [exact Es|].
  unfold Workers.executing, q. simpl. rewrite Es.
  apply (filter_insert_length _ _ i (account_id, Workers.Queued)); [done| |done].
  simpl. intros [_ ?]. done.
Qed.

Lemma sync_is_skipped_only_for_missing_or_inactive_witness :
  let p := Workers.delay 1
             (Workers.sync_all_accounts
                {| Workers.database := Sample.inbox; Workers.tasks := [] |}) in
  let q := {| Workers.database := Sample.inbox;
              Workers.tasks :=
                <[0%nat := (1, Workers.start 1 Sample.inbox)]> (Workers.tasks p) |} in
  Workers.step p q
  ∧ Workers.start 1 Sample.inbox
    = Workers.Running (Sample.outlook_account None None (Sample.cursor "d1"))
  ∧ length (Workers.executing 1 q) = S (length (Workers.executing 1 p)).
Proof.
  intros p q.
  destruct (sync_is_skipped_only_for_missing_or_inactive p 0 1 eq_refl)
    as (Hstep & _ & Hrun).
  split; [exact Hstep|].
  apply (Hrun (Sample.outlook_account None None (Sample.cursor "d1")) eq_refl eq_refl).
Defined.

(** C5 as stated fails: the periodic tick and a manual trigger both queue
    a sync of account 1; both tasks pass the entry check, so that two
    pipelines of the account execute at the same time, and both return
    success: neither is skipped. *)
Lemma two_syncs_of_one_account_both_execute :
  let p := Workers.delay 1
             (Workers.sync_all_accounts
                {| Workers.database := Sample.inbox; Workers.tasks := [] |}) in
  ∃ q r,
    Workers.steps p q
    ∧ length (Workers.executing 1 q) = 2%nat
    ∧ Workers.steps q r
    ∧ snd <$> Workers.tasks r
      = [Workers.Finished (Ok (Success 1)); Workers.Finished (Ok (Success 1))].
Proof.
  intros p. eexists _, _. split; [|split; [|split]].
  - eapply Workers.steps_step; [apply (Workers.step_start _ 0 1); reflexivity|].
    eapply Workers.steps_step; [apply (Workers.step_start _ 1 1); reflexivity|].
    apply Workers.steps_refl.
  - vm_compute. reflexivity.
  - eapply Workers.steps_step.
    { eapply (Workers.step_complete _ 0 1 _ Sample.two_messages). vm_compute. reflexivity. }
    eapply Workers.steps_step.
    { eapply (Workers.step_complete _ 1 1 _ Sample.two_messages). vm_compute. reflexivity. }
    apply Workers.steps_refl.
  - vm_compute. reflexivity.
Qed.

(** * Further properties of the code *)

(** ** Invariants of the mail tables *)

(** X1.  Find-or-create never makes a second thread for a key: if no two
    threads of the database share account and provider thread id, none do
    after any sequence of sync runs, however each run ends. *)
Theorem thread_keys_stay_unique `{PyRuntime} (runs : list (World * Z)) (db : Store) :
  unique_threads db -> unique_threads (run_all runs db).
Proof.
  revert db. induction runs as [|[w account_id] runs IH]; intros db Hu; [done|].
  simpl. apply IH. apply sync_account_task_keeps; [|apply store_parsed_unique_threads|done].
  intros s s' E. apply mail_eq_inv in E as (E & _ & _). unfold unique_threads. by rewrite E.
Qed.

Lemma thread_keys_stay_unique_witness :
  unique_threads (run_all [(Sample.two_messages, 1); (Sample.first_page, 1)] Sample.inbox).
Proof.
  apply (thread_keys_stay_unique [(Sample.two_messages, 1); (Sample.first_page, 1)]
           Sample.inbox).
  unfold unique_threads. simpl. apply NoDup_singleton.
Defined.

(** X2.  The foreign keys hold: if every message of the database belongs
    to a thread of the thread table and every attachment to a message of
    the message table, the same is true after any sequence of sync runs. *)
Theorem foreign_keys_stay_valid `{PyRuntime} (runs : list (World * Z)) (db : Store) :
  refs_ok db -> refs_ok (run_all runs db).
Proof.
  revert db. induction runs as [|[w account_id] runs IH]; intros db Hu; [done|].
  simpl. apply IH. apply sync_account_task_keeps; [|apply store_parsed_refs_ok|done].
  intros s s' E. apply mail_eq_inv in E as (Et & Em & Ea). unfold refs_ok.
  by rewrite Et, Em, Ea.
Qed.

Lemma foreign_keys_stay_valid_witness :
  refs_ok (run_all [(Sample.two_messages, 1); (Sample.first_page, 1)] Sample.inbox).
Proof.
  apply (foreign_keys_stay_valid [(Sample.two_messages, 1); (Sample.first_page, 1)]
           Sample.inbox).
  split; simpl.
  - intros m Hm. apply list_elem_of_singleton in Hm as ->. simpl.
    by apply list_elem_of_singleton.
  - intros a Ha. by apply elem_of_nil in Ha.
Defined.

(** X3.  The sync engine only adds messages and attachments: after any
    sequence of sync runs the message table and the attachment table
    begin with the rows they had, unchanged and in place (so no run
    touches the read flag or removes a row). *)
Theorem messages_are_only_added `{PyRuntime} (runs : list (World * Z)) (db : Store) :
  mail_grows db (run_all runs db).
Proof.
  revert db. induction runs as [|[w account_id] runs IH]; intros db;
    [apply mail_grows_refl|].
  simpl. eapply mail_grows_trans; [apply sync_account_task_rows_are_kept | apply IH].
Qed.

(** ** The account rows *)

(** X4.  A sync run of one account leaves the rows of every other account
    as they were. *)
Theorem other_accounts_are_untouched `{PyRuntime} (w : World) (account_id : Z)
    (db : Store) (i : Z) :
  i ≠ account_id ->
  select_account i (committed (SyncTasks.sync_account_task w account_id db).2)
  = select_account i db.
Proof. intros Hne. by apply (run_select_account w account_id db i). Qed.

Lemma other_accounts_are_untouched_witness :
  select_account 2
    (committed (SyncTasks.sync_account_task Sample.two_messages 1 Sample.inbox).2)
  = select_account 2 Sample.inbox.
Proof.
  apply (other_accounts_are_untouched Sample.two_messages 1 Sample.inbox 2). discriminate.
Defined.

(** X5.  No sync run activates an account: an account that is inactive in
    the database is inactive after any sequence of sync runs, of this and
    of other accounts. *)
Theorem sync_never_activates `{PyRuntime} (runs : list (World * Z)) (db : Store)
    (account_id : Z) :
  (∀ a, a ∈ select_account account_id db -> is_active a = false) ->
  ∀ a, a ∈ select_account account_id (run_all runs db) -> is_active a = false.
Proof.
  revert db. induction runs as [|[w i] runs IH]; intros db Hoff; [done|].
  simpl. apply IH. intros a Ha.
  destruct (run_select_account w i db account_id) as (Hother & g & Hg & Hsame).
  destruct (decide (account_id = i)) as [->|Hne].
  - rewrite (Hsame eq_refl) in Ha. apply list_elem_of_fmap in Ha as (a0 & -> & Ha0).
    destruct (Hg a0) as (_ & _ & Hact). specialize (Hoff a0 Ha0).
    destruct (is_active (g a0)); [|done]. rewrite Hact in Hoff; done.
  - rewrite (Hother Hne) in Ha. by apply Hoff.
Qed.

Lemma sync_never_activates_witness :
  Forall (fun a => is_active a = false)
    (select_account 1
       (run_all [(Sample.two_messages, 1); (Sample.first_page, 1)]
          (Sample.empty_db (set_is_active false (Sample.outlook_account None None None))))).
Proof.
  apply Forall_forall.
  apply (sync_never_activates [(Sample.two_messages, 1); (Sample.first_page, 1)]
           (Sample.empty_db (set_is_active false (Sample.outlook_account None None None))) 1).
  intros a Ha. simpl in Ha. apply list_elem_of_singleton in Ha as ->. reflexivity.
Defined.

(** ** The rows a record makes *)

(** X6.  A record that is new to the message table and goes in is filed
    under the thread of its key: afterwards there is exactly one message
    with its provider id and exactly one thread of the account with its
    provider thread id, the message points to that thread, is unread and
    carries the record's sender, subject and date.  This is so whether the
    thread was found or created. *)
Theorem new_record_is_filed_under_its_thread `{PyRuntime} (parsed : Parsed)
    (account_id : Z) (σ σ' : Session) :
  select_message (provider_message_id parsed) (pending σ) = [] ->
  SyncTasks.store_parsed parsed account_id σ = (Ok tt, σ') ->
  ∃ m t,
    select_message (provider_message_id parsed) (pending σ') = [m]
    ∧ select_thread account_id (thread_id parsed) (pending σ') = [t]
    ∧ m_thread_id m = t_id t
    ∧ m_is_read m = false
    ∧ m_from_addr m = from_addr parsed
    ∧ m_subject m = subject parsed
    ∧ m_date m = date parsed.
Proof.
  intros Em E.
  apply store_parsed_Ok_inv in E as [(m & Em' & _)|(_ & tid & ts & -> & Hcase)];
    [congruence|].
  destruct Hcase as [(Et & -> & ->)|(thread & last & Et & El & -> & ->)].
  - eexists _, _. simpl. split; [by apply select_message_new|].
    split; [by apply select_thread_new|]. done.
  - eexists _, _. simpl. split; [by apply select_message_new|].
    split; [by apply select_thread_bump|].
    by destruct (instant last <? instant (date parsed)).
Qed.

Lemma new_record_is_filed_under_its_thread_witness :
  let parsed :=
    {| provider_message_id := "m2"; thread_id := "conv"; from_addr := "bob@example.org";
       to_addrs := []; cc_addrs := []; bcc_addrs := None; subject := "minutes";
       date := zoned 150; body_text := ""; body_html := ""; snippet := "newer";
       attachments := []; has_attachments := false |} in
  ∃ m t,
    select_message "m2"
      (pending (SyncTasks.store_parsed parsed 1 (open_session Sample.inbox)).2) = [m]
    ∧ select_thread 1 "conv"
        (pending (SyncTasks.store_parsed parsed 1 (open_session Sample.inbox)).2) = [t]
    ∧ m_thread_id m = t_id t
    ∧ m_is_read m = false
    ∧ m_from_addr m = "bob@example.org"
    ∧ m_subject m = "minutes"
    ∧ m_date m = zoned 150.
Proof.
  intros parsed.
  apply (new_record_is_filed_under_its_thread parsed 1 (open_session Sample.inbox)
           (SyncTasks.store_parsed parsed 1 (open_session Sample.inbox)).2).
  - reflexivity.
  - vm_compute. reflexivity.
Defined.

(** X7.  A new message of an existing thread, dated so that its date can
    be compared with the thread's (both carry a time zone, or neither
    does), never changes the thread's subject, and replaces its snippet
    exactly when the message is dated strictly after the thread's last
    message: a message of the same or an earlier date leaves the
    snippet. *)
Theorem snippet_follows_the_latest_message `{PyRuntime} (parsed : Parsed)
    (account_id : Z) (σ : Session) (thread : Thread) (last : datetime) :
  select_message (provider_message_id parsed) (pending σ) = [] ->
  select_thread account_id (thread_id parsed) (pending σ) = [thread] ->
  t_last_message_at thread = Some last ->
  aware (date parsed) = aware last ->
  ∃ σ' thread',
    SyncTasks.store_parsed parsed account_id σ = (Ok tt, σ')
    ∧ select_thread account_id (thread_id parsed) (pending σ') = [thread']
    ∧ t_subject thread' = t_subject thread
    ∧ (instant last < instant (date parsed) -> t_snippet thread' = snippet parsed)
    ∧ (instant (date parsed) <= instant last -> t_snippet thread' = t_snippet thread)
    ∧ length (threads (pending σ')) = length (threads (pending σ)).
Proof.
  intros Em Et El Haw. rewrite (store_parsed_existing_thread _ _ _ _ _ Em Et El Haw).
  eexists _, _. split; [reflexivity|]. simpl.
  split; [by apply select_thread_bump|].
  split; [by destruct (instant last <? instant (date parsed))|].
  split; [|split; [|apply bump_thread_length]].
  - intros Hlt. apply Z.ltb_lt in Hlt. by rewrite Hlt.
  - intros Hle. apply Z.ltb_ge in Hle. by rewrite Hle.
Qed.

Lemma snippet_follows_the_latest_message_witness :
  let parsed :=
    {| provider_message_id := "m2"; thread_id := "conv"; from_addr := "";
       to_addrs := []; cc_addrs := []; bcc_addrs := None; subject := "another subject";
       date := zoned 100; body_text := ""; body_html := ""; snippet := "same instant";
       attachments := []; has_attachments := false |} in
  ∃ σ' thread',
    SyncTasks.store_parsed parsed 1 (open_session Sample.inbox) = (Ok tt, σ')
    ∧ select_thread 1 "conv" (pending σ') = [thread']
    ∧ t_subject thread' = "minutes"
    ∧ t_snippet thread' = "first".
Proof.
  intros parsed.
  destruct (snippet_follows_the_latest_message parsed 1 (open_session Sample.inbox)
              {| t_id := 1; t_account_id := 1; t_provider_thread_id := "conv";
                 t_subject := "minutes"; t_snippet := "first";
                 t_last_message_at := Some (zoned 100) |} (zoned 100)
              eq_refl eq_refl eq_refl eq_refl)
    as (σ' & thread' & Hrun & Hsel & Hsubject & _ & Hkeep & _).
  exists σ', thread'. split; [exact Hrun|]. split; [exact Hsel|].
  split; [exact Hsubject|]. apply Hkeep. simpl. lia.
Defined.

(** X8.  A batch of records that parse to distinct provider ids, none of
    them stored, adds exactly one message row per record when its
    ingestion returns. *)
Theorem distinct_new_records_add_one_row_each `{PyRuntime} (w : World)
    (records : list RawRecord) (account_id : Z) (parsed_list : list Parsed)
    (σ σ' : Session) :
  for_each (parse_record (utcnow w)) records = Ok parsed_list ->
  NoDup (provider_message_id <$> parsed_list) ->
  (∀ p, p ∈ parsed_list -> select_message (provider_message_id p) (pending σ) = []) ->
  ingest w records account_id σ = (Ok tt, σ') ->
  length (messages (pending σ')) = (length (messages (pending σ)) + length records)%nat.
Proof.
  revert parsed_list σ. induction records as [|raw records IH];
    intros parsed_list σ Hparse Hnd Hnew E.
  - injection E as <-. simpl. lia.
  - apply for_each_cons_inv in Hparse as (p & ps & Ep & Eps & ->).
    unfold ingest in E. simpl in E. apply db_bind_Ok_inv in E as ([] & σ1 & E1 & E).
    rewrite (process_record_parsed _ _ _ _ _ Ep) in E1.
    apply store_parsed_Ok_inv in E1 as [(m & Em & _)|(Em & tid & ts & -> & _)].
    { rewrite Hnew in Em; [done | apply list_elem_of_here]. }
    rewrite fmap_cons in Hnd. apply NoDup_cons in Hnd as [Hp Hnd].
    assert (Hrest : ∀ q, q ∈ ps ->
              select_message (provider_message_id q)
                (pending (set_pending (insert_parsed p tid ts (pending σ)) σ)) = []).
    2:{ rewrite (IH ps _ Eps Hnd Hrest E). simpl. rewrite length_app. simpl. lia. }
    intros q Hq. simpl. rewrite select_message_insert.
    rewrite Hnew by (apply elem_of_cons; by right).
    rewrite decide_False; [done|]. intros Heq. apply Hp. rewrite Heq.
    by apply list_elem_of_fmap_2.
Qed.

Lemma distinct_new_records_add_one_row_each_witness :
  let records := [GraphRecord (Sample.graph_message "a1" "10" "first");
                  GraphRecord (Sample.graph_message "a2" "20" "second")] in
  length (messages (pending (ingest Sample.two_messages records 1
                               (open_session Sample.inbox)).2))
  = (length (messages Sample.inbox) + 2)%nat.
Proof.
  intros records.
  apply (distinct_new_records_add_one_row_each Sample.two_messages records 1
           [ {| provider_message_id := "a1"; thread_id := "conv"; from_addr := "";
                to_addrs := []; cc_addrs := []; bcc_addrs := Some [];
                subject := "minutes"; date := zoned 10; body_text := ""; body_html := "";
                snippet := "first"; attachments := []; has_attachments := false |};
             {| provider_message_id := "a2"; thread_id := "conv"; from_addr := "";
                to_addrs := []; cc_addrs := []; bcc_addrs := Some [];
                subject := "minutes"; date := zoned 20; body_text := ""; body_html := "";
                snippet := "second"; attachments := []; has_attachments := false |} ]
           (open_session Sample.inbox)).
  - reflexivity.
  - simpl. apply NoDup_cons. split; [|apply NoDup_singleton].
    intros Hin. apply list_elem_of_singleton in Hin. discriminate.
  - intros p Hp. apply elem_of_cons in Hp as [->|Hp]; [reflexivity|].
    apply list_elem_of_singleton in Hp as ->. reflexivity.
  - vm_compute. reflexivity.
Defined.

(** ** Failures *)

(** X9.  The credential refresh never raises, whatever the decryption
    and the provider do: it returns, and what it did is a change of the
    row of its account that keeps the row's key, provider and sync cursor
    and does not activate it; mail tables are not touched, and what it
    commits, if it commits, is the store it leaves in the open
    transaction. *)
Theorem refresh_token_swallows_every_failure `{PyRuntime} (w : World) (account_id : Z)
    (σ : Session) (a : EmailAccount) (rest : list EmailAccount) :
  select_account account_id (pending σ) = a :: rest ->
  ∃ σ' g,
    SyncTasks.refresh_token w account_id σ = (Ok tt, σ')
    ∧ account_change g
    ∧ credential_change g
    ∧ pending σ' = update_account account_id g (pending σ)
    ∧ mail (pending σ') = mail (pending σ)
    ∧ (committed σ' = committed σ ∨ committed σ' = pending σ').
Proof.
  intros Ea.
  assert (Hoff : account_change (set_is_active false) ∧ credential_change (set_is_active false))
    by done.
  destruct (truthy (encrypted_refresh_token a)) eqn:Ht.
  - destruct (request_tokens w a) as [tokens|e] eqn:Er.
    + destruct (OAuth.access_token tokens) as [access|] eqn:Eacc.
      * eexists _, (refreshed w tokens access).
        split; [eapply refresh_token_succeeds; eauto|].
        split; [intros b; unfold refreshed; by destruct (OAuth.refresh_token tokens)|].
        split; [intros b; unfold refreshed; by destruct (OAuth.refresh_token tokens)|].
        split; [done|]. split; [done|]. by right.
      * eexists _, (set_is_active false).
        split; [eapply refresh_token_fails; eauto; intros tokens' E; congruence|].
        destruct Hoff. repeat split; try done. by right.
    + eexists _, (set_is_active false).
      split; [eapply refresh_token_fails; eauto; intros tokens' E; congruence|].
      destruct Hoff. repeat split; try done. by right.
  - eexists _, (set_is_active false).
    split; [eapply refresh_token_without_token; eauto|].
    destruct Hoff. repeat split; try done. by left.
Qed.

Lemma refresh_token_swallows_every_failure_witness :
  ∃ σ' g,
    SyncTasks.refresh_token (Sample.stale_served 1000 Sample.invalid_grant) 1
      (open_session (Sample.expired_inbox (Some "r"))) = (Ok tt, σ')
    ∧ account_change g
    ∧ credential_change g
    ∧ pending σ' = update_account 1 g (Sample.expired_inbox (Some "r"))
    ∧ mail (pending σ') = mail (Sample.expired_inbox (Some "r"))
    ∧ (committed σ' = Sample.expired_inbox (Some "r") ∨ committed σ' = pending σ').
Proof.
  apply (refresh_token_swallows_every_failure
           (Sample.stale_served 1000 Sample.invalid_grant) 1
           (open_session (Sample.expired_inbox (Some "r")))
           (Sample.outlook_account (Some 500) (Some "r") (Sample.cursor "d1")) []).
  reflexivity.
Defined.

(** X10.  Whenever [sync_account_async] raises, it raises the NameError of
    its own handler, after the rollback: the open transaction is back at
    what the database holds, and the exception is never the Retry that
    [self.retry] would raise, so Celery schedules no retry. *)
Theorem every_failure_is_a_NameError `{PyRuntime} (w : World) (account_id : Z)
    (σ σ' : Session) (e : exn) :
  SyncTasks.sync_account_async w account_id σ = (Raise e, σ') ->
  e = NameError "self"
  ∧ pending σ' = committed σ'
  ∧ ∀ countdown, e ≠ Retry countdown.
Proof.
  unfold SyncTasks.sync_account_async, try_except.
  match goal with |- context [match ?body σ with _ => _ end] =>
    destruct (body σ) as [[r|e0] σ0] end; [done|].
  unfold SyncTasks.sync_failed, mbind, DB_bind, rollback, raise. simpl.
  intros E. injection E as <- <-. done.
Qed.

Lemma every_failure_is_a_NameError_witness :
  let run := SyncTasks.sync_account_async Sample.graph_down 1
               (open_session Sample.inbox) in
  run.1 = Raise (NameError "self") ∧ pending run.2 = committed run.2.
Proof.
  intros run.
  assert (E : SyncTasks.sync_account_async Sample.graph_down 1 (open_session Sample.inbox)
              = (Raise (NameError "self"), run.2)) by (vm_compute; reflexivity).
  destruct (every_failure_is_a_NameError Sample.graph_down 1 (open_session Sample.inbox)
              run.2 (NameError "self") E) as (_ & Hrolled & _).
  split; [vm_compute; reflexivity | exact Hrolled].
Defined.

(** ** The periodic task *)

(** X11.  [sync_all_accounts] queues one sync task for every active
    account, in the order of the account table, behind the tasks already
    queued; it queues none for an inactive account and leaves the
    database alone. *)
Theorem sync_all_accounts_queues_the_active (p : Workers.Pool) :
  Workers.database (Workers.sync_all_accounts p) = Workers.database p
  ∧ Workers.tasks (Workers.sync_all_accounts p)
    = (Workers.tasks p
       ++ ((fun a => (acc_id a, Workers.Queued))
           <$> filter (fun a => is_active a = true) (accounts (Workers.database p))))%list
  ∧ ∀ account_id,
      (∀ a, a ∈ select_account account_id (Workers.database p) -> is_active a = false) ->
      length (filter (fun t => t.1 = account_id) (Workers.tasks (Workers.sync_all_accounts p)))
      = length (filter (fun t => t.1 = account_id) (Workers.tasks p)).
Proof.
  unfold Workers.sync_all_accounts.
  destruct (foldl_delay p (filter (fun a => is_active a = true)
                             (accounts (Workers.database p)))) as [Hdb Htasks].
  split; [exact Hdb|]. split; [exact Htasks|].
  intros account_id Hoff. rewrite Htasks, filter_app, length_app.
  rewrite (no_task_for_inactive _ account_id Hoff). simpl. lia.
Qed.

Lemma sync_all_accounts_queues_the_active_witness :
  let p := {| Workers.database :=
                Sample.empty_db (set_is_active false (Sample.outlook_account None None None));
              Workers.tasks := [] |} in
  length (filter (fun t => t.1 = 1) (Workers.tasks (Workers.sync_all_accounts p)))
  = length (filter (fun t : Z * Workers.phase => t.1 = 1) (Workers.tasks p)).
Proof.
  intros p.
  destruct (sync_all_accounts_queues_the_active p) as (_ & _ & Hnone).
  apply (Hnone 1). intros a Ha. simpl in Ha.
  apply list_elem_of_singleton in Ha as ->. reflexivity.
Defined.

(** ** A batch that brings no cursor *)

(** X12.  The sync follows no pagination and makes no progress without a
    cursor: when the batch of a successful run brought no cursor (a Graph
    page with a next link and no delta link, a Gmail history answer, a
    profile without history id), a second run in the same world fetches
    the same records again, ingests none of them and leaves the cursor as
    it was before the first run.  The account's token is taken not to
    need a refresh. *)
Theorem batch_without_cursor_is_fetched_again `{PyRuntime} (w : World) (db : Store)
    (account : EmailAccount) (batch : Batch) (σ1 : Session) :
  select_account (acc_id account) db = [account] ->
  is_active account = true ->
  (token_expiry account = None
   ∨ ∃ expiry, token_expiry account = Some expiry ∧ utcnow w <= expiry) ->
  fetch_batch w (provider account) account = Ok batch ->
  new_cursor batch = None ->
  SyncTasks.sync_account_task w (acc_id account) db
  = (Ok (Success (acc_id account)), σ1) ->
  ∃ σ2,
    SyncTasks.sync_account_task w (acc_id account) (committed σ1)
    = (Ok (Success (acc_id account)), σ2)
    ∧ fetched w (acc_id account) (committed σ1) = records batch
    ∧ mail (committed σ2) = mail (committed σ1)
    ∧ cursor_of (acc_id account) (committed σ2) = cursor_of (acc_id account) db.
Proof.
  intros Ea Hact Hvalid Ef Hcur Hrun.
  assert (Hcheck : ∀ a s, token_expiry a = token_expiry account ->
            SyncTasks.check_token w a (open_session s) = (Ok tt, open_session s)).
  { intros a s Ht. unfold SyncTasks.check_token. rewrite Ht.
    destruct Hvalid as [->|(expiry & -> & Hle)]; [done|].
    apply Z.ltb_ge in Hle. by rewrite Hle. }
  rewrite (sync_account_task_after_check w db account account (open_session db) Ea Hact
             (Hcheck account db eq_refl) Ea) in Hrun.
  unfold finish_sync in Hrun. rewrite Ef in Hrun.
  pose proof (ingest_keeps_frame w (records batch) (acc_id account) (open_session db))
    as Hframe.
  destruct (ingest w (records batch) (acc_id account) (open_session db))
    as [[[]|e] σi] eqn:Ei; [|done].
  simpl in Hframe. injection Hrun as <-.
  set (a1 := set_last_synced_at (Some (utcnow w)) account).
  set (db1 := committed (stamped w (acc_id account)
                           (batch_committed (acc_id account) batch σi))).
  assert (Ea1 : select_account (acc_id account) db1 = [a1]).
  { unfold db1. rewrite (account_after_success w _ _ (open_session db) σi account Ea Hframe).
    by rewrite Hcur. }
  assert (Hmail1 : mail db1 = mail (pending σi)) by apply mail_stamped.
  assert (Ef1 : fetch_batch w (provider a1) a1 = Ok batch) by exact Ef.
  assert (Hstored : ∀ raw, raw ∈ records batch ->
            ∃ parsed, parse_record (utcnow w) raw = Ok parsed
                      ∧ stored_once (provider_message_id parsed)
                          (pending (open_session db1))).
  { intros raw Hin. destruct (ingest_stores _ _ _ _ _ Ei) as [_ Hall].
    destruct (Hall raw Hin) as (parsed & Ep & Hs). exists parsed. split; [done|].
    eapply stored_once_mail; [symmetry; exact Hmail1 | done]. }
  pose proof (sync_account_task_after_check w db1 a1 a1 (open_session db1) Ea1 Hact
                (Hcheck a1 db1 eq_refl) Ea1) as Hrun2.
  unfold finish_sync in Hrun2. rewrite Ef1 in Hrun2.
  rewrite (ingest_stored_is_noop w (records batch) (acc_id a1) (open_session db1) Hstored)
    in Hrun2.
  eexists. split; [exact Hrun2|].
  split; [exact (fetched_batch w _ db1 a1 (open_session db1) a1 batch Ea1 Hact
                   (Hcheck a1 db1 eq_refl) Ea1 Ef1)|].
  split; [apply mail_stamped|].
  unfold stamped, batch_committed. simpl. rewrite cursor_of_stamp.
  rewrite Hcur. simpl. unfold db1, stamped, batch_committed. simpl.
  rewrite cursor_of_stamp, Hcur. simpl.
  destruct Hframe as (_ & _ & Hacc). unfold cursor_of, select_account. by rewrite Hacc.
Qed.

Lemma batch_without_cursor_is_fetched_again_witness :
  let run1 := SyncTasks.sync_account_task Sample.first_page 1 Sample.fresh_inbox in
  ∃ σ2,
    SyncTasks.sync_account_task Sample.first_page 1 (committed run1.2)
    = (Ok (Success 1), σ2)
    ∧ fetched Sample.first_page 1 (committed run1.2)
      = [GraphRecord (Sample.graph_message "a1" "10" "first")]
    ∧ mail (committed σ2) = mail (committed run1.2)
    ∧ cursor_of 1 (committed σ2) = cursor_of 1 Sample.fresh_inbox.
Proof.
  intros run1.
  apply (batch_without_cursor_is_fetched_again Sample.first_page Sample.fresh_inbox
           (Sample.outlook_account None None None)
           {| records := [GraphRecord (Sample.graph_message "a1" "10" "first")];
              new_cursor := None |}
           run1.2).
  - reflexivity.
  - reflexivity.
  - left. reflexivity.
  - reflexivity.
  - reflexivity.
  - vm_compute. reflexivity.
Defined.



(** ** What makes a run fail *)



(** X15.  The other side of it: a record of a thread the account has,
    whose date cannot be compared with the date of the thread (the record
    has no date that parses, so that it is dated by [utcnow()], without
    time zone, and the thread's date has a time zone; or the other way
    round), fails the run at the comparison.  When it is the first record
    of the batch, the run raises after its rollback and the database is
    as it was: no record of the batch is stored. *)
Theorem incomparable_date_aborts_the_batch `{PyRuntime} (w : World) (db : Store)
    (account : EmailAccount) (batch : Batch) (raw : RawRecord) (rest : list RawRecord)
    (parsed : Parsed) (thread : Thread) (last : datetime) :
  select_account (acc_id account) db = [account] ->
  is_active account = true ->
  (token_expiry account = None
   ∨ ∃ expiry, token_expiry account = Some expiry ∧ utcnow w <= expiry) ->
  fetch_batch w (provider account) account = Ok batch ->
  records batch = raw :: rest ->
  parse_record (utcnow w) raw = Ok parsed ->
  select_message (provider_message_id parsed) db = [] ->
  select_thread (acc_id account) (thread_id parsed) db = [thread] ->
  t_last_message_at thread = Some last ->
  aware (date parsed) ≠ aware last ->
  process_record w raw (acc_id account) (open_session db)
  = (Raise TypeError, open_session db)
  ∧ SyncTasks.sync_account_task w (acc_id account) db
    = (Raise (NameError "self"), open_session db).
Proof.
  intros Ea Hact Hvalid Ef Er Ep Em Et El Haw.
  assert (Hraise : process_record w raw (acc_id account) (open_session db)
                   = (Raise TypeError, open_session db)).
  { rewrite (process_record_parsed _ _ _ _ _ Ep).
    by apply (store_parsed_incomparable parsed _ (open_session db) thread last). }
  split; [exact Hraise|].
  assert (Hcheck : SyncTasks.check_token w account (open_session db)
                   = (Ok tt, open_session db)).
  { unfold SyncTasks.check_token.
    destruct Hvalid as [->|(expiry & -> & Hle)]; [done|].
    apply Z.ltb_ge in Hle. by rewrite Hle. }
  rewrite (sync_account_task_after_check w db account account (open_session db) Ea Hact
             Hcheck Ea).
  unfold finish_sync. rewrite Ef, Er. unfold ingest. simpl.
  unfold mbind, DB_bind. by rewrite Hraise.
Qed.

Lemma incomparable_date_aborts_the_batch_witness :
  let w := Sample.graph_world Sample.no_token
             [Sample.graph_message "m2" "" "undated"; Sample.graph_message "m3" "150" "dated"]
             (Some "d2") in
  process_record w (GraphRecord (Sample.graph_message "m2" "" "undated")) 1
    (open_session Sample.inbox)
  = (Raise TypeError, open_session Sample.inbox)
  ∧ SyncTasks.sync_account_task w 1 Sample.inbox
    = (Raise (NameError "self"), open_session Sample.inbox).
Proof.
  intros w.
  apply (incomparable_date_aborts_the_batch w Sample.inbox
           (Sample.outlook_account None None (Sample.cursor "d1"))
           {| records := [GraphRecord (Sample.graph_message "m2" "" "undated");
                          GraphRecord (Sample.graph_message "m3" "150" "dated")];
              new_cursor := Some {[ "delta_link" := "d2" ]} |}
           (GraphRecord (Sample.graph_message "m2" "" "undated"))
           [GraphRecord (Sample.graph_message "m3" "150" "dated")]
           {| provider_message_id := "m2"; thread_id := "conv"; from_addr := "";
              to_addrs := []; cc_addrs := []; bcc_addrs := Some [];
              subject := "minutes"; date := naive 1000; body_text := ""; body_html := "";
              snippet := "undated"; attachments := []; has_attachments := false |}
           {| t_id := 1; t_account_id := 1; t_provider_thread_id := "conv";
              t_subject := "minutes"; t_snippet := "first";
              t_last_message_at := Some (zoned 100) |}
           (zoned 100)).
  - reflexivity.
  - reflexivity.
  - left. reflexivity.
  - reflexivity.
  - reflexivity.
  - reflexivity.
  - reflexivity.
  - reflexivity.
  - reflexivity.
  - discriminate.
Defined.

(** ** The Gmail adapter *)

(** X16.  [GmailService.fetch_messages] answers with a history exactly
    when it was given a non-empty cursor and Gmail accepted it; without a
    cursor, with an empty one, or when the history request fails for any
    reason, it does what the full sync does. *)
Theorem gmail_history_only_from_an_accepted_cursor (w : World) (token : option string)
    (max : Z) (cursor : option string) :
  (∀ data,
     GmailService.fetch_messages w token max cursor = Ok (GmailService.History data)
     <-> truthy cursor = true ∧ history_list w token (get cursor "") = Ok data)
  ∧ (truthy cursor = false ∨ (∃ e, history_list w token (get cursor "") = Raise e) ->
     GmailService.fetch_messages w token max cursor = GmailService.full_sync w token max).
Proof.
  assert (Hfull : ∀ data,
            GmailService.full_sync w token max ≠ Ok (GmailService.History data)).
  { intros data E. apply gmail_full_sync_is_full in E as (? & ? & E). done. }
  unfold GmailService.fetch_messages.
  destruct cursor as [[|c h]|]; simpl.
  - split; [|done]. intros data. split; [by intros E%Hfull | by intros [? _]].
  - destruct (history_list w token (String c h)) as [history|e] eqn:Eh.
    + split.
      * intros data. split; [intros E; injection E as <-; done|].
        intros [_ E]. by injection E as <-.
      * intros [?|[e E]]; done.
    + split; [|done]. intros data. split; [by intros E%Hfull | by intros [_ ?]].
  - split; [|done]. intros data. split; [by intros E%Hfull | by intros [? _]].
Qed.

(** X17.  A full sync that returns has asked Gmail for every message of
    the inbox listing, in the order of the listing, and returns exactly
    those messages with the history id of the profile: a listed reference
    without an id, or one message that cannot be had, fails the fetch as a
    whole. *)
Theorem gmail_full_sync_gets_every_listed_message (w : World) (token : option string)
    (max : Z) (msgs : list GmailApi.Message) (h : option string) :
  GmailService.full_sync w token max = Ok (GmailService.Full msgs h) ->
  ∃ listing profile,
    messages_list w token max = Ok listing
    ∧ Forall2 (got w token) (get (GmailApi.messages listing) []) msgs
    ∧ get_profile w token = Ok profile
    ∧ h = GmailApi.historyId profile.
Proof.
  unfold GmailService.full_sync. intros E.
  apply bind_Ok_inv in E as (listing & El & E).
  apply bind_Ok_inv in E as (message_list & Em & E).
  apply bind_Ok_inv in E as (profile & Ep & E).
  injection E as <- <-. exists listing, profile.
  split; [done|]. split; [|done].
  apply for_each_Forall2 in Em.
  eapply Forall2_impl; [exact Em|].
  intros ref m Eg. simpl in Eg. apply bind_Ok_inv in Eg as (i & Ei & Eg).
  exists i. split; [|done]. by destruct (GmailApi.ref_id ref) as [?|]; [injection Ei as ->|].
Qed.

Lemma gmail_full_sync_gets_every_listed_message_witness :
  ∃ listing profile,
    messages_list Fixtures.gmail_listing (Some "g-token") 50 = Ok listing
    ∧ Forall2 (got Fixtures.gmail_listing (Some "g-token"))
        (get (GmailApi.messages listing) [])
        [Sample.gmail_no_to; Fixtures.gmail_with_parts]
    ∧ get_profile Fixtures.gmail_listing (Some "g-token") = Ok profile
    ∧ Some "78" = GmailApi.historyId profile.
Proof.
  apply (gmail_full_sync_gets_every_listed_message Fixtures.gmail_listing
           (Some "g-token") 50). reflexivity.
Defined.

(** X18.  The parsed headers of a Gmail message are those of the last
    header of exactly that name: sender and subject are the values of the
    last From and Subject headers (empty without one), the recipients
    joined by commas give back the last To header unchanged, and the date
    is that of the last Date header where it parses and the instant of the
    parse where it does not. *)
Theorem gmail_parse_reads_the_last_header `{PyRuntime} (now : Z)
    (message : GmailApi.Message) (pl : GmailApi.Payload) (parsed : Parsed) :
  GmailApi.payload message = Some pl ->
  GmailService.parse_message now message = Ok parsed ->
  let hs := get (GmailApi.headers pl) [] in
  from_addr parsed = get (header_value "From" hs) ""
  ∧ subject parsed = get (header_value "Subject" hs) ""
  ∧ join "," (to_addrs parsed) = get (header_value "To" hs) ""
  ∧ date parsed = get (parsedate_to_datetime (get (header_value "Date" hs) "")) (naive now).
Proof.
  intros Epl E hs. unfold GmailService.parse_message in E. rewrite Epl in E.
  simpl in E. apply bind_Ok_inv in E as (headers & Eh & E).
  repeat (apply bind_Ok_inv in E as (? & _ & E)).
  injection E as <-. simpl.
  assert (Hk : ∀ k, headers !! k = header_value k hs).
  { intros k. rewrite (headers_dict_lookup _ _ _ k Eh).
    fold hs. by destruct (header_value k hs). }
  rewrite !Hk. repeat split. apply join_split.
Qed.

Lemma gmail_parse_reads_the_last_header_witness :
  ∃ parsed,
    GmailService.parse_message 1000 Fixtures.gmail_with_parts = Ok parsed
    ∧ from_addr parsed = ""
    ∧ subject parsed = "final"
    ∧ join "," (to_addrs parsed) = "ann@example.org, bob@example.org"
    ∧ date parsed = naive 1000.
Proof.
  eexists. split; [reflexivity|].
  match goal with |- from_addr ?p = _ ∧ _ =>
    exact (gmail_parse_reads_the_last_header 1000 Fixtures.gmail_with_parts _ p
             eq_refl eq_refl)
  end.
Defined.

(** X19.  Every attachment of a parsed Gmail message has a file name and
    an attachment id, both non-empty; there is at most one for each part
    of the payload; and [has_attachments] holds exactly when there is
    one. *)
Theorem gmail_attachments_have_name_and_id `{PyRuntime} (now : Z)
    (message : GmailApi.Message) (pl : GmailApi.Payload) (parsed : Parsed) :
  GmailApi.payload message = Some pl ->
  GmailService.parse_message now message = Ok parsed ->
  Forall (fun a => pa_filename a ≠ "" ∧ pa_attachment_id a ≠ "") (attachments parsed)
  ∧ (length (attachments parsed) <= length (get (GmailApi.parts pl) []))%nat
  ∧ (has_attachments parsed = true <-> attachments parsed ≠ []).
Proof.
  intros Epl E. unfold GmailService.parse_message in E. rewrite Epl in E.
  simpl in E. apply bind_Ok_inv in E as (headers & _ & E).
  apply bind_Ok_inv in E as (bodies & _ & E).
  apply bind_Ok_inv in E as (atts & Ea & E).
  repeat (apply bind_Ok_inv in E as (? & _ & E)).
  injection E as <-. simpl.
  assert (Hatts : Forall (fun a => pa_filename a ≠ "" ∧ pa_attachment_id a ≠ "") atts
                  ∧ (length atts <= length (get (GmailApi.parts pl) []))%nat).
  { destruct (GmailApi.parts pl) as [ps|]; simpl.
    - by apply attachments_of_parts_named.
    - injection Ea as <-. split; [constructor | simpl; lia]. }
  destruct Hatts as [Hall Hlen]. repeat split; try done.
  - intros Hb. apply bool_decide_eq_true in Hb. by destruct atts; [simpl in Hb; lia|].
  - intros Hne. apply bool_decide_eq_true. destruct atts; [done | simpl; lia].
Qed.

Lemma gmail_attachments_have_name_and_id_witness :
  ∃ parsed,
    GmailService.parse_message 1000 Fixtures.gmail_with_parts = Ok parsed
    ∧ pa_filename <$> attachments parsed = ["report.pdf"]
    ∧ Forall (fun a => pa_filename a ≠ "" ∧ pa_attachment_id a ≠ "") (attachments parsed)
    ∧ (length (attachments parsed) <= 3)%nat
    ∧ (has_attachments parsed = true <-> attachments parsed ≠ []).
Proof.
  eexists. split; [reflexivity|]. split; [reflexivity|].
  match goal with |- Forall _ (attachments ?p) ∧ _ =>
    exact (gmail_attachments_have_name_and_id 1000 Fixtures.gmail_with_parts _ p
             eq_refl eq_refl)
  end.
Defined.

(** ** The Outlook adapter *)

(** X20.  A Graph message parses exactly when it has an id and every one
    of its recipients, of the three kinds, carries an address; every
    other key may be missing. *)
Theorem outlook_parse_succeeds_iff `{PyRuntime} (now : Z) (message : GraphApi.Message) :
  is_ok (OutlookService.parse_message now message) = true
  <-> GraphApi.id message ≠ None ∧ Forall has_address (recipients message).
Proof.
  unfold recipients. rewrite !Forall_app, <- !for_each_address_of.
  unfold OutlookService.parse_message.
  destruct (for_each OutlookService.address_of (get (GraphApi.toRecipients message) []));
    simpl; [|split; [done | by intros (_ & ? & _)]].
  destruct (for_each OutlookService.address_of (get (GraphApi.ccRecipients message) []));
    simpl; [|split; [done | by intros (_ & _ & ? & _)]].
  destruct (for_each OutlookService.address_of (get (GraphApi.bccRecipients message) []));
    simpl; [|split; [done | by intros (_ & _ & _ & ?)]].
  destruct (GraphApi.id message); simpl; split; try done. by intros [? _].
Qed.

(** X21.  A parsed Graph message has one body at most: the content is
    the HTML body when the content type is exactly [html] and the text
    body otherwise, and the other body is empty.  Its attachments are
    listed only under the provider's [hasAttachments] flag. *)
Theorem outlook_parse_keeps_one_body `{PyRuntime} (now : Z) (message : GraphApi.Message)
    (parsed : Parsed) :
  OutlookService.parse_message now message = Ok parsed ->
  (body_text parsed = "" ∨ body_html parsed = "")
  ∧ (body_html parsed ≠ "" ->
     ∃ b, GraphApi.body message = Some b ∧ GraphApi.contentType b = Some "html")
  ∧ (attachments parsed ≠ [] -> has_attachments parsed = true).
Proof.
  unfold OutlookService.parse_message. intros E.
  repeat (apply bind_Ok_inv in E as (? & _ & E)).
  injection E as <-. simpl. split; [|split].
  - case_bool_decide; [by left | by right].
  - case_bool_decide as Hc; [|done]. intros _.
    destruct (GraphApi.body message) as [b|]; [eauto | done].
  - by destruct (get (GraphApi.hasAttachments message) false).
Qed.

Lemma outlook_parse_keeps_one_body_witness :
  ∃ parsed,
    OutlookService.parse_message 1000 Fixtures.graph_html = Ok parsed
    ∧ body_html parsed = "<p>hi</p>"
    ∧ (body_text parsed = "" ∨ body_html parsed = "")
    ∧ (body_html parsed ≠ "" ->
       ∃ b, GraphApi.body Fixtures.graph_html = Some b
            ∧ GraphApi.contentType b = Some "html")
    ∧ (attachments parsed ≠ [] -> has_attachments parsed = true).
Proof.
  eexists. split; [reflexivity|]. split; [reflexivity|].
  match goal with |- (body_text ?p = _ ∨ _) ∧ _ =>
    exact (outlook_parse_keeps_one_body 1000 Fixtures.graph_html p eq_refl)
  end.
Defined.

(** ** The stamp of the last sync *)

(** X22.  [last_synced_at] marks the successful runs and no other: after
    a run of the task for a stored account, the account's committed row
    carries the instant of the run when the run returned success, and the
    stamp it had before when the run was skipped or failed, whatever the
    token refresh committed on the way. *)
Theorem last_synced_at_marks_success `{PyRuntime} (w : World) (account_id : Z)
    (db : Store) (account : EmailAccount) (r : result SyncReturn) (σ : Session) :
  select_account account_id db = [account] ->
  SyncTasks.sync_account_task w account_id db = (r, σ) ->
  ∃ a, select_account account_id (committed σ) = [a]
       ∧ ((r = Ok (Success account_id) ∧ last_synced_at a = Some (utcnow w))
          ∨ (r ≠ Ok (Success account_id) ∧ last_synced_at a = last_synced_at account)).
Proof.
  intros Ea Hrun.
  destruct (sync_account_task_cases w account_id db)
    as [(r' & E & Hns)|(account' & σa & a & Ea' & Hid & Hact & Ec & Eacc & _ & _ & Hdur & E)];
    rewrite E in Hrun.
  { injection Hrun as <- <-. exists account. split; [done|]. right. split; [apply Hns | done]. }
  rewrite Ea in Ea'. injection Ea' as <-. subst account_id.
  pose proof (check_token_stamp w account db σa a Ea Ec Eacc) as Hstamp.
  assert (Hold : ∃ b, select_account (acc_id account) (committed σa) = [b]
                      ∧ last_synced_at b = last_synced_at account).
  { destruct (Hdur (committed σa)) as [->| ->]; [apply list_elem_of_here | eauto..]. }
  unfold finish_sync in Hrun.
  destruct (fetch_batch w (provider account) a) as [batch|e].
  - pose proof (ingest_keeps_frame w (records batch) (acc_id account) σa) as Hframe.
    destruct (ingest w (records batch) (acc_id account) σa) as [[[]|e] σi];
      simpl in Hframe; injection Hrun as <- <-.
    + eexists. split; [apply (account_after_success w _ _ σa σi a Eacc Hframe)|].
      left. split; [done|]. by destruct (new_cursor batch).
    + destruct Hold as (b & Eb & Hb). exists b. destruct Hframe as (Hc & _).
      split; [simpl; by rewrite Hc|]. right. done.
  - injection Hrun as <- <-. destruct Hold as (b & Eb & Hb). exists b.
    split; [done|]. right. done.
Qed.

Lemma last_synced_at_marks_success_witness :
  let run := SyncTasks.sync_account_task Sample.graph_down 1 (Sample.expired_inbox (Some "r")) in
  ∃ a, select_account 1 (committed run.2) = [a]
       ∧ ((run.1 = Ok (Success 1) ∧ last_synced_at a = Some 1000)
          ∨ (run.1 ≠ Ok (Success 1) ∧ last_synced_at a = None)).
Proof.
  intros run.
  apply (last_synced_at_marks_success Sample.graph_down 1 (Sample.expired_inbox (Some "r"))
           (Sample.outlook_account (Some 500) (Some "r") (Sample.cursor "d1")) run.1 run.2).
  - reflexivity.
  - apply surjective_pairing.
Defined.

(** ** Sending through Outlook *)

(** X23.  What [OutlookService.send_message] sends and reports.  It
    reports [sent] only when the provider answered its request, made with
    the caller's token, with a 2xx status; a reply (a non-empty
    [in_reply_to]) carries the body and nothing else, so the recipients
    and the subject given to it do not reach the provider; and with a
    non-empty HTML body the text body is not sent. *)
Theorem outlook_send_drops_what_it_does_not_use
    (graph_post : OutlookMail.Request -> result (Response unit))
    (access_token : option string) (to : list string) (subject : string)
    (body_html body_text in_reply_to : option string) :
  (∀ r, OutlookMail.send_message graph_post access_token to subject body_html body_text
          in_reply_to = Ok r ->
        r = "sent"
        ∧ ∃ request response,
            graph_post request = Ok response
            ∧ OutlookMail.bearer request = access_token
            ∧ 200 <= status_code response < 300)
  ∧ (truthy in_reply_to = true ->
     ∀ to' subject',
       OutlookMail.send_message graph_post access_token to subject body_html body_text
         in_reply_to
       = OutlookMail.send_message graph_post access_token to' subject' body_html body_text
           in_reply_to)
  ∧ (truthy body_html = true ->
     ∀ body_text',
       OutlookMail.send_message graph_post access_token to subject body_html body_text
         in_reply_to
       = OutlookMail.send_message graph_post access_token to subject body_html body_text'
           in_reply_to).
Proof.
  unfold OutlookMail.send_message. split; [|split].
  - intros r E. apply bind_Ok_inv in E as (response & Ep & E).
    apply bind_Ok_inv in E as ([] & Es & E). injection E as <-. split; [done|].
    assert (Hs : 200 <= status_code response < 300).
    { unfold raise_for_status in Es.
      destruct (200 <=? status_code response) eqn:E1; [|done].
      destruct (status_code response <? 300) eqn:E2; [|done]. lia. }
    destruct in_reply_to as [[|c i]|]; eexists _, response; (split; [exact Ep|]); done.
  - intros Hr to' subject'. by destruct in_reply_to as [[|c i]|].
  - intros Hh body_text'. by rewrite Hh.
Qed.

Lemma outlook_send_drops_what_it_does_not_use_witness :
  OutlookMail.send_message Fixtures.accepted (Some "token") ["ann@example.org"] "minutes"
    None (Some "thanks") (Some "o1")
  = OutlookMail.send_message Fixtures.accepted (Some "token") [] "" None (Some "thanks")
      (Some "o1").
Proof.
  destruct (outlook_send_drops_what_it_does_not_use Fixtures.accepted (Some "token")
              ["ann@example.org"] "minutes" None (Some "thanks") (Some "o1"))
    as (_ & Hreply & _).
  apply Hreply. reflexivity.
Defined.

(** ** The attachment rows *)

(** X24.  A record that is new to the message table and goes in adds one
    attachment row for each of its parsed attachments, in their order, at
    the end of the table: each row points to the record's message and
    carries the file name, size, type and provider id of its attachment.
    No other attachment row is added or changed. *)
Theorem new_record_stores_its_attachments `{PyRuntime} (parsed : Parsed)
    (account_id : Z) (σ σ' : Session) :
  select_message (provider_message_id parsed) (pending σ) = [] ->
  SyncTasks.store_parsed parsed account_id σ = (Ok tt, σ') ->
  ∃ m rows,
    select_message (provider_message_id parsed) (pending σ') = [m]
    ∧ attachments_table (pending σ') = (attachments_table (pending σ) ++ rows)%list
    ∧ Forall2 (row_of (m_id m)) (attachments parsed) rows.
Proof.
  intros Em E.
  apply store_parsed_Ok_inv in E as [(m & Em' & _)|(_ & tid & ts & -> & _)];
    [congruence|].
  destruct (add_attachments_rows (attachments parsed)
              (next_id (m_id <$> messages (pending σ))) (attachments_table (pending σ)))
    as (rows & Erows & Hrows).
  eexists _, rows. split; [simpl; by apply select_message_new|].
  split; [exact Erows | exact Hrows].
Qed.

Lemma new_record_stores_its_attachments_witness :
  let parsed :=
    {| provider_message_id := "m2"; thread_id := "conv"; from_addr := "bob@example.org";
       to_addrs := []; cc_addrs := []; bcc_addrs := None; subject := "minutes";
       date := zoned 150; body_text := ""; body_html := ""; snippet := "newer";
       attachments := [ {| pa_filename := "report.pdf"; pa_mime_type := "application/pdf";
                           pa_size := 2048; pa_attachment_id := "att-1" |} ];
       has_attachments := true |} in
  let σ' := (SyncTasks.store_parsed parsed 1 (open_session Sample.inbox)).2 in
  ∃ m rows,
    select_message "m2" (pending σ') = [m]
    ∧ attachments_table (pending σ') = ([] ++ rows)%list
    ∧ Forall2 (row_of (m_id m)) (attachments parsed) rows.
Proof.
  intros parsed σ'.
  apply (new_record_stores_its_attachments parsed 1 (open_session Sample.inbox) σ').
  - reflexivity.
  - vm_compute. reflexivity.
Defined.
